(** * OAuthKitchen: risk scoring, permission translation and shadow-OAuth
      detection, embedded from [oauthkitchen/analyzers] and
      [oauthkitchen/models.py], [oauthkitchen/config.py].

    Conventions of the embedding.
    - Python [int] is [Z]; [str] is [string], read as ASCII text
      ([str.lower] and [str.split] act on the ASCII letters and blanks).
    - Python [float] is an abstract carrier [F] with the operations the
      analyzers use (interface [PyFloat]).  Two instances are given:
      [binary64] (IEEE-754 doubles, Rocq's primitive floats, what CPython
      runs) and [exact] (rationals, no rounding, no overflow).
    - A Python exception is [None] in the option monad ([int(x)] on a NaN or
      an infinity, [int * float] on an integer beyond the double range).
    - A [dict] whose iteration order is observable is an insertion-ordered
      association list; a [set] of strings is a [gset string], iterated in
      the order of [elements].
    - Values derived from the wall clock ([days_until_expiry], [age_days],
      [days_since_last_activity]) are fields holding the value the property
      returned.
    - Statements about scores are made on [binary64].  Under the default
      weights every contribution is a multiple of one half, so the doubles
      add without rounding and the score on doubles is the score of exact
      arithmetic ([score_binary64_exact]); what is stated for [exact] only
      says so. *)

From Stdlib Require Import ZArith QArith Qround Floats Lia Lqa Ascii String List.
From stdpp Require Import base option list gmap strings pretty sorting.

Local Open Scope string_scope.
Local Open Scope list_scope.
Local Open Scope Z_scope.

(** ** Python floats *)

Class PyFloat (F : Type) := {
  (** a decimal literal [n/d], correctly rounded *)
  fconst : Q -> F;
  (** conversion of an [int] operand; [None] is OverflowError *)
  float_of_int : Z -> option F;
  fadd : F -> F -> F;
  fsub : F -> F -> F;
  fmul : F -> F -> F;
  (** [x > y] *)
  fgt : F -> F -> bool;
  (** [int(x)], truncation toward zero; [None] is ValueError/OverflowError *)
  int_of_float : F -> option Z
}.

(** [i * w] with [i : int] and [w : float]. *)
Definition imul {F} `{PyFloat F} (i : Z) (w : F) : option F :=
  x ← float_of_int i; Some (fmul x w).

Module Exact.
Definition gt (x y : Q) : bool := negb (Qle_bool x y).
Definition trunc (x : Q) : Z := Z.quot (Qnum x) (Zpos (Qden x)).
End Exact.

#[global] Instance exact : PyFloat Q := {|
  fconst q := q;
  float_of_int i := Some (inject_Z i);
  fadd := Qplus;
  fsub := Qminus;
  fmul := Qmult;
  fgt := Exact.gt;
  int_of_float x := Some (Exact.trunc x)
|}.

Module Binary64.
(** Round-to-nearest-even conversion of an integer. *)
Definition of_Z (z : Z) : float :=
  SF2Prim (binary_normalize prec emax z 0 false).

Definition of_int (z : Z) : option float :=
  let x := of_Z z in
  if PrimFloat.is_infinity x then None else Some x.

Definition const (q : Q) : float :=
  PrimFloat.div (of_Z (Qnum q)) (of_Z (Zpos (Qden q))).

Definition trunc (x : float) : option Z :=
  match Prim2SF x with
  | S754_zero _ => Some 0
  | S754_finite s m e =>
      let a := if 0 <=? e then Z.shiftl (Zpos m) e
               else Z.shiftr (Zpos m) (- e) in
      Some (if s then - a else a)
  | S754_infinity _ => None
  | S754_nan => None
  end.

Definition gt (x y : float) : bool := PrimFloat.ltb y x.
End Binary64.

#[global] Instance binary64 : PyFloat float := {|
  fconst := Binary64.const;
  float_of_int := Binary64.of_int;
  fadd := PrimFloat.add;
  fsub := PrimFloat.sub;
  fmul := PrimFloat.mul;
  fgt := Binary64.gt;
  int_of_float := Binary64.trunc
|}.

(** ** Python strings and dicts *)

Definition is_upper (a : ascii) : bool :=
  let n := nat_of_ascii a in (65 <=? n)%nat && (n <=? 90)%nat.

Definition ascii_lower (a : ascii) : ascii :=
  if is_upper a then ascii_of_nat (nat_of_ascii a + 32) else a.

(** [s.lower()] *)
Fixpoint lower (s : string) : string :=
  match s with
  | EmptyString => EmptyString
  | String a s' => String (ascii_lower a) (lower s')
  end.

(** The blanks [str.split()] separates on. *)
Definition is_space (a : ascii) : bool :=
  let n := nat_of_ascii a in
  ((9 <=? n)%nat && (n <=? 13)%nat) || ((28 <=? n)%nat && (n <=? 32)%nat).

(** [s.split()]: the maximal runs of non-blank characters.  [cur] is the
    run being read, reversed. *)
Fixpoint split_aux (s : string) (cur : list ascii) : list string :=
  let flush :=
    match cur with
    | [] => []
    | _ => [string_of_list_ascii (rev cur)]
    end in
  match s with
  | EmptyString => flush
  | String a s' =>
      if is_space a then flush ++ split_aux s' []
      else split_aux s' (a :: cur)
  end.

Definition split (s : string) : list string := split_aux s [].

(** [bool(s)] for a string. *)
Definition nonempty (s : string) : bool :=
  match s with EmptyString => false | _ => true end.

(** An insertion-ordered [dict] with string keys. *)
Definition dict (V : Type) : Type := list (string * V).

Fixpoint dict_get {V} (k : string) (d : dict V) : option V :=
  match d with
  | [] => None
  | (k', v) :: d' => if String.eqb k k' then Some v else dict_get k d'
  end.

(** [d[k] = v]: an existing key keeps its position. *)
Fixpoint dict_set {V} (k : string) (v : V) (d : dict V) : dict V :=
  match d with
  | [] => [(k, v)]
  | (k', v') :: d' =>
      if String.eqb k k' then (k, v) :: d' else (k', v') :: dict_set k v d'
  end.

(** [sorted(l, key=key)]: stable, ascending. *)
Fixpoint insert_by {A} (key : A -> Z) (x : A) (l : list A) : list A :=
  match l with
  | [] => [x]
  | y :: l' => if key y <=? key x then y :: insert_by key x l' else x :: l
  end.

Definition sorted_by {A} (key : A -> Z) (l : list A) : list A :=
  foldl (fun acc x => insert_by key x acc) [] l.

(** [sorted(l, key=key, reverse=True)]: stable, descending. *)
Fixpoint insert_by_desc {A} (key : A -> Z) (x : A) (l : list A) : list A :=
  match l with
  | [] => [x]
  | y :: l' => if key x <=? key y then y :: insert_by_desc key x l' else x :: l
  end.

Definition sorted_by_desc {A} (key : A -> Z) (l : list A) : list A :=
  foldl (fun acc x => insert_by_desc key x acc) [] l.

(** The body of a loop that extends a result list, run over [l]. *)
Fixpoint extend_each {A B} (body : A -> option (list B)) (l : list A)
  : option (list B) :=
  match l with
  | [] => Some []
  | x :: l' => ys ← body x; zs ← extend_each body l'; Some (ys ++ zs)
  end.

(** ** models.py *)

Module CredentialType.
Inductive t := PASSWORD | CERTIFICATE.
Definition value (c : t) : string :=
  match c with PASSWORD => "password" | CERTIFICATE => "certificate" end.
End CredentialType.

Module ConsentType.
Inductive t := ADMIN | USER | UNKNOWN.
Definition eqb (a b : t) : bool :=
  match a, b with
  | ADMIN, ADMIN | USER, USER | UNKNOWN, UNKNOWN => true
  | _, _ => false
  end.
End ConsentType.

Module RiskCategory.
Inductive t :=
| READ_ONLY | DATA_EXFILTRATION | PRIVILEGE_ESCALATION | TENANT_TAKEOVER
| PERSISTENCE | LATERAL_MOVEMENT | UNKNOWN.
End RiskCategory.

Module AppType.
Inductive t :=
| FIRST_PARTY_MICROSOFT | TENANT_OWNED | THIRD_PARTY_MULTI_TENANT
| EXTERNAL_UNKNOWN.
Definition eqb (a b : t) : bool :=
  match a, b with
  | FIRST_PARTY_MICROSOFT, FIRST_PARTY_MICROSOFT
  | TENANT_OWNED, TENANT_OWNED
  | THIRD_PARTY_MULTI_TENANT, THIRD_PARTY_MULTI_TENANT
  | EXTERNAL_UNKNOWN, EXTERNAL_UNKNOWN => true
  | _, _ => false
  end.
End AppType.

#[global] Instance AppType_eq_dec : EqDecision AppType.t.
Proof. solve_decision. Defined.

(** A credential; its two datetimes are replaced by the values of the
    properties computed from them. *)
Record Credential := {
  cred_credential_id : string;
  cred_credential_type : CredentialType.t;
  cred_display_name : option string;
  (** [days_until_expiry]: [None] without an end date *)
  cred_days_until_expiry : option Z;
  (** [age_days]: [None] without a start date *)
  cred_age_days : option Z
}.

Record Owner := {
  owner_object_id : string;
  owner_display_name : option string;
  owner_user_principal_name : option string;
  owner_object_type : string
}.

Record OAuth2PermissionGrant := {
  grant_id : string;
  grant_client_id : string;
  grant_consent_type : ConsentType.t;
  grant_principal_id : option string;
  grant_resource_id : string;
  (** space-separated scopes *)
  grant_scope : string
}.

(** [OAuth2PermissionGrant.scopes]; [split] leaves no blank and no empty
    piece, so the [strip] and the filter of the source change nothing. *)
Definition scopes (g : OAuth2PermissionGrant) : list string :=
  filter (fun s => nonempty s = true) (split (grant_scope g)).

Record AppRoleAssignment := {
  role_id : string;
  role_app_role_id : string;
  role_principal_id : string;
  role_resource_id : string;
  role_resource_display_name : option string;
  role_value : option string
}.

Record SignInActivity := {
  (** [days_since_last_activity]: [None] when no sign-in was ever seen *)
  days_since_last_activity : option Z;
  data_available : bool
}.

(** An app registration, with the fields the scorer reads. *)
Record Application := {
  app_object_id : string;
  app_app_id : string;
  app_display_name : string;
  password_credentials : list Credential;
  key_credentials : list Credential
}.

Definition all_credentials (app : Application) : list Credential :=
  password_credentials app ++ key_credentials app.

(** Credentials expiring within 90 days with the days remaining, soonest
    first. *)
Definition expiring_credentials (app : Application) : list (Credential * Z) :=
  sorted_by snd
    (omap (fun cred =>
             match cred_days_until_expiry cred with
             | Some days =>
                 if (0 <=? days) && (days <=? 90) then Some (cred, days)
                 else None
             | None => None
             end)
          (all_credentials app)).

(** A service principal, with the fields the analyzers read. *)
Record ServicePrincipal := {
  object_id : string;
  app_id : string;
  display_name : string;
  app_type : AppType.t;
  (** the raw [verified_publisher] dict, reduced to its
      ["verifiedPublisherId"] entry: [None] without a dict, [Some None]
      without the entry *)
  verified_publisher : option (option string);
  app_owner_organization_id : option string;
  owners : list Owner;
  oauth2_permission_grants : list OAuth2PermissionGrant;
  app_role_assignments : list AppRoleAssignment;
  sign_in_activity : option SignInActivity;
  linked_application : option Application;
  unique_consenting_users : gset string
}.

Definition has_verified_publisher (sp : ServicePrincipal) : bool :=
  match verified_publisher sp with
  | Some (Some publisher_id) => nonempty publisher_id
  | _ => false
  end.

Definition has_owners (sp : ServicePrincipal) : bool :=
  (0 <? length (owners sp))%nat.

Definition has_delegated_grants (sp : ServicePrincipal) : bool :=
  (0 <? length (oauth2_permission_grants sp))%nat.

Definition all_delegated_scopes (sp : ServicePrincipal) : gset string :=
  foldl (fun acc grant => acc ∪ list_to_set (scopes grant)) ∅
        (oauth2_permission_grants sp).

Definition all_app_role_values (sp : ServicePrincipal) : gset string :=
  list_to_set
    (omap (fun a =>
             match role_value a with
             | Some v => if nonempty v then Some v else None
             | None => None
             end)
          (app_role_assignments sp)).

Definition consent_user_count (sp : ServicePrincipal) : nat :=
  size (unique_consenting_users sp).

Record RiskFactor (F : Type) := {
  name : string;
  description : string;
  score : Z;
  weight : F;
  details : option string
}.
Arguments name {F}.
Arguments description {F}.
Arguments score {F}.
Arguments weight {F}.
Arguments details {F}.

Record RiskScore (F : Type) := {
  total_score : Z;
  risk_level : string;
  factors : list (RiskFactor F)
}.
Arguments total_score {F}.
Arguments risk_level {F}.
Arguments factors {F}.

Record ShadowOAuthFinding := {
  finding_type : string;
  severity : string;
  title : string;
  finding_description : string;
  service_principal_id : string;
  service_principal_name : string;
  affected_scopes : list string;
  affected_user_count : nat;
  recommendation : option string
}.

(** The analysis result, with the fields [detect] reads and writes. *)
Record AnalysisResult := {
  service_principals : list ServicePrincipal;
  shadow_findings : list ShadowOAuthFinding;
  sign_in_data_available : bool
}.

(** ** config.py *)

Record ThresholdConfig := {
  credential_expiry_critical : Z;
  credential_expiry_high : Z;
  credential_expiry_medium : Z;
  credential_expiry_low : Z;
  inactive_days_threshold : Z;
  credential_age_concern : Z
}.

Definition default_thresholds : ThresholdConfig := {|
  credential_expiry_critical := 7;
  credential_expiry_high := 30;
  credential_expiry_medium := 60;
  credential_expiry_low := 90;
  inactive_days_threshold := 90;
  credential_age_concern := 365
|}.

(** The float weights; the seven integer category scores of the source
    ([score_tenant_takeover] ...) are read by no analyzer and left out. *)
Record ScoringWeights (F : Type) := {
  application_permission_multiplier : F;
  delegated_permission_multiplier : F;
  user_consent_weight : F;
  admin_consent_weight : F;
  no_verified_publisher_weight : F;
  external_multi_tenant_weight : F;
  first_party_microsoft_weight : F;
  no_owner_weight : F;
  unused_high_privilege_weight : F
}.
Arguments application_permission_multiplier {F}.
Arguments delegated_permission_multiplier {F}.
Arguments user_consent_weight {F}.
Arguments admin_consent_weight {F}.
Arguments no_verified_publisher_weight {F}.
Arguments external_multi_tenant_weight {F}.
Arguments first_party_microsoft_weight {F}.
Arguments no_owner_weight {F}.
Arguments unused_high_privilege_weight {F}.

Definition default_scoring {F} `{PyFloat F} : ScoringWeights F := {|
  application_permission_multiplier := fconst (15 # 10);
  delegated_permission_multiplier := fconst 1;
  user_consent_weight := fconst (12 # 10);
  admin_consent_weight := fconst 1;
  no_verified_publisher_weight := fconst (13 # 10);
  external_multi_tenant_weight := fconst (12 # 10);
  first_party_microsoft_weight := fconst (3 # 10);
  no_owner_weight := fconst (13 # 10);
  unused_high_privilege_weight := fconst (14 # 10)
|}.

Record AllowDenyConfig := {
  allowed_app_ids : list string;
  denied_app_ids : list string;
  trusted_publisher_domains : list string
}.

Definition default_allow_deny : AllowDenyConfig := {|
  allowed_app_ids := [];
  denied_app_ids := [];
  trusted_publisher_domains := []
|}.

(** The parts of [Config] the analyzers read. *)
Record Config (F : Type) := {
  thresholds : ThresholdConfig;
  scoring : ScoringWeights F;
  allow_deny : AllowDenyConfig
}.
Arguments thresholds {F}.
Arguments scoring {F}.
Arguments allow_deny {F}.

Definition default_config {F} `{PyFloat F} : Config F := {|
  thresholds := default_thresholds;
  scoring := default_scoring;
  allow_deny := default_allow_deny
|}.

(** ** analyzers/translator.py *)

(** One permission entry of the rules document, as parsed from YAML: every
    field is optional. *)
Record PermData := {
  pd_resource : option string;
  pd_display_name : option string;
  pd_plain_english : option string;
  pd_category : option string;
  pd_impact_score : option Z;
  pd_abuse_scenarios : option (list string);
  pd_admin_impact_note : option string
}.

(** A value of [PermissionTranslator.rules]: the dict
    [{"resource": resource, **perm_data}]. *)
Record Rule := {
  rule_resource : string;
  rule_display_name : option string;
  rule_plain_english : option string;
  rule_category : option string;
  rule_impact_score : option Z;
  rule_abuse_scenarios : option (list string);
  rule_admin_impact_note : option string
}.

Record TranslatedPermission := {
  permission : string;
  resource : string;
  plain_english : string;
  category : RiskCategory.t;
  category_label : string;
  impact_score : Z;
  abuse_scenarios : list string;
  admin_impact_note : option string;
  is_known : bool
}.

Definition CATEGORY_LABELS (c : RiskCategory.t) : string :=
  match c with
  | RiskCategory.READ_ONLY => "Read-only"
  | RiskCategory.DATA_EXFILTRATION => "Data exfiltration"
  | RiskCategory.PRIVILEGE_ESCALATION => "Privilege escalation"
  | RiskCategory.TENANT_TAKEOVER => "Tenant takeover potential"
  | RiskCategory.PERSISTENCE => "Persistence"
  | RiskCategory.LATERAL_MOVEMENT => "Lateral movement"
  | RiskCategory.UNKNOWN => "Unknown"
  end.

Definition _parse_category (category_str : string) : RiskCategory.t :=
  let mapping : dict RiskCategory.t :=
    [ ("read_only", RiskCategory.READ_ONLY);
      ("data_exfiltration", RiskCategory.DATA_EXFILTRATION);
      ("privilege_escalation", RiskCategory.PRIVILEGE_ESCALATION);
      ("tenant_takeover", RiskCategory.TENANT_TAKEOVER);
      ("persistence", RiskCategory.PERSISTENCE);
      ("lateral_movement", RiskCategory.LATERAL_MOVEMENT) ] in
  default RiskCategory.UNKNOWN (dict_get (lower category_str) mapping).

(** The rule stored for [perm_name] of group [resource]. *)
Definition make_rule (resource : string) (perm_data : PermData) : Rule := {|
  rule_resource := default resource (pd_resource perm_data);
  rule_display_name := pd_display_name perm_data;
  rule_plain_english := pd_plain_english perm_data;
  rule_category := pd_category perm_data;
  rule_impact_score := pd_impact_score perm_data;
  rule_abuse_scenarios := pd_abuse_scenarios perm_data;
  rule_admin_impact_note := pd_admin_impact_note perm_data
|}.

(** [_load_rules] on a parsed document: the resource groups in document
    order; a group whose value is not a mapping ([None]) is passed over. *)
Definition _load_rules
    (data : list (string * option (list (string * PermData))))
    (rules : dict Rule) : dict Rule :=
  foldl (fun rules '(resource, permissions) =>
           match permissions with
           | Some permissions =>
               foldl (fun rules '(perm_name, perm_data) =>
                        let key := lower perm_name in
                        dict_set key (make_rule resource perm_data) rules)
                     rules permissions
           | None => rules
           end)
        rules data.

(** [translate(permission, resource)].  A stored rule always carries its
    "resource" entry: it is a non-empty dict, so [if rule] holds on every
    hit and [rule.get("resource", resource)] never falls back. *)
Definition translate (rules : dict Rule) (permission : string)
    (resource : string) : TranslatedPermission :=
  let key := lower permission in
  match dict_get key rules with
  | Some rule =>
      let category :=
        _parse_category (default "unknown" (rule_category rule)) in
      {| permission := permission;
         resource := rule_resource rule;
         plain_english :=
           default (default permission (rule_display_name rule))
                   (rule_plain_english rule);
         category := category;
         category_label := CATEGORY_LABELS category;
         impact_score := default 30 (rule_impact_score rule);
         abuse_scenarios := default [] (rule_abuse_scenarios rule);
         admin_impact_note := rule_admin_impact_note rule;
         is_known := true |}
  | None =>
      {| permission := permission;
         resource := resource;
         plain_english :=
           "Permission: " +:+ permission +:+ " (no translation available)";
         category := RiskCategory.UNKNOWN;
         category_label := "Unknown - requires review";
         impact_score := 30;
         abuse_scenarios := [];
         admin_impact_note := None;
         is_known := false |}
  end.

(** [translate(permission)] with the default resource argument. *)
Definition translate1 (rules : dict Rule) (permission : string)
  : TranslatedPermission :=
  translate rules permission "microsoft_graph".

Definition get_high_impact_permissions (rules : dict Rule) (min_score : Z)
  : list (string * TranslatedPermission) :=
  let results :=
    omap (fun '(perm_key, rule) =>
            if min_score <=? default 0 (rule_impact_score rule) then
              let perm_name :=
                match find (fun orig_key =>
                              String.eqb (lower orig_key) perm_key)
                           (map fst rules) with
                | Some orig_key => orig_key
                | None => default perm_key (rule_display_name rule)
                end in
              Some (perm_name, translate1 rules perm_name)
            else None)
         rules in
  sorted_by_desc (fun x => impact_score (snd x)) results.

(** ** analyzers/scoring.py *)

(** [x or fallback] for an optional string. *)
Definition str_or (x : option string) (fallback : string) : string :=
  match x with
  | Some s => if nonempty s then s else fallback
  | None => fallback
  end.

Definition CRITICAL_THRESHOLD : Z := 80.
Definition HIGH_THRESHOLD : Z := 60.
Definition MEDIUM_THRESHOLD : Z := 40.

Section RiskScorer.
Context {F : Type} `{PyFloat F}.
(** [self.config] and [self.translator.rules] *)
Variable config : Config F.
Variable rules : dict Rule.

Let weights := scoring config.

(** The role values the scorer looks at: not the ["Default Access"]
    sentinel. *)
Definition scored_role (role_value : string) : bool :=
  nonempty role_value && negb (String.eqb role_value "Default Access").

Definition _score_permissions (sp : ServicePrincipal)
  : option (list (RiskFactor F)) :=
  delegated ←
    extend_each
      (fun scope =>
         let translated := translate1 rules scope in
         let base_score := impact_score translated in
         x ← imul base_score (delegated_permission_multiplier weights);
         score ← int_of_float x;
         Some (if 0 <? score then
                 [ {| name := "Delegated: " +:+ scope;
                      description := plain_english translated;
                      score := score;
                      weight := fconst 1;
                      details :=
                        Some ("Category: " +:+ category_label translated)
                   |} ]
               else []))
      (elements (all_delegated_scopes sp));
  application ←
    extend_each
      (fun role_value =>
         if negb (scored_role role_value) then Some []
         else
           let translated := translate1 rules role_value in
           let base_score := impact_score translated in
           x ← imul base_score (application_permission_multiplier weights);
           score ← int_of_float x;
           Some (if 0 <? score then
                   [ {| name := "Application: " +:+ role_value;
                        description := plain_english translated;
                        score := score;
                        weight := fconst 1;
                        details :=
                          Some ("Category: " +:+ category_label translated)
                     |} ]
                 else []))
      (elements (all_app_role_values sp));
  let has_user_consent :=
    existsb (fun grant =>
               ConsentType.eqb (grant_consent_type grant) ConsentType.USER)
            (oauth2_permission_grants sp) in
  Some (delegated ++ application ++
        if has_user_consent then
          [ {| name := "User Consent Present";
               description :=
                 "Some permissions were granted via user consent (not admin)";
               score := 20;
               weight := user_consent_weight weights;
               details :=
                 Some ("Users who consented: " +:+
                       pretty (consent_user_count sp)) |} ]
        else []).

Definition _score_trust_factors (sp : ServicePrincipal)
  : list (RiskFactor F) :=
  if AppType.eqb (app_type sp) AppType.FIRST_PARTY_MICROSOFT then
    [ {| name := "Microsoft First-Party";
         description := "This is a Microsoft first-party application";
         score := -30;
         weight := first_party_microsoft_weight weights;
         details := None |} ]
  else
    (if negb (has_verified_publisher sp) then
       [ {| name := "No Verified Publisher";
            description := "App does not have a verified publisher";
            score := 15;
            weight := no_verified_publisher_weight weights;
            details := None |} ]
     else []) ++
    (if AppType.eqb (app_type sp) AppType.THIRD_PARTY_MULTI_TENANT then
       [ {| name := "Third-Party Multi-Tenant";
            description := "App is owned by external organization";
            score := 10;
            weight := external_multi_tenant_weight weights;
            details :=
              Some ("Owner org: " +:+
                    str_or (app_owner_organization_id sp) "Unknown") |} ]
     else if AppType.eqb (app_type sp) AppType.EXTERNAL_UNKNOWN then
       [ {| name := "Unknown Origin";
            description := "App origin could not be determined";
            score := 20;
            weight := external_multi_tenant_weight weights;
            details := None |} ]
     else []).

(** The running [max_impact] of a loop over [perms]. *)
Definition max_impact_over (max_impact : Z) (perms : list string) : Z :=
  foldl (fun max_impact p =>
           Z.max max_impact (impact_score (translate1 rules p)))
        max_impact perms.

Definition _score_ownership (sp : ServicePrincipal) : list (RiskFactor F) :=
  if negb (has_owners sp) then
    let max_impact := max_impact_over 0 (elements (all_delegated_scopes sp)) in
    let max_impact :=
      max_impact_over max_impact
        (filter (fun role => scored_role role = true)
                (elements (all_app_role_values sp))) in
    let score := if 70 <=? max_impact then 15 else 10 in
    [ {| name := "No Owners";
         description := "Service principal has no assigned owners";
         score := score;
         weight := no_owner_weight weights;
         details := Some "Orphaned apps are harder to manage and review" |} ]
  else [].

Definition _score_activity (sp : ServicePrincipal) : list (RiskFactor F) :=
  match sign_in_activity sp with
  | None => []
  | Some activity =>
      if negb (data_available activity) then []
      else
        let threshold := inactive_days_threshold (thresholds config) in
        match days_since_last_activity activity with
        | None =>
            if bool_decide (all_delegated_scopes sp ≠ ∅)
               || bool_decide (all_app_role_values sp ≠ ∅) then
              [ {| name := "Never Used";
                   description :=
                     "App has permissions but no sign-in activity recorded";
                   score := 15;
                   weight := unused_high_privilege_weight weights;
                   details :=
                     Some "Consider reviewing if these permissions are still needed"
                |} ]
            else []
        | Some days_inactive =>
            if threshold <? days_inactive then
              let max_impact :=
                max_impact_over 0 (elements (all_delegated_scopes sp)) in
              if 70 <=? max_impact then
                [ {| name := "Inactive High-Privilege";
                     description :=
                       "App unused for " +:+ pretty days_inactive +:+
                       " days with high-impact permissions";
                     score := 25;
                     weight := unused_high_privilege_weight weights;
                     details :=
                       Some ("Threshold: " +:+ pretty threshold +:+ " days")
                  |} ]
              else []
            else []
        end
  end.

Definition _score_credentials (sp : ServicePrincipal)
  : list (RiskFactor F) :=
  match linked_application sp with
  | None => []
  | Some app =>
      flat_map
        (fun '(cred, days) =>
           if days <=? credential_expiry_critical (thresholds config) then
             [ {| name :=
                    "Credential Expiring (" +:+
                    CredentialType.value (cred_credential_type cred) +:+ ")";
                  description :=
                    "Credential expires in " +:+ pretty days +:+ " days";
                  score := 10;
                  weight := fconst (12 # 10);
                  details :=
                    Some (str_or (cred_display_name cred)
                                 "Unnamed credential") |} ]
           else [])
        (expiring_credentials app)
      ++
      flat_map
        (fun cred =>
           match cred_age_days cred with
           | Some age =>
               if negb (age =? 0)
                  && (credential_age_concern (thresholds config) <? age) then
                 [ {| name := "Old Credential";
                      description :=
                        "Credential is " +:+ pretty age +:+ " days old";
                      score := 5;
                      weight := fconst 1;
                      details :=
                        Some ("Consider rotating: " +:+
                              str_or (cred_display_name cred) "Unnamed") |} ]
               else []
           | None => []
           end)
        (all_credentials app)
  end.

(** The loop of [_calculate_total]: [total += factor.score * factor.weight]. *)
Fixpoint weighted_sum (total : F) (factors : list (RiskFactor F))
  : option F :=
  match factors with
  | [] => Some total
  | factor :: factors' =>
      contribution ← imul (score factor) (weight factor);
      weighted_sum (fadd total contribution) factors'
  end.

(** [100 + (total - 100) * 0.1] above 100. *)
Definition diminish (total : F) : F :=
  if fgt total (fconst 100) then
    fadd (fconst 100) (fmul (fsub total (fconst 100)) (fconst (1 # 10)))
  else total.

Definition cap (total : F) : F :=
  if fgt total (fconst 120) then fconst 120 else total.

Definition _calculate_total (factors : list (RiskFactor F)) : option Z :=
  match factors with
  | [] => Some 0
  | _ =>
      total ← weighted_sum (fconst 0) factors;
      let total := diminish total in
      let total := cap total in
      i ← int_of_float total;
      Some (Z.max 0 (Z.min 100 i))
  end.

Definition score_service_principal (sp : ServicePrincipal)
  : option (RiskScore F) :=
  if bool_decide (app_id sp ∈ allowed_app_ids (allow_deny config)) then
    Some {| total_score := 0;
            risk_level := "Allowed";
            factors :=
              [ {| name := "Allow List";
                   description := "App is on the allow list";
                   score := 0;
                   weight := fconst 1;
                   details := None |} ] |}
  else
    let factors : list (RiskFactor F) :=
      if bool_decide (app_id sp ∈ denied_app_ids (allow_deny config)) then
        [ {| name := "Deny List";
             description := "App is on the deny list";
             score := 100;
             weight := fconst 1;
             details := Some ("App ID: " +:+ app_id sp) |} ]
      else [] in
    permission_factors ← _score_permissions sp;
    let factors := factors ++ permission_factors in
    let factors := factors ++ _score_trust_factors sp in
    let factors := factors ++ _score_ownership sp in
    let factors := factors ++ _score_activity sp in
    let factors :=
      match linked_application sp with
      | Some _ => factors ++ _score_credentials sp
      | None => factors
      end in
    total ← _calculate_total factors;
    let risk_level :=
      if CRITICAL_THRESHOLD <=? total then "Critical"
      else if HIGH_THRESHOLD <=? total then "High"
      else if MEDIUM_THRESHOLD <=? total then "Medium"
      else "Low" in
    Some {| total_score := total;
            risk_level := risk_level;
            factors := factors |}.

End RiskScorer.

(** ** analyzers/shadow.py *)

Definition HIGH_IMPACT_SCOPES : gset string :=
  {[ "Directory.ReadWrite.All";
     "RoleManagement.ReadWrite.Directory";
     "Application.ReadWrite.All";
     "AppRoleAssignment.ReadWrite.All";
     "Mail.ReadWrite";
     "Mail.Read";
     "Files.ReadWrite.All";
     "Files.Read.All";
     "Sites.ReadWrite.All";
     "User.ReadWrite.All";
     "Group.ReadWrite.All";
     "GroupMember.ReadWrite.All";
     "Chat.Read.All";
     "ChannelMessage.Read.All" ]}.

(** [bool(s)] for a set. *)
Definition nonempty_set (s : gset string) : bool := bool_decide (s ≠ ∅).

(** [severity_order.get(f.severity, 99)] *)
Definition severity_order (sev : string) : Z :=
  default 99
    (dict_get sev [("Critical", 0); ("High", 1); ("Medium", 2); ("Low", 3)]).

Section ShadowOAuthDetector.
Context {F : Type}.
Variable config : Config F.

Definition _detect_external_delegated_grants (sp : ServicePrincipal)
  : list ShadowOAuthFinding :=
  if negb (AppType.eqb (app_type sp) AppType.THIRD_PARTY_MULTI_TENANT
           || AppType.eqb (app_type sp) AppType.EXTERNAL_UNKNOWN) then []
  else if negb (has_delegated_grants sp) then []
  else
    let high_impact := all_delegated_scopes sp ∩ HIGH_IMPACT_SCOPES in
    let all_scopes := elements (all_delegated_scopes sp) in
    if nonempty_set high_impact then
      [ {| finding_type := "external_delegated_high_impact";
           severity := "High";
           title := "External App with High-Impact Delegated Permissions";
           finding_description :=
             "Third-party app '" +:+ display_name sp +:+
             "' has delegated permissions " +:+
             "including high-impact scopes. This app is not owned by your tenant.";
           service_principal_id := object_id sp;
           service_principal_name := display_name sp;
           affected_scopes := elements high_impact;
           affected_user_count := consent_user_count sp;
           recommendation :=
             Some ("Review if this app is still needed. Verify the publisher and " +:+
                   "consider reducing permissions or removing the app.") |} ]
    else
      match all_scopes with
      | _ :: _ =>
          [ {| finding_type := "external_delegated";
               severity := "Medium";
               title := "External App with Delegated Permissions";
               finding_description :=
                 "Third-party app '" +:+ display_name sp +:+
                 "' has delegated permissions. " +:+
                 "This app is not owned by your tenant.";
               service_principal_id := object_id sp;
               service_principal_name := display_name sp;
               affected_scopes := all_scopes;
               affected_user_count := consent_user_count sp;
               recommendation :=
                 Some "Verify this app is authorized for use in your organization."
            |} ]
      | [] => []
      end.

Definition _detect_user_consent_high_impact (sp : ServicePrincipal)
  : list ShadowOAuthFinding :=
  let user_consented_scopes : gset string :=
    foldl (fun acc grant =>
             if ConsentType.eqb (grant_consent_type grant) ConsentType.USER
             then acc ∪ list_to_set (scopes grant) else acc)
          ∅ (oauth2_permission_grants sp) in
  if negb (nonempty_set user_consented_scopes) then []
  else
    let high_impact := user_consented_scopes ∩ HIGH_IMPACT_SCOPES in
    if nonempty_set high_impact then
      [ {| finding_type := "user_consent_high_impact";
           severity := "High";
           title := "User-Consented App with High-Impact Permissions";
           finding_description :=
             "App '" +:+ display_name sp +:+
             "' received high-impact permissions via user consent " +:+
             "(not admin consent). " +:+ pretty (consent_user_count sp) +:+
             " user(s) granted consent.";
           service_principal_id := object_id sp;
           service_principal_name := display_name sp;
           affected_scopes := elements high_impact;
           affected_user_count := consent_user_count sp;
           recommendation :=
             Some ("Review user consent settings. Consider blocking user consent for " +:+
                   "high-impact permissions and requiring admin approval.") |} ]
    else [].

Definition _detect_offline_access_risk (sp : ServicePrincipal)
  : list ShadowOAuthFinding :=
  if negb (bool_decide ("offline_access" ∈ all_delegated_scopes sp)) then []
  else
    let other_scopes :=
      all_delegated_scopes sp
      ∖ {[ "offline_access"; "openid"; "profile"; "email" ]} in
    let high_impact := other_scopes ∩ HIGH_IMPACT_SCOPES in
    if nonempty_set high_impact then
      [ {| finding_type := "offline_access_high_impact";
           severity := "Medium";
           title := "Long-Lived Token Risk with High-Impact Permissions";
           finding_description :=
             "App '" +:+ display_name sp +:+
             "' has offline_access (refresh tokens) combined " +:+
             "with high-impact permissions. This allows persistent access even after " +:+
             "password changes.";
           service_principal_id := object_id sp;
           service_principal_name := display_name sp;
           affected_scopes := elements (high_impact ∪ {[ "offline_access" ]});
           affected_user_count := consent_user_count sp;
           recommendation :=
             Some ("Consider if offline_access is necessary. Review token lifetime policies " +:+
                   "and implement Conditional Access for app access controls.") |} ]
    else [].

Definition _detect_inactive_privileged (sp : ServicePrincipal)
    (result : AnalysisResult) : list ShadowOAuthFinding :=
  if negb (sign_in_data_available result) then []
  else
    match sign_in_activity sp with
    | None => []
    | Some activity =>
        if negb (data_available activity) then []
        else
          let threshold := inactive_days_threshold (thresholds config) in
          let inactive : option string :=
            match days_since_last_activity activity with
            | None => Some "never been used"
            | Some days_inactive =>
                if threshold <? days_inactive then
                  Some ("not been used in " +:+ pretty days_inactive +:+ " days")
                else None
            end in
          match inactive with
          | None => []
          | Some inactive_msg =>
              let all_perms :=
                all_delegated_scopes sp ∪ all_app_role_values sp in
              let high_impact := all_perms ∩ HIGH_IMPACT_SCOPES in
              if nonempty_set high_impact then
                [ {| finding_type := "inactive_privileged";
                     severity := "High";
                     title := "Inactive App with High-Impact Permissions";
                     finding_description :=
                       "App '" +:+ display_name sp +:+ "' has " +:+
                       inactive_msg +:+ " but retains " +:+
                       "high-impact permissions.";
                     service_principal_id := object_id sp;
                     service_principal_name := display_name sp;
                     affected_scopes := elements high_impact;
                     affected_user_count := 0;
                     recommendation :=
                       Some ("Review if this app is still needed. Consider removing or reducing " +:+
                             "permissions for unused apps (inactive threshold: " +:+
                             pretty threshold +:+ " days).") |} ]
              else []
          end
    end.

Definition _detect_orphaned_privileged (sp : ServicePrincipal)
  : list ShadowOAuthFinding :=
  if has_owners sp then []
  else
    let all_perms := all_delegated_scopes sp ∪ all_app_role_values sp in
    let high_impact := all_perms ∩ HIGH_IMPACT_SCOPES in
    if nonempty_set high_impact then
      [ {| finding_type := "orphaned_privileged";
           severity := "High";
           title := "Orphaned App with High-Impact Permissions";
           finding_description :=
             "App '" +:+ display_name sp +:+
             "' has no assigned owners but has " +:+
             "high-impact permissions.";
           service_principal_id := object_id sp;
           service_principal_name := display_name sp;
           affected_scopes := elements high_impact;
           affected_user_count := 0;
           recommendation :=
             Some ("Assign owners to this app to ensure accountability. " +:+
                   "Consider if the permissions are still needed.") |} ]
    else if nonempty_set all_perms then
      [ {| finding_type := "orphaned_with_permissions";
           severity := "Medium";
           title := "Orphaned App with Permissions";
           finding_description :=
             "App '" +:+ display_name sp +:+
             "' has no assigned owners but has " +:+
             "active permissions.";
           service_principal_id := object_id sp;
           service_principal_name := display_name sp;
           affected_scopes := elements all_perms;
           affected_user_count := 0;
           recommendation :=
             Some "Assign owners to this app to ensure accountability." |} ]
    else [].

Definition _detect_unknown_publisher_high_impact (sp : ServicePrincipal)
  : list ShadowOAuthFinding :=
  if has_verified_publisher sp then []
  else if AppType.eqb (app_type sp) AppType.TENANT_OWNED then []
  else
    let all_perms := all_delegated_scopes sp ∪ all_app_role_values sp in
    let high_impact := all_perms ∩ HIGH_IMPACT_SCOPES in
    if nonempty_set high_impact then
      [ {| finding_type := "unverified_publisher_high_impact";
           severity := "High";
           title := "Unverified Publisher with High-Impact Permissions";
           finding_description :=
             "App '" +:+ display_name sp +:+
             "' has no verified publisher but has " +:+
             "high-impact permissions.";
           service_principal_id := object_id sp;
           service_principal_name := display_name sp;
           affected_scopes := elements high_impact;
           affected_user_count := 0;
           recommendation :=
             Some ("Verify the legitimacy of this app. Consider requiring verified " +:+
                   "publishers for apps with high-impact permissions.") |} ]
    else [].

(** One turn of the loop of [detect] over [result.service_principals]. *)
Definition detect_step (result : AnalysisResult)
    (findings : list ShadowOAuthFinding) (sp : ServicePrincipal)
  : list ShadowOAuthFinding :=
  if AppType.eqb (app_type sp) AppType.FIRST_PARTY_MICROSOFT then findings
  else if bool_decide (app_id sp ∈ allowed_app_ids (allow_deny config))
  then findings
  else
    let findings := findings ++ _detect_external_delegated_grants sp in
    let findings := findings ++ _detect_user_consent_high_impact sp in
    let findings := findings ++ _detect_offline_access_risk sp in
    let findings := findings ++ _detect_inactive_privileged sp result in
    let findings := findings ++ _detect_orphaned_privileged sp in
    let findings := findings ++ _detect_unknown_publisher_high_impact sp in
    findings.

(** [detect] returns the findings and stores them in the result. *)
Definition detect (result : AnalysisResult)
  : list ShadowOAuthFinding * AnalysisResult :=
  let findings := foldl (detect_step result) [] (service_principals result) in
  let findings := sorted_by (fun f => severity_order (severity f)) findings in
  (findings,
   {| service_principals := service_principals result;
      shadow_findings := findings;
      sign_in_data_available := sign_in_data_available result |}).

End ShadowOAuthDetector.

(** * Definitions used by the statements *)

(** ** Building blocks for identities and catalogs *)

Definition an_owner : Owner := {|
  owner_object_id := "o1";
  owner_display_name := Some "Owner";
  owner_user_principal_name := Some "o@x.com";
  owner_object_type := "user"
|}.

(** A grant of the scope string [scope] with the given consent type. *)
Definition a_grant (consent : ConsentType.t) (scope : string)
  : OAuth2PermissionGrant := {|
  grant_id := "grant";
  grant_client_id := "sp";
  grant_consent_type := consent;
  grant_principal_id := None;
  grant_resource_id := "graph";
  grant_scope := scope
|}.

(** An application role assignment whose resolved role value is [value]. *)
Definition a_role (value : string) : AppRoleAssignment := {|
  role_id := "role";
  role_app_role_id := "role-id";
  role_principal_id := "sp";
  role_resource_id := "graph";
  role_resource_display_name := Some "Graph";
  role_value := Some value
|}.

(** A service principal with a verified publisher, no sign-in data and no
    linked application. *)
Definition a_principal (id : string) (type : AppType.t)
    (grants : list OAuth2PermissionGrant) (roles : list AppRoleAssignment)
    (owned_by : list Owner) : ServicePrincipal := {|
  object_id := "sp-" +:+ id;
  app_id := id;
  display_name := "App " +:+ id;
  app_type := type;
  verified_publisher := Some (Some "publisher-1");
  app_owner_organization_id := Some "tenant-1";
  owners := owned_by;
  oauth2_permission_grants := grants;
  app_role_assignments := roles;
  sign_in_activity := None;
  linked_application := None;
  unique_consenting_users := ∅
|}.

(** A rule that sets nothing but, possibly, the impact score. *)
Definition rule_with_impact (impact : option Z) : Rule := {|
  rule_resource := "microsoft_graph";
  rule_display_name := None;
  rule_plain_english := None;
  rule_category := None;
  rule_impact_score := impact;
  rule_abuse_scenarios := None;
  rule_admin_impact_note := None
|}.

(** ** Variants of a configuration and of an identity *)

(** [config] with its allow and deny lists replaced. *)
Definition with_lists {F} (config : Config F) (allowed denied : list string)
  : Config F := {|
  thresholds := thresholds config;
  scoring := scoring config;
  allow_deny := {| allowed_app_ids := allowed;
                   denied_app_ids := denied;
                   trusted_publisher_domains :=
                     trusted_publisher_domains (allow_deny config) |}
|}.

(** [sp] with one more admin-consented grant of the single scope [v]. *)
Definition with_scope (sp : ServicePrincipal) (v : string)
  : ServicePrincipal := {|
  object_id := object_id sp;
  app_id := app_id sp;
  display_name := display_name sp;
  app_type := app_type sp;
  verified_publisher := verified_publisher sp;
  app_owner_organization_id := app_owner_organization_id sp;
  owners := owners sp;
  oauth2_permission_grants :=
    oauth2_permission_grants sp ++ [a_grant ConsentType.ADMIN v];
  app_role_assignments := app_role_assignments sp;
  sign_in_activity := sign_in_activity sp;
  linked_application := linked_application sp;
  unique_consenting_users := unique_consenting_users sp
|}.

(** [sp] with one more application role assignment of value [v]. *)
Definition with_role (sp : ServicePrincipal) (v : string)
  : ServicePrincipal := {|
  object_id := object_id sp;
  app_id := app_id sp;
  display_name := display_name sp;
  app_type := app_type sp;
  verified_publisher := verified_publisher sp;
  app_owner_organization_id := app_owner_organization_id sp;
  owners := owners sp;
  oauth2_permission_grants := oauth2_permission_grants sp;
  app_role_assignments := app_role_assignments sp ++ [a_role v];
  sign_in_activity := sign_in_activity sp;
  linked_application := linked_application sp;
  unique_consenting_users := unique_consenting_users sp
|}.

(** ** Scores and factors the statements name *)

(** The score returned for an allow-listed identity. *)
Definition allow_list_score {F} `{PyFloat F} : RiskScore F := {|
  total_score := 0;
  risk_level := "Allowed";
  factors := [ {| name := "Allow List";
                  description := "App is on the allow list";
                  score := 0;
                  weight := fconst 1;
                  details := None |} ]
|}.

(** The factor injected for a deny-listed identity. *)
Definition deny_factor {F} `{PyFloat F} (sp : ServicePrincipal)
  : RiskFactor F := {|
  name := "Deny List";
  description := "App is on the deny list";
  score := 100;
  weight := fconst 1;
  details := Some ("App ID: " +:+ app_id sp)
|}.

(** The trust factor of a first-party identity. *)
Definition first_party_factor {F} (config : Config F) : RiskFactor F := {|
  name := "Microsoft First-Party";
  description := "This is a Microsoft first-party application";
  score := -30;
  weight := first_party_microsoft_weight (scoring config);
  details := None
|}.

(** A factor of positive score whose weight satisfies [W]. *)
Definition positive_factor {F} (W : F -> Prop) (f : RiskFactor F) : Prop :=
  0 < score f /\ W (weight f).

(** The configured weights that multiply a positive score are
    non-negative. *)
Definition weights_nonneg (w : ScoringWeights Q) : Prop :=
  (0 <= user_consent_weight w)%Q
  /\ (0 <= no_verified_publisher_weight w)%Q
  /\ (0 <= external_multi_tenant_weight w)%Q
  /\ (0 <= no_owner_weight w)%Q
  /\ (0 <= unused_high_privilege_weight w)%Q.


(** ** Catalogs and listings *)

(** A rule map as [_load_rules] builds it: distinct, lower-cased keys. *)
Definition well_formed (rules : dict Rule) : Prop :=
  NoDup (map fst rules) /\ Forall (fun k => lower k = k) (map fst rules).

(** A list in descending order of [key]. *)
Definition descending {A} (key : A -> Z) : list A -> Prop :=
  StronglySorted (fun x y => key y <= key x).

(** ** Detection *)

(** The identities the loop of [detect] passes over. *)
Definition skipped {F} (config : Config F) (sp : ServicePrincipal) : bool :=
  AppType.eqb (app_type sp) AppType.FIRST_PARTY_MICROSOFT
  || bool_decide (app_id sp ∈ allowed_app_ids (allow_deny config)).

(** The findings of the six rules for one identity, in rule order. *)
Definition detection_rules {F} (config : Config F) (result : AnalysisResult)
    (sp : ServicePrincipal) : list ShadowOAuthFinding :=
  _detect_external_delegated_grants sp
  ++ _detect_user_consent_high_impact sp
  ++ _detect_offline_access_risk sp
  ++ _detect_inactive_privileged config sp result
  ++ _detect_orphaned_privileged sp
  ++ _detect_unknown_publisher_high_impact sp.


(** ** The total in exact arithmetic *)

(** [factor.score * factor.weight]. *)
Definition contribution (f : RiskFactor Q) : Q :=
  (inject_Z (score f) * weight f)%Q.

(** The sum of the contributions: the weighted total before
    normalisation. *)
Definition wsum (fs : list (RiskFactor Q)) : Q :=
  foldr (fun f acc => (contribution f + acc)%Q) 0%Q fs.

(** What [_calculate_total] makes of a weighted sum [s]. *)
Definition total_of (s : Q) : Z :=
  Z.max 0 (Z.min 100 (Exact.trunc (cap (diminish s)))).

(** The factor, if any, that the first loop of [_score_permissions] emits
    for one delegated scope. *)
Definition delegated_entry (config : Config Q) (rules : dict Rule)
    (scope : string) : list (RiskFactor Q) :=
  let translated := translate1 rules scope in
  let points :=
    Exact.trunc (inject_Z (impact_score translated)
                 * delegated_permission_multiplier (scoring config)) in
  if 0 <? points then
    [ {| name := "Delegated: " +:+ scope;
         description := plain_english translated;
         score := points;
         weight := 1%Q;
         details := Some ("Category: " +:+ category_label translated) |} ]
  else [].

(** The factor, if any, that the second loop emits for one role value. *)
Definition application_entry (config : Config Q) (rules : dict Rule)
    (role_value : string) : list (RiskFactor Q) :=
  if negb (scored_role role_value) then []
  else
    let translated := translate1 rules role_value in
    let points :=
      Exact.trunc (inject_Z (impact_score translated)
                   * application_permission_multiplier (scoring config)) in
    if 0 <? points then
      [ {| name := "Application: " +:+ role_value;
           description := plain_english translated;
           score := points;
           weight := 1%Q;
           details := Some ("Category: " +:+ category_label translated) |} ]
    else [].

(** The user-consent factor, if any. *)
Definition consent_entry (config : Config Q) (sp : ServicePrincipal)
  : list (RiskFactor Q) :=
  if existsb (fun grant =>
                ConsentType.eqb (grant_consent_type grant) ConsentType.USER)
             (oauth2_permission_grants sp) then
    [ {| name := "User Consent Present";
         description :=
           "Some permissions were granted via user consent (not admin)";
         score := 20;
         weight := user_consent_weight (scoring config);
         details :=
           Some ("Users who consented: " +:+ pretty (consent_user_count sp))
      |} ]
  else [].

(** ** The total without the cap *)

(** [max(0, min(100, int(t')))] with [t'] the weighted sum after the
    diminishing-returns step: [_calculate_total] without the early return
    on an empty list and without the cap at 120. *)
Definition calculate_total_uncapped {F} `{PyFloat F}
    (factors : list (RiskFactor F)) : option Z :=
  total ← weighted_sum (fconst 0) factors;
  i ← int_of_float (diminish total);
  Some (Z.max 0 (Z.min 100 i)).

(** ** Example data *)

(** A rules document with one entry, Mail.Read of impact 75, and the
    catalog loaded from it. *)
Definition mail_document
  : list (string * option (list (string * PermData))) :=
  [ ("microsoft_graph",
     Some [ ("Mail.Read",
             {| pd_resource := None;
                pd_display_name := Some "Read user mail";
                pd_plain_english := Some "Can read all email in mailboxes";
                pd_category := Some "data_exfiltration";
                pd_impact_score := Some 75;
                pd_abuse_scenarios := Some ["Exfiltrate mail"];
                pd_admin_impact_note := None |}) ]) ].

Definition mail_catalog : dict Rule := _load_rules mail_document [].

(** Catalogs given as rule maps: Mail.ReadWrite of impact 80; a rule
    without an impact score; impacts 100 and 1. *)
Definition mail_rules : dict Rule :=
  [("mail.readwrite", rule_with_impact (Some 80))].

Definition bare_rules : dict Rule :=
  [("custom.perm", rule_with_impact None)].

Definition takeover_rules : dict Rule :=
  [("directory.readwrite.all", rule_with_impact (Some 100));
   ("user.readbasic.all", rule_with_impact (Some 1))].

(** A third-party identity without owners that holds two scopes by user
    consent. *)
Definition risky_principal : ServicePrincipal :=
  a_principal "app-risky" AppType.THIRD_PARTY_MULTI_TENANT
    [a_grant ConsentType.USER "Mail.ReadWrite offline_access"] [] [].

(** A tenant-owned identity with an owner and nothing else. *)
Definition owned_principal : ServicePrincipal :=
  a_principal "app-owned" AppType.TENANT_OWNED [] [] [an_owner].

(** First-party identities with an owner: one holding Mail.Read by admin
    consent, one holding nothing. *)
Definition first_party_mail_reader : ServicePrincipal :=
  a_principal "00000003-0000-0000-c000-000000000000"
    AppType.FIRST_PARTY_MICROSOFT
    [a_grant ConsentType.ADMIN "Mail.Read"] [] [an_owner].


(** The default configuration with "app-denied" on the deny list, and the
    tenant-owned identity of that id. *)
Definition denied_config {F} `{PyFloat F} : Config F :=
  with_lists default_config [] ["app-denied"].

Definition denied_principal : ServicePrincipal :=
  a_principal "app-denied" AppType.TENANT_OWNED [] [] [an_owner].

(** A sign-in record 100 days old, and a tenant-owned identity without
    owners carrying it. *)
Definition stale_activity : SignInActivity :=
  {| days_since_last_activity := Some 100; data_available := true |}.

Definition stale_principal (grants : list OAuth2PermissionGrant)
    (roles : list AppRoleAssignment) : ServicePrincipal := {|
  object_id := "sp-stale";
  app_id := "app-stale";
  display_name := "Stale App";
  app_type := AppType.TENANT_OWNED;
  verified_publisher := Some (Some "publisher-1");
  app_owner_organization_id := Some "tenant-1";
  owners := [];
  oauth2_permission_grants := grants;
  app_role_assignments := roles;
  sign_in_activity := Some stale_activity;
  linked_application := None;
  unique_consenting_users := ∅
|}.

(** The default configuration of doubles with [user_consent_weight] set to
    1e308. *)
Definition overflow_config : Config float := {|
  thresholds := default_thresholds;
  scoring := {|
    application_permission_multiplier :=
      application_permission_multiplier default_scoring;
    delegated_permission_multiplier :=
      delegated_permission_multiplier default_scoring;
    user_consent_weight := Binary64.of_Z (10 ^ 308);
    admin_consent_weight := admin_consent_weight default_scoring;
    no_verified_publisher_weight :=
      no_verified_publisher_weight default_scoring;
    external_multi_tenant_weight :=
      external_multi_tenant_weight default_scoring;
    first_party_microsoft_weight :=
      first_party_microsoft_weight default_scoring;
    no_owner_weight := no_owner_weight default_scoring;
    unused_high_privilege_weight :=
      unused_high_privilege_weight default_scoring
  |};
  allow_deny := default_allow_deny
|}.

(** The user-consent factor as emitted under a configured
    [user_consent_weight] of 1e308. *)
Definition overflowing_factor : RiskFactor float := {|
  name := "User Consent Present";
  description := "Some permissions were granted via user consent (not admin)";
  score := 20;
  weight := Binary64.of_Z (10 ^ 308);
  details := Some "Users who consented: 1"
|}.

(** * Further functions of the program, and definitions for their statements *)

(** [Credential.is_expired] *)
Definition is_expired (cred : Credential) : bool :=
  match cred_days_until_expiry cred with
  | Some days => days <? 0
  | None => false
  end.

(** [AnalysisResult] with the fields [score_all] writes. *)
Record ScoredAnalysis (F : Type) := {
  analysis : AnalysisResult;
  risk_scores : dict (RiskScore F);
  critical_count : nat;
  high_risk_count : nat
}.
Arguments analysis {F}.
Arguments risk_scores {F}.
Arguments critical_count {F}.
Arguments high_risk_count {F}.

(** [AnalysisResult.top_risky_apps] *)
Definition top_risky_apps {F} (result : ScoredAnalysis F)
  : list (ServicePrincipal * RiskScore F) :=
  let scored :=
    omap (fun sp =>
            match dict_get (object_id sp) (risk_scores result) with
            | Some score => Some (sp, score)
            | None => None
            end)
         (service_principals (analysis result)) in
  take 10 (sorted_by_desc (fun x => total_score (snd x)) scored).

Section RiskScorerAll.
Context {F : Type} `{PyFloat F}.
Variable config : Config F.
Variable rules : dict Rule.

(** The loop of [score_all] over [result.service_principals]. *)
Fixpoint score_all_loop (sps : list ServicePrincipal)
    (scores : dict (RiskScore F)) (critical_count high_count : nat)
  : option (dict (RiskScore F) * nat * nat) :=
  match sps with
  | [] => Some (scores, critical_count, high_count)
  | sp :: sps' =>
      score ← score_service_principal config rules sp;
      let scores := dict_set (object_id sp) score scores in
      if String.eqb (risk_level score) "Critical" then
        score_all_loop sps' scores (S critical_count) high_count
      else if String.eqb (risk_level score) "High" then
        score_all_loop sps' scores critical_count (S high_count)
      else score_all_loop sps' scores critical_count high_count
  end.

(** [score_all]: the updated result; the value returned is its
    [risk_scores]. *)
Definition score_all (result : AnalysisResult) : option (ScoredAnalysis F) :=
  '(scores, critical_count, high_count) ←
    score_all_loop (service_principals result) [] 0%nat 0%nat;
  Some {| analysis := result;
          risk_scores := scores;
          critical_count := critical_count;
          high_risk_count := high_count |}.

End RiskScorerAll.

(** A string without a blank, and a non-empty one. *)
Definition blank_free (s : string) : Prop :=
  Forall (fun a => is_space a = false) (list_ascii_of_string s).

Definition token (s : string) : Prop := s <> EmptyString /\ blank_free s.

(** A list in ascending order of [key]. *)
Definition ascending {A} (key : A -> Z) : list A -> Prop :=
  StronglySorted (fun x y => key x <= key y).

(** The level [score_service_principal] gives [sp], if it returns. *)
Definition scored_level {F} `{PyFloat F} (config : Config F)
    (rules : dict Rule) (sp : ServicePrincipal) : option string :=
  risk_level <$> score_service_principal config rules sp.

(** A result with four identities: the third-party [risky_principal], a
    first-party reader of mail, the tenant-owned [owned_principal] and the
    deny-listed [denied_principal]. *)
Definition sample_result : AnalysisResult := {|
  service_principals :=
    [risky_principal; first_party_mail_reader; owned_principal;
     denied_principal];
  shadow_findings := [];
  sign_in_data_available := false
|}.

(** A credential whose end date is 0 to [n] days ahead. *)
Definition expires_within (n : Z) (cred : Credential) : bool :=
  match cred_days_until_expiry cred with
  | Some days => (0 <=? days) && (days <=? n)
  | None => false
  end.

(** A credential whose age is known, not 0 and above [n] days. *)
Definition older_than (n : Z) (cred : Credential) : bool :=
  match cred_age_days cred with
  | Some age => negb (age =? 0) && (n <? age)
  | None => false
  end.

(** A tenant-owned identity with an owner that never signed in and holds
    nothing but the "Default Access" role. *)
Definition default_access_principal : ServicePrincipal := {|
  object_id := "sp-default";
  app_id := "app-default";
  display_name := "Default App";
  app_type := AppType.TENANT_OWNED;
  verified_publisher := Some (Some "publisher-1");
  app_owner_organization_id := Some "tenant-1";
  owners := [an_owner];
  oauth2_permission_grants := [];
  app_role_assignments := [a_role "Default Access"];
  sign_in_activity :=
    Some {| days_since_last_activity := None; data_available := true |};
  linked_application := None;
  unique_consenting_users := ∅
|}.

(** A password credential named [id] with the given days to expiry and
    age. *)
Definition a_credential (id : string) (days age : option Z) : Credential := {|
  cred_credential_id := id;
  cred_credential_type := CredentialType.PASSWORD;
  cred_display_name := Some id;
  cred_days_until_expiry := days;
  cred_age_days := age
|}.

(** An application with four credentials: ending in 3 days (400 days
    old), in 45 days, expired 5 days ago (700 days old) and ending in 120
    days; and a tenant-owned identity linked to it. *)
Definition rotating_app : Application := {|
  app_object_id := "app-object";
  app_app_id := "app-linked";
  app_display_name := "Linked App";
  password_credentials :=
    [ a_credential "soon" (Some 3) (Some 400);
      a_credential "later" (Some 45) (Some 10);
      a_credential "expired" (Some (-5)) (Some 700) ];
  key_credentials := [ a_credential "far" (Some 120) None ]
|}.

Definition linked_principal : ServicePrincipal := {|
  object_id := "sp-linked";
  app_id := "app-linked";
  display_name := "Linked App";
  app_type := AppType.TENANT_OWNED;
  verified_publisher := Some (Some "publisher-1");
  app_owner_organization_id := Some "tenant-1";
  owners := [an_owner];
  oauth2_permission_grants := [];
  app_role_assignments := [];
  sign_in_activity := None;
  linked_application := Some rotating_app;
  unique_consenting_users := ∅
|}.

(** ** analyzers/translator.py, continued *)

(** [RiskCategory.value] *)
Definition risk_category_value (c : RiskCategory.t) : string :=
  match c with
  | RiskCategory.READ_ONLY => "read_only"
  | RiskCategory.DATA_EXFILTRATION => "data_exfiltration"
  | RiskCategory.PRIVILEGE_ESCALATION => "privilege_escalation"
  | RiskCategory.TENANT_TAKEOVER => "tenant_takeover"
  | RiskCategory.PERSISTENCE => "persistence"
  | RiskCategory.LATERAL_MOVEMENT => "lateral_movement"
  | RiskCategory.UNKNOWN => "unknown"
  end.

(** [known_permission_count] *)
Definition known_permission_count (rules : dict Rule) : nat := length rules.

(** The entries of a rules document in reading order, each under the key
    [_load_rules] stores it at. *)
Definition entries (data : list (string * option (list (string * PermData))))
  : list (string * Rule) :=
  flat_map (fun '(resource, permissions) =>
              match permissions with
              | Some permissions =>
                  map (fun '(perm_name, perm_data) =>
                         (lower perm_name, make_rule resource perm_data))
                      permissions
              | None => []
              end)
           data.

(** ** analyzers/shadow.py, continued *)

Definition get_safe_to_review_first (findings : list ShadowOAuthFinding)
  : list ShadowOAuthFinding :=
  let safe_types : gset string :=
    {[ "orphaned_with_permissions"; "inactive_privileged";
       "orphaned_privileged" ]} in
  filter (fun f => finding_type f ∈ safe_types) findings.

(** The findings of [detect] in the order the loop emits them, before the
    sort. *)
Definition raw_findings {F} (config : Config F) (result : AnalysisResult)
  : list ShadowOAuthFinding :=
  flat_map (fun sp => if skipped config sp then []
                      else detection_rules config result sp)
           (service_principals result).

(** A finding that names [sp], lists a non-empty selection of the
    permissions [sp] holds and is either High over watch-list scopes only,
    or Medium. *)
Definition finding_about (sp : ServicePrincipal) (f : ShadowOAuthFinding)
  : Prop :=
  service_principal_id f = object_id sp
  /\ service_principal_name f = display_name sp
  /\ affected_scopes f <> []
  /\ (forall s, s ∈ affected_scopes f ->
                s ∈ all_delegated_scopes sp ∪ all_app_role_values sp)
  /\ ((severity f = "High"
       /\ forall s, s ∈ affected_scopes f -> s ∈ HIGH_IMPACT_SCOPES)
      \/ severity f = "Medium").

(** A third-party identity without owners that holds Mail.Read and
    offline_access by user consent, spelled [spelling]. *)
Definition mail_reader (spelling : string) : ServicePrincipal :=
  a_principal "app-reader" AppType.THIRD_PARTY_MULTI_TENANT
    [a_grant ConsentType.USER (spelling +:+ " offline_access")] [] [].

(** A result holding the identities [sps], without sign-in data. *)
Definition result_of (sps : list ServicePrincipal) : AnalysisResult := {|
  service_principals := sps;
  shadow_findings := [];
  sign_in_data_available := false
|}.

(** One entry of the blast-radius report. *)
Record BlastRadius := {
  br_sp_id : string;
  br_sp_name : string;
  br_app_id : string;
  br_affected_users : nat;
  br_resource_apis : list string;
  br_total_permissions : nat;
  br_severity : string
}.

(** [{sp.object_id: sp for sp in service_principals}]: a later identity
    replaces an earlier one of the same object id. *)
Definition sp_map_of (service_principals : list ServicePrincipal)
  : gmap string ServicePrincipal :=
  foldl (fun sp_map sp => <[object_id sp := sp]> sp_map) ∅ service_principals.

(** [sorted(s)] for a set of strings: ascending in the order of the
    character codes. *)
Fixpoint insert_string (x : string) (l : list string) : list string :=
  match l with
  | [] => [x]
  | y :: l' => if String.leb x y then x :: l else y :: insert_string x l'
  end.

Definition sorted_strings (s : gset string) : list string :=
  foldr insert_string [] (elements s).

(** The resource APIs an identity reaches through its grants and its role
    assignments. *)
Definition resource_apis_of (sp_map : gmap string ServicePrincipal)
    (sp : ServicePrincipal) : gset string :=
  let resource_apis : gset string :=
    foldl (fun resource_apis grant =>
             match sp_map !! grant_resource_id grant with
             | Some resource =>
                 resource_apis ∪ {[ display_name resource ]}
             | None =>
                 resource_apis
                 ∪ {[ "Resource: " +:+
                      substring 0 8 (grant_resource_id grant) +:+ "..." ]}
             end)
          ∅ (oauth2_permission_grants sp) in
  foldl (fun resource_apis assignment =>
           match role_resource_display_name assignment with
           | Some resource_display_name =>
               if nonempty resource_display_name
               then resource_apis ∪ {[ resource_display_name ]}
               else
                 match sp_map !! role_resource_id assignment with
                 | Some resource =>
                     resource_apis ∪ {[ display_name resource ]}
                 | None => resource_apis
                 end
           | None =>
               match sp_map !! role_resource_id assignment with
               | Some resource => resource_apis ∪ {[ display_name resource ]}
               | None => resource_apis
               end
           end)
        resource_apis (app_role_assignments sp).

(** The entry appended for [finding] about [sp]. *)
Definition blast_radius_entry (sp_map : gmap string ServicePrincipal)
    (finding : ShadowOAuthFinding) (sp : ServicePrincipal) : BlastRadius := {|
  br_sp_id := object_id sp;
  br_sp_name := display_name sp;
  br_app_id := app_id sp;
  br_affected_users := consent_user_count sp;
  br_resource_apis := sorted_strings (resource_apis_of sp_map sp);
  br_total_permissions :=
    size (all_delegated_scopes sp) + size (all_app_role_values sp);
  br_severity := severity finding
|}.

(** The loop of [get_blast_radius_report] over the findings. *)
Fixpoint blast_radius_loop (sp_map : gmap string ServicePrincipal)
    (findings : list ShadowOAuthFinding) (seen_sps : gset string)
  : list BlastRadius :=
  match findings with
  | [] => []
  | finding :: findings' =>
      if bool_decide (service_principal_id finding ∈ seen_sps) then
        blast_radius_loop sp_map findings' seen_sps
      else
        let seen_sps := seen_sps ∪ {[ service_principal_id finding ]} in
        match sp_map !! service_principal_id finding with
        | None => blast_radius_loop sp_map findings' seen_sps
        | Some sp =>
            blast_radius_entry sp_map finding sp
            :: blast_radius_loop sp_map findings' seen_sps
        end
  end.

Definition get_blast_radius_report (findings : list ShadowOAuthFinding)
    (service_principals : list ServicePrincipal) : list BlastRadius :=
  let sp_map := sp_map_of service_principals in
  let results := blast_radius_loop sp_map findings ∅ in
  sorted_by_desc (fun x => Z.of_nat (br_affected_users x)) results.

(** ** collectors/orchestrator.py *)

(** A credential expiry finding; [expiry_date], the end date of the
    credential, is left out with the datetimes of [Credential]. *)
Record CredentialExpiryFinding := {
  cef_app_id : string;
  cef_app_name : string;
  cef_credential_type : CredentialType.t;
  cef_credential_name : option string;
  expires_in_days : Z;
  cef_severity : string
}.

(** [DataOrchestrator._find_credential_findings] *)
Definition _find_credential_findings {F} (config : Config F)
    (applications : list Application) : list CredentialExpiryFinding :=
  let thresholds := thresholds config in
  let findings :=
    flat_map
      (fun app =>
         omap
           (fun cred =>
              match cred_days_until_expiry cred with
              | None => None
              | Some days =>
                  if is_expired cred then None
                  else if days >? credential_expiry_low thresholds then None
                  else
                    let severity :=
                      if days <=? credential_expiry_critical thresholds
                      then "Critical"
                      else if days <=? credential_expiry_high thresholds
                      then "High"
                      else if days <=? credential_expiry_medium thresholds
                      then "Medium"
                      else "Low" in
                    Some {| cef_app_id := app_app_id app;
                            cef_app_name := app_display_name app;
                            cef_credential_type := cred_credential_type cred;
                            cef_credential_name := cred_display_name cred;
                            expires_in_days := days;
                            cef_severity := severity |}
              end)
           (all_credentials app))
      applications in
  sorted_by expires_in_days findings.

(** The [expiring_credentials_30_days] statistic of [collect_all]. *)
Definition expiring_credentials_30_days
    (credential_findings : list CredentialExpiryFinding) : nat :=
  length (filter (fun f => expires_in_days f <= 30) credential_findings).

(** ** collectors/service_principals.py *)

Definition MICROSOFT_PUBLISHER_ID : string :=
  "f8cdef31-a31e-4b4a-93e4-5f571e91255a".

Definition MICROSOFT_TENANT_ID : string :=
  "72f988bf-86f1-41af-91ab-2d7cd011db47".

(** [a == b] for two values that are a string or [None]. *)
Definition opt_eqb (a b : option string) : bool :=
  match a, b with
  | Some x, Some y => String.eqb x y
  | None, None => true
  | _, _ => false
  end.

(** [ServicePrincipalCollector._classify_app_type], on the collector's
    [tenant_id] and the two entries of [data] it reads: the
    ["verifiedPublisher"] dict, reduced as in [ServicePrincipal], and
    [app_owner_org_id].  The test on ["publisherName"] has an empty
    body. *)
Definition _classify_app_type (tenant_id : string)
    (verified_publisher : option (option string))
    (app_owner_org_id : option string) : AppType.t :=
  if match verified_publisher with
     | Some publisher_id => opt_eqb publisher_id (Some MICROSOFT_PUBLISHER_ID)
     | None => false
     end
  then AppType.FIRST_PARTY_MICROSOFT
  else if opt_eqb app_owner_org_id (Some MICROSOFT_TENANT_ID)
  then AppType.FIRST_PARTY_MICROSOFT
  else if nonempty tenant_id && opt_eqb app_owner_org_id (Some tenant_id)
  then AppType.TENANT_OWNED
  else if match app_owner_org_id with
          | Some owner => nonempty owner
          | None => false
          end
          && negb (opt_eqb app_owner_org_id (Some tenant_id))
  then AppType.THIRD_PARTY_MULTI_TENANT
  else AppType.EXTERNAL_UNKNOWN.

(** * Definitions for the scorer on doubles *)

(** ** Doubles that hold a multiple of one half *)

(** The double for [k / 2]. *)
Definition half (k : Z) : spec_float := binary_normalize prec emax k (-1) false.

(** The normal double of [p * 2 ^ e], for [p] of at most 53 bits. *)
Definition canonical (s : bool) (p : positive) (e : Z) : spec_float :=
  let d := Zpos (digits2_pos p) in
  S754_finite s (Z.to_pos (Zpos p * 2 ^ (53 - d))) (e - (53 - d)).

(** A double that is at least 100: [+inf], or a positive double whose
    exponent is above that of 100, or is the same with a mantissa from
    that of 100 on. *)
Definition ge100 (f : spec_float) : Prop :=
  match f with
  | S754_infinity false => True
  | S754_finite false m e => -46 < e \/ (e = -46 /\ 100 * 2 ^ 46 <= Zpos m)
  | _ => False
  end.

(** A double that is a zero, positive or [+inf]. *)
Definition nonneg (f : spec_float) : Prop :=
  match f with
  | S754_zero _ | S754_infinity false | S754_finite false _ _ => True
  | _ => False
  end.

(** A double that is positive or [+inf]. *)
Definition positive_double (f : spec_float) : Prop :=
  match f with
  | S754_infinity false | S754_finite false _ _ => True
  | _ => False
  end.

(** [100 <= m * 2 ^ e], in integers. *)
Definition above100 (m e : Z) : Prop :=
  100 * 2 ^ Z.max 0 (- e) <= m * 2 ^ Z.max 0 e.

(** ** The deny list on doubles *)

(** The configured weights that multiply a positive score are non-negative
    doubles: from zero up to [+inf], not NaN. *)
Definition weights_nonneg64 (w : ScoringWeights float) : Prop :=
  PrimFloat.leb PrimFloat.zero (user_consent_weight w) = true
  /\ PrimFloat.leb PrimFloat.zero (no_verified_publisher_weight w) = true
  /\ PrimFloat.leb PrimFloat.zero (external_multi_tenant_weight w) = true
  /\ PrimFloat.leb PrimFloat.zero (no_owner_weight w) = true
  /\ PrimFloat.leb PrimFloat.zero (unused_high_privilege_weight w) = true.

(** The default configuration with an ownership weight of -10 and
    ["app-orphan"] on the deny list, and a tenant-owned identity of that
    application without owners. *)
Definition negative_owner_config : Config float := {|
  thresholds := default_thresholds;
  scoring := {|
    application_permission_multiplier := fconst (15 # 10);
    delegated_permission_multiplier := fconst 1;
    user_consent_weight := fconst (12 # 10);
    admin_consent_weight := fconst 1;
    no_verified_publisher_weight := fconst (13 # 10);
    external_multi_tenant_weight := fconst (12 # 10);
    first_party_microsoft_weight := fconst (3 # 10);
    no_owner_weight := fconst (-10);
    unused_high_privilege_weight := fconst (14 # 10)
  |};
  allow_deny := {| allowed_app_ids := [];
                   denied_app_ids := ["app-orphan"];
                   trusted_publisher_domains := [] |}
|}.

Definition orphan_principal : ServicePrincipal :=
  a_principal "app-orphan" AppType.TENANT_OWNED [] [] [].

#[global] Instance spec_float_eq_dec : EqDecision spec_float.
Proof. solve_decision. Defined.

(** ** The scorer on doubles against exact arithmetic *)

(** The steps of [_calculate_total] after the loop. *)
Definition normalise {F} `{PyFloat F} (total : F) : option Z :=
  i ← int_of_float (cap (diminish total));
  Some (Z.max 0 (Z.min 100 i)).

(** [score * weight] is a multiple of one half [k / 2] of at most 150, and
    the product of the doubles of [score] and [weight] is exactly this
    number. *)
Definition half_product (score : Z) (weight : Q) : option Z :=
  let q := Qred (2 * (inject_Z score * weight)) in
  let k := Qnum q in
  if (Zpos (Qden q) =? 1) && (Z.abs k <=? 300)
     && bool_decide (option_map Prim2SF
                       (imul (F:=float) score (Binary64.const weight))
                     = Some (half k))
  then Some k else None.

(** A factor, a score and a configuration of exact arithmetic, with the
    weights as doubles. *)
Definition to_double_factor (f : RiskFactor Q) : RiskFactor float := {|
  name := name f;
  description := description f;
  score := score f;
  weight := Binary64.const (weight f);
  details := details f
|}.

Definition to_double_score (r : RiskScore Q) : RiskScore float := {|
  total_score := total_score r;
  risk_level := risk_level r;
  factors := map to_double_factor (factors r)
|}.

(** The thresholds and lists of [config] with the default weights, in
    exact arithmetic. *)
Definition exact_defaults {F} (config : Config F) : Config Q := {|
  thresholds := thresholds config;
  scoring := default_scoring;
  allow_deny := allow_deny config
|}.

(** The permissions of [sp] have impact scores in the documented range. *)
Definition impacts_in_range (rules : dict Rule) (sp : ServicePrincipal)
  : Prop :=
  forall p, p ∈ all_delegated_scopes sp ∪ all_app_role_values sp ->
            0 <= impact_score (translate1 rules p) <= 100.

(** [sp] has fewer than [2 ^ 32] permissions and credentials. *)
Definition moderate_size (sp : ServicePrincipal) : Prop :=
  Z.of_nat (size (all_delegated_scopes sp) + size (all_app_role_values sp)
            + match linked_application sp with
              | Some app => length (all_credentials app)
              | None => 0
              end) < 2 ^ 32.

(** ** Example factor lists *)

Definition a_factor (n : string) (s : Z) (w : Q) : RiskFactor Q := {|
  name := n;
  description := n;
  score := s;
  weight := w;
  details := None
|}.

(** Ten factors of score 1 and weight 0.1. *)
Definition ten_tenths : list (RiskFactor Q) :=
  replicate 10 (a_factor "Tenth" 1 (1 # 10)).

(** The factors of a deny-listed third-party identity without owners and
    with two user-consented scopes of impact 30, under the default
    weights. *)
Definition sample_factors : list (RiskFactor Q) :=
  [a_factor "Deny List" 100 1;
   a_factor "Delegated: offline_access" 30 1;
   a_factor "Delegated: Mail.ReadWrite" 30 1;
   a_factor "User Consent Present" 20 (12 # 10);
   a_factor "Third-Party Multi-Tenant" 10 (12 # 10);
   a_factor "No Owners" 10 (13 # 10)].

(** * Properties *)

(** ** The literals of the default configuration as doubles *)

(** [fconst] on doubles yields the values CPython reads for the literals
    1.5, 1.2, 1.3, 0.3, 1.4 and 0.1 (written here in hexadecimal). *)
Example binary64_literals :
  application_permission_multiplier (default_scoring (F:=float)) = 0x1.8p+0%float
  /\ user_consent_weight (default_scoring (F:=float)) = 0x1.3333333333333p+0%float
  /\ no_owner_weight (default_scoring (F:=float)) = 0x1.4cccccccccccdp+0%float
  /\ first_party_microsoft_weight (default_scoring (F:=float))
     = 0x1.3333333333333p-2%float
  /\ unused_high_privilege_weight (default_scoring (F:=float))
     = 0x1.6666666666666p+0%float
  /\ fconst (F:=float) (1 # 10) = 0x1.999999999999ap-4%float.
Proof. vm_compute. repeat split. Qed.

(** ** The allow list (C2) *)

(** C2. A service principal whose [app_id] is in the allow set gets total 0,
    level Allowed and the single allow-list factor, whatever its
    permissions, trust class, owners, activity, credentials or deny-list
    membership, and whatever the float arithmetic. *)
Theorem allow_listed_scores_zero
    {F} `{PyFloat F} (config : Config F) (rules : dict Rule)
    (sp : ServicePrincipal) :
  app_id sp ∈ allowed_app_ids (allow_deny config) ->
  score_service_principal config rules sp = Some allow_list_score
  /\ total_score allow_list_score = 0
  /\ risk_level allow_list_score = "Allowed"
  /\ length (factors allow_list_score) = 1%nat.
Proof.
  intros Hin. unfold score_service_principal.
  rewrite bool_decide_eq_true_2 by exact Hin. repeat split.
Qed.

(** An allow-listed principal that is also deny-listed, third-party,
    unowned and holds a watch-list scope by user consent. *)
Lemma allow_listed_scores_zero_witness :
  score_service_principal
    (with_lists (default_config (F:=float)) ["app-1"] ["app-1"]) []
    (a_principal "app-1" AppType.THIRD_PARTY_MULTI_TENANT
       [a_grant ConsentType.USER "Directory.ReadWrite.All"] [] [])
  = Some allow_list_score
  /\ total_score (allow_list_score (F:=float)) = 0
  /\ risk_level (allow_list_score (F:=float)) = "Allowed"
  /\ length (factors (allow_list_score (F:=float))) = 1%nat.
Proof.
  apply allow_listed_scores_zero. simpl. apply list_elem_of_here.
Defined.

(** ** Range and level of the total (C1) *)

Lemma _calculate_total_range {F} `{PyFloat F}
    (factors : list (RiskFactor F)) (total : Z) :
  _calculate_total factors = Some total -> 0 <= total <= 100.
Proof.
  unfold _calculate_total. destruct factors as [|f fs].
  - intros [= <-]. lia.
  - intros Hsome. apply bind_Some in Hsome as (t & _ & Hsome).
    apply bind_Some in Hsome as (i & _ & [= <-]). lia.
Qed.

(** In exact arithmetic no conversion fails. *)
Lemma extend_each_is_Some {A B} (body : A -> option (list B)) (l : list A) :
  (forall x, is_Some (body x)) -> is_Some (extend_each body l).
Proof.
  intros Hbody. induction l as [|x l IH]; simpl; [by eexists|].
  destruct (Hbody x) as [ys ->]. destruct IH as [zs ->]. by eexists.
Qed.

Lemma weighted_sum_exact_is_Some (factors : list (RiskFactor Q)) (total : Q) :
  is_Some (weighted_sum total factors).
Proof.
  revert total. induction factors as [|f fs IH]; intros total; simpl;
    [by eexists|]. apply IH.
Qed.

Lemma _calculate_total_exact_is_Some (factors : list (RiskFactor Q)) :
  is_Some (_calculate_total factors).
Proof.
  unfold _calculate_total. destruct factors as [|f fs]; [by eexists|].
  destruct (weighted_sum_exact_is_Some (f :: fs) (fconst 0)) as [t ->].
  simpl. by eexists.
Qed.

Lemma _score_permissions_exact_is_Some
    (config : Config Q) (rules : dict Rule) (sp : ServicePrincipal) :
  is_Some (_score_permissions config rules sp).
Proof.
  unfold _score_permissions.
  match goal with |- is_Some (mbind _ (extend_each ?b ?l)) =>
    destruct (extend_each_is_Some b l) as [delegated ->] end.
  { intros scope. simpl. by eexists. }
  simpl.
  match goal with |- is_Some (mbind _ (extend_each ?b ?l)) =>
    destruct (extend_each_is_Some b l) as [application ->] end.
  { intros role. destruct (negb (scored_role role)); simpl; by eexists. }
  simpl. by eexists.
Qed.

(** C1. For a service principal that is not on the allow list, every score
    returned has its total in [0,100] and its level fixed by the total:
    Critical from 80, High from 60, Medium from 40, Low below; this holds
    in any float arithmetic, and in exact arithmetic a score is always
    returned. *)
Theorem score_total_in_range_and_level_by_thresholds :
  (forall F (PF : PyFloat F) (config : Config F) (rules : dict Rule)
          (sp : ServicePrincipal) (r : RiskScore F),
     app_id sp ∉ allowed_app_ids (allow_deny config) ->
     score_service_principal config rules sp = Some r ->
     0 <= total_score r <= 100
     /\ (80 <= total_score r -> risk_level r = "Critical")
     /\ (60 <= total_score r < 80 -> risk_level r = "High")
     /\ (40 <= total_score r < 60 -> risk_level r = "Medium")
     /\ (total_score r < 40 -> risk_level r = "Low"))
  /\ (forall (config : Config Q) (rules : dict Rule) (sp : ServicePrincipal),
        app_id sp ∉ allowed_app_ids (allow_deny config) ->
        is_Some (score_service_principal config rules sp)).
Proof.
  split.
  - intros F PF config rules sp r Hnot Hscore.
    unfold score_service_principal in Hscore.
    rewrite bool_decide_eq_false_2 in Hscore by exact Hnot.
    apply bind_Some in Hscore as (pf & _ & Hscore).
    apply bind_Some in Hscore as (total & Htotal & [= <-]).
    apply _calculate_total_range in Htotal. simpl.
    unfold CRITICAL_THRESHOLD, HIGH_THRESHOLD, MEDIUM_THRESHOLD.
    split; [exact Htotal|].
    repeat split; intros Hle;
      repeat (case_match; try reflexivity; try lia).
  - intros config rules sp Hnot. unfold score_service_principal.
    rewrite bool_decide_eq_false_2 by exact Hnot.
    destruct (_score_permissions_exact_is_Some config rules sp) as [pf ->].
    simpl.
    match goal with |- is_Some (mbind _ (_calculate_total ?fs)) =>
      destruct (_calculate_total_exact_is_Some fs) as [total ->] end.
    simpl. by eexists.
Qed.

(** The third-party identity [risky_principal] under the default
    configuration and an empty catalog, scored with doubles: total 100,
    level Critical. *)
Lemma score_total_in_range_and_level_by_thresholds_witness :
  exists r : RiskScore float,
    score_service_principal default_config [] risky_principal = Some r
    /\ total_score r = 100
    /\ 0 <= total_score r <= 100
    /\ (80 <= total_score r -> risk_level r = "Critical").
Proof.
  destruct (score_service_principal (F:=float) default_config []
              risky_principal) as [r|] eqn:Hscore;
    [|vm_compute in Hscore; discriminate].
  exists r. split; [reflexivity|].
  split; [vm_compute in Hscore; by injection Hscore as <-|].
  destruct (proj1 score_total_in_range_and_level_by_thresholds
              float binary64 default_config [] risky_principal r)
    as (Hrange & Hcritical & _).
  - simpl. apply not_elem_of_nil.
  - exact Hscore.
  - split; [exact Hrange | exact Hcritical].
Defined.

(** ** The permission catalog (C3) *)

Lemma dict_get_set_ne {V} (k k' : string) (v : V) (d : dict V) :
  k <> k' -> dict_get k (dict_set k' v d) = dict_get k d.
Proof.
  intros Hne. induction d as [|[k0 v0] d IH]; simpl.
  - destruct (String.eqb_spec k k'); [contradiction | reflexivity].
  - destruct (String.eqb_spec k' k0) as [->|Hk0]; simpl.
    + destruct (String.eqb_spec k k0); [contradiction | reflexivity].
    + destruct (String.eqb_spec k k0); [reflexivity | exact IH].
Qed.

(** A key that no entry of the document folds to is not in the loaded
    catalog. *)
Lemma _load_rules_absent
    (data : list (string * option (list (string * PermData))))
    (rules : dict Rule) (key : string) :
  dict_get key rules = None ->
  (forall group permissions perm_name perm_data,
     (group, Some permissions) ∈ data ->
     (perm_name, perm_data) ∈ permissions ->
     lower perm_name <> key) ->
  dict_get key (_load_rules data rules) = None.
Proof.
  unfold _load_rules. revert rules.
  induction data as [|[group permissions] data IH]; intros rules Hrules Habs;
    simpl; [exact Hrules|].
  apply IH.
  - destruct permissions as [permissions|]; [|exact Hrules].
    assert (Hin : forall perm_name perm_data,
               (perm_name, perm_data) ∈ permissions ->
               lower perm_name <> key).
    { intros n pd Hn. eapply Habs; [apply list_elem_of_here | exact Hn]. }
    clear Habs IH. revert rules Hrules.
    induction permissions as [|[n pd] permissions IHp]; intros rules Hrules;
      simpl; [exact Hrules|].
    apply IHp.
    + intros n' pd' Hn'. eapply Hin. by apply list_elem_of_further.
    + rewrite dict_get_set_ne; [exact Hrules|].
      intros ->. eapply Hin; [apply list_elem_of_here | reflexivity].
  - intros g ps n pd Hg Hn. eapply Habs; [|exact Hn].
    apply list_elem_of_further, Hg.
Qed.

Lemma translate_unknown (rules : dict Rule) (X resource : string) :
  dict_get (lower X) rules = None ->
  is_known (translate rules X resource) = false
  /\ impact_score (translate rules X resource) = 30
  /\ category (translate rules X resource) = RiskCategory.UNKNOWN.
Proof. intros Hnone. unfold translate. rewrite Hnone. by simpl. Qed.

Lemma translate_depends_on_lower
    (rules : dict Rule) (p q resource_p resource_q : string) :
  lower p = lower q ->
  category (translate rules p resource_p)
  = category (translate rules q resource_q)
  /\ impact_score (translate rules p resource_p)
     = impact_score (translate rules q resource_q)
  /\ is_known (translate rules p resource_p)
     = is_known (translate rules q resource_q).
Proof.
  intros Hpq. unfold translate. rewrite Hpq.
  by destruct (dict_get (lower q) rules).
Qed.

Lemma ascii_lower_idempotent (a : ascii) :
  ascii_lower (ascii_lower a) = ascii_lower a.
Proof. destruct a as [[] [] [] [] [] [] [] []]; reflexivity. Qed.

Lemma lower_idempotent (s : string) : lower (lower s) = lower s.
Proof.
  induction s as [|a s IH]; simpl; [reflexivity|].
  by rewrite ascii_lower_idempotent, IH.
Qed.

(** C3. A permission that the catalog does not hold (no rule under its
    case-folded name; for a loaded document: no entry whose name equals it
    up to case) translates to is_known = false, impact 30, category
    Unknown; and category, impact and is_known of a translation depend only
    on the case-folded permission, so any two casings of a string agree,
    among them "Mail.Read", "mail.read" and "MAIL.READ". *)
Theorem translate_unknown_and_case_insensitive :
  (forall (rules : dict Rule) (X resource : string),
     dict_get (lower X) rules = None ->
     is_known (translate rules X resource) = false
     /\ impact_score (translate rules X resource) = 30
     /\ category (translate rules X resource) = RiskCategory.UNKNOWN)
  /\ (forall data (X resource : string),
        (forall group permissions perm_name perm_data,
           (group, Some permissions) ∈ data ->
           (perm_name, perm_data) ∈ permissions ->
           lower perm_name <> lower X) ->
        is_known (translate (_load_rules data []) X resource) = false
        /\ impact_score (translate (_load_rules data []) X resource) = 30
        /\ category (translate (_load_rules data []) X resource)
           = RiskCategory.UNKNOWN)
  /\ (forall (rules : dict Rule) (p q resource_p resource_q : string),
        lower p = lower q ->
        category (translate rules p resource_p)
        = category (translate rules q resource_q)
        /\ impact_score (translate rules p resource_p)
           = impact_score (translate rules q resource_q))
  /\ (forall (rules : dict Rule) (p : string),
        category (translate1 rules (lower p)) = category (translate1 rules p)
        /\ impact_score (translate1 rules (lower p))
           = impact_score (translate1 rules p))
  /\ (forall rules : dict Rule,
        category (translate1 rules "Mail.Read")
        = category (translate1 rules "mail.read")
        /\ impact_score (translate1 rules "Mail.Read")
           = impact_score (translate1 rules "mail.read")
        /\ category (translate1 rules "MAIL.READ")
           = category (translate1 rules "mail.read")
        /\ impact_score (translate1 rules "MAIL.READ")
           = impact_score (translate1 rules "mail.read")).
Proof.
  split; [exact translate_unknown|].
  split.
  { intros data X resource Habs. apply translate_unknown.
    apply _load_rules_absent; [reflexivity | exact Habs]. }
  split.
  { intros rules p q rp rq Hpq.
    destruct (translate_depends_on_lower rules p q rp rq Hpq) as (? & ? & _).
    by split. }
  split.
  { intros rules p. unfold translate1.
    destruct (translate_depends_on_lower rules (lower p) p
                "microsoft_graph" "microsoft_graph") as (? & ? & _);
      [apply lower_idempotent | by split]. }
  intros rules. unfold translate1.
  destruct (translate_depends_on_lower rules "Mail.Read" "mail.read"
              "microsoft_graph" "microsoft_graph") as (? & ? & _);
    [reflexivity|].
  destruct (translate_depends_on_lower rules "MAIL.READ" "mail.read"
              "microsoft_graph" "microsoft_graph") as (? & ? & _);
    [reflexivity|].
  by repeat split.
Qed.

(** On the catalog loaded from [mail_document]: an unknown name, and two
    casings of Mail.Read translated with different resource hints. *)
Lemma translate_unknown_and_case_insensitive_witness :
  (is_known (translate (_load_rules mail_document []) "Custom.Unknown.Scope"
               "microsoft_graph") = false
   /\ impact_score (translate (_load_rules mail_document [])
                      "Custom.Unknown.Scope" "microsoft_graph") = 30
   /\ category (translate (_load_rules mail_document [])
                  "Custom.Unknown.Scope" "microsoft_graph")
      = RiskCategory.UNKNOWN)
  /\ (category (translate (_load_rules mail_document []) "MAIL.Read"
                 "microsoft_graph")
      = category (translate (_load_rules mail_document []) "mail.READ"
                    "other")
      /\ impact_score (translate (_load_rules mail_document []) "MAIL.Read"
                         "microsoft_graph")
         = impact_score (translate (_load_rules mail_document []) "mail.READ"
                           "other"))
  /\ impact_score (translate1 (_load_rules mail_document []) "MAIL.Read") = 75.
Proof.
  destruct translate_unknown_and_case_insensitive
    as (_ & Hloaded & Hcase & _).
  split; [|split].
  - apply Hloaded. intros group permissions perm_name perm_data Hgroup Hperm.
    apply list_elem_of_singleton in Hgroup. injection Hgroup as -> ->.
    apply list_elem_of_singleton in Hperm. injection Hperm as -> ->.
    discriminate.
  - apply Hcase. reflexivity.
  - reflexivity.
Defined.

(** ** Detection and the deny list (C9) *)

Lemma detect_step_extends {F} (config : Config F) (result : AnalysisResult)
    (findings : list ShadowOAuthFinding) (sp : ServicePrincipal) :
  detect_step config result findings sp
  = findings ++ (if skipped config sp then []
                 else detection_rules config result sp).
Proof.
  unfold detect_step, skipped, detection_rules.
  destruct (AppType.eqb (app_type sp) AppType.FIRST_PARTY_MICROSOFT); simpl;
    [by rewrite app_nil_r|].
  destruct (bool_decide (app_id sp ∈ allowed_app_ids (allow_deny config)));
    simpl; [by rewrite app_nil_r|].
  by rewrite <- !app_assoc.
Qed.

Lemma detect_loop_flat_map {F} (config : Config F) (result : AnalysisResult)
    (sps : list ServicePrincipal) (findings : list ShadowOAuthFinding) :
  foldl (detect_step config result) findings sps
  = findings
    ++ flat_map (fun sp => if skipped config sp then []
                           else detection_rules config result sp) sps.
Proof.
  revert findings. induction sps as [|sp sps IH]; intros findings; simpl.
  - by rewrite app_nil_r.
  - rewrite IH, detect_step_extends. by rewrite <- app_assoc.
Qed.

(** C9. Replacing the deny set of the configuration by any other leaves the
    output of [detect] (findings and stored result) unchanged; and the
    findings are the severity-sorted concatenation of the six rules over
    the identities, an identity being passed over exactly when it is
    first-party or allow-listed. *)
Theorem detect_independent_of_deny_list :
  (forall F (config : Config F) (denied : list string)
          (result : AnalysisResult),
     detect (with_lists config (allowed_app_ids (allow_deny config)) denied)
            result
     = detect config result)
  /\ (forall F (config : Config F) (result : AnalysisResult),
        fst (detect config result)
        = sorted_by (fun f => severity_order (severity f))
            (flat_map
               (fun sp =>
                  if AppType.eqb (app_type sp) AppType.FIRST_PARTY_MICROSOFT
                     || bool_decide
                          (app_id sp ∈ allowed_app_ids (allow_deny config))
                  then []
                  else detection_rules config result sp)
               (service_principals result))).
Proof.
  split.
  - intros F config denied result. reflexivity.
  - intros F config result. unfold detect. simpl.
    by rewrite detect_loop_flat_map.
Qed.

(** A deny-listed third-party identity is still detected, with the same
    findings as without the deny list. *)
Example detect_deny_listed_example :
  map finding_type
    (fst (detect (with_lists (default_config (F:=float)) [] ["app-risky"])
            {| service_principals := [risky_principal];
               shadow_findings := [];
               sign_in_data_available := false |}))
  = ["external_delegated_high_impact"; "user_consent_high_impact";
     "orphaned_privileged"; "offline_access_high_impact"].
Proof. vm_compute. reflexivity. Qed.

(** ** The inactivity factor (C6) *)

(** Without sign-in telemetry no activity factor is emitted. *)
Lemma _score_activity_without_telemetry
    {F} `{PyFloat F} (config : Config F) (rules : dict Rule)
    (sp : ServicePrincipal) :
  match sign_in_activity sp with
  | None => True
  | Some activity => data_available activity = false
  end ->
  _score_activity config rules sp = [].
Proof.
  unfold _score_activity. destruct (sign_in_activity sp) as [activity|];
    [|reflexivity].
  by intros ->.
Qed.

(** With telemetry, inactivity beyond the threshold and a delegated scope
    of impact at least 70, exactly one activity factor is emitted: score
    25, its details naming the threshold. *)
Lemma _score_activity_inactive_delegated
    {F} `{PyFloat F} (config : Config F) (rules : dict Rule)
    (sp : ServicePrincipal) (activity : SignInActivity) (days : Z) :
  sign_in_activity sp = Some activity ->
  data_available activity = true ->
  days_since_last_activity activity = Some days ->
  inactive_days_threshold (thresholds config) < days ->
  70 <= max_impact_over rules 0 (elements (all_delegated_scopes sp)) ->
  _score_activity config rules sp
  = [ {| name := "Inactive High-Privilege";
         description :=
           "App unused for " +:+ pretty days +:+
           " days with high-impact permissions";
         score := 25;
         weight := unused_high_privilege_weight (scoring config);
         details :=
           Some ("Threshold: " +:+
                 pretty (inactive_days_threshold (thresholds config)) +:+
                 " days") |} ].
Proof.
  intros Hactivity Havailable Hdays Hthreshold Himpact.
  unfold _score_activity. rewrite Hactivity, Havailable, Hdays. simpl.
  rewrite (proj2 (Z.ltb_lt _ _) Hthreshold).
  by rewrite (proj2 (Z.leb_le _ _) Himpact).
Qed.

(** C6, at the failing input.  With telemetry available, 100 days of
    inactivity against the threshold of 90 and Mail.ReadWrite (impact 80)
    held as an application role, [_score_activity] emits no factor: its
    maximum runs over the delegated scopes only.  [_score_ownership] on the
    same identity does see the impact of 80 (score 15), and the same
    permission held as a delegated scope yields the factor of score 25. *)
Theorem inactivity_factor_misses_application_roles :
  let by_role := stale_principal [] [a_role "Mail.ReadWrite"] in
  let by_scope :=
    stale_principal [a_grant ConsentType.ADMIN "Mail.ReadWrite"] [] in
  _score_activity (default_config (F:=float)) mail_rules by_role = []
  /\ impact_score (translate1 mail_rules "Mail.ReadWrite") = 80
  /\ map score (_score_ownership (default_config (F:=float)) mail_rules by_role)
     = [15]
  /\ map (fun f => (name f, score f, details f))
       (_score_activity (default_config (F:=float)) mail_rules by_scope)
     = [("Inactive High-Privilege", 25, Some "Threshold: 90 days")].
Proof. vm_compute. repeat split. Qed.

(** ** High-impact listing (C8) *)

Lemma insert_by_desc_perm {A} (key : A -> Z) (x : A) (l : list A) :
  insert_by_desc key x l ≡ₚ x :: l.
Proof.
  induction l as [|y l IH]; simpl; [reflexivity|].
  destruct (key x <=? key y); [|reflexivity].
  rewrite IH. apply Permutation_swap.
Qed.

Lemma sorted_by_desc_perm {A} (key : A -> Z) (l : list A) :
  sorted_by_desc key l ≡ₚ l.
Proof.
  unfold sorted_by_desc.
  assert (Hgen : forall acc, foldl (fun acc x => insert_by_desc key x acc) acc l
                             ≡ₚ acc ++ l).
  { induction l as [|x l IH]; intros acc; simpl.
    - by rewrite app_nil_r.
    - rewrite IH, insert_by_desc_perm. simpl. apply Permutation_middle. }
  apply Hgen.
Qed.

Lemma insert_by_desc_sorted {A} (key : A -> Z) (x : A) (l : list A) :
  descending key l -> descending key (insert_by_desc key x l).
Proof.
  unfold descending. induction 1 as [|y l Hl IH Hy]; simpl.
  - repeat constructor.
  - destruct (Z.leb_spec (key x) (key y)) as [Hle|Hgt].
    + constructor; [exact IH|].
      rewrite insert_by_desc_perm. constructor; [exact Hle | exact Hy].
    + constructor; [by constructor|].
      constructor; [lia|]. eapply Forall_impl; [exact Hy|]. simpl. intros; lia.
Qed.

Lemma sorted_by_desc_sorted {A} (key : A -> Z) (l : list A) :
  descending key (sorted_by_desc key l).
Proof.
  unfold sorted_by_desc.
  assert (Hgen : forall acc, descending key acc ->
            descending key (foldl (fun acc x => insert_by_desc key x acc) acc l)).
  { induction l as [|x l IH]; intros acc Hacc; simpl; [exact Hacc|].
    apply IH. by apply insert_by_desc_sorted. }
  apply Hgen. constructor.
Qed.

Lemma dict_get_elem {V} (k : string) (v : V) (d : dict V) :
  NoDup (map fst d) -> (k, v) ∈ d -> dict_get k d = Some v.
Proof.
  induction d as [|[k0 v0] d IH]; simpl; intros Hnd Hin.
  - by apply elem_of_nil in Hin.
  - apply NoDup_cons in Hnd as [Hk0 Hnd].
    apply elem_of_cons in Hin as [[= -> ->]|Hin].
    + by rewrite String.eqb_refl.
    + destruct (String.eqb_spec k k0) as [->|Hne]; [|by apply IH].
      exfalso. apply Hk0. apply list_elem_of_fmap. by exists (k0, v).
Qed.

Lemma find_original_key (keys : list string) (k : string) :
  Forall (fun k' => lower k' = k') keys -> k ∈ keys ->
  find (fun orig_key => String.eqb (lower orig_key) k) keys = Some k.
Proof.
  induction keys as [|k0 keys IH]; simpl; intros Hlow Hin.
  - by apply elem_of_nil in Hin.
  - apply Forall_cons in Hlow as [Hk0 Hlow]. rewrite Hk0.
    destruct (String.eqb_spec k0 k) as [->|Hne]; [reflexivity|].
    apply elem_of_cons in Hin as [->|Hin]; [contradiction|]. by apply IH.
Qed.

(** On a well-formed rule map the listing holds, for each rule whose stated
    impact (0 when absent) reaches [min_score], the rule's key with its
    translation, in descending order of the translated impact. *)
Lemma get_high_impact_permissions_spec (rules : dict Rule) (min_score : Z) :
  well_formed rules ->
  descending (fun x => impact_score (snd x))
    (get_high_impact_permissions rules min_score)
  /\ forall k t,
       (k, t) ∈ get_high_impact_permissions rules min_score
       <-> exists rule,
             (k, rule) ∈ rules
             /\ min_score <= default 0 (rule_impact_score rule)
             /\ t = translate1 rules k
             /\ impact_score t = default 30 (rule_impact_score rule).
Proof.
  intros [Hnd Hlow]. unfold get_high_impact_permissions.
  split; [apply sorted_by_desc_sorted|].
  intros k t. rewrite sorted_by_desc_perm, list_elem_of_omap. split.
  - intros ([k0 rule] & Hin & Hsome).
    assert (Hk0 : k0 ∈ map fst rules).
    { apply list_elem_of_fmap. by exists (k0, rule). }
    rewrite (find_original_key _ k0 Hlow Hk0) in Hsome.
    destruct (Z.leb_spec min_score (default 0 (rule_impact_score rule)))
      as [Hle|Hgt]; [|discriminate].
    injection Hsome as <- <-. exists rule.
    split; [exact Hin|]. split; [exact Hle|]. split; [reflexivity|].
    unfold translate1, translate.
    rewrite (proj1 (Forall_forall _ _) Hlow k0 Hk0).
    by rewrite (dict_get_elem k0 rule rules Hnd Hin).
  - intros (rule & Hin & Hle & -> & _). exists (k, rule).
    split; [exact Hin|].
    assert (Hk : k ∈ map fst rules).
    { apply list_elem_of_fmap. by exists (k, rule). }
    rewrite (find_original_key _ k Hlow Hk).
    by rewrite (proj2 (Z.leb_le _ _) Hle).
Qed.

(** When every rule states its impact score, the listing holds exactly the
    rules whose impact reaches [min_score]. *)
Lemma get_high_impact_permissions_stated (rules : dict Rule) (min_score : Z) :
  well_formed rules ->
  (forall k rule, (k, rule) ∈ rules -> is_Some (rule_impact_score rule)) ->
  forall k t,
    (k, t) ∈ get_high_impact_permissions rules min_score
    <-> exists rule,
          (k, rule) ∈ rules
          /\ t = translate1 rules k
          /\ min_score <= impact_score t.
Proof.
  intros Hwf Hstated k t.
  rewrite (proj2 (get_high_impact_permissions_spec rules min_score Hwf)).
  split.
  - intros (rule & Hin & Hle & Ht & Himpact). exists rule.
    split; [exact Hin|]. split; [exact Ht|].
    destruct (Hstated k rule Hin) as [i Hi].
    rewrite Himpact. rewrite Hi in *. exact Hle.
  - intros (rule & Hin & Ht & Hle). exists rule.
    assert (Himpact : impact_score t = default 30 (rule_impact_score rule)).
    { destruct Hwf as [Hnd Hlow]. rewrite Ht. unfold translate1, translate.
      assert (Hk : k ∈ map fst rules).
      { apply list_elem_of_fmap. by exists (k, rule). }
      rewrite (proj1 (Forall_forall _ _) Hlow k Hk).
      by rewrite (dict_get_elem k rule rules Hnd Hin). }
    split; [exact Hin|]. split; [|by split].
    destruct (Hstated k rule Hin) as [i Hi].
    rewrite Himpact in Hle. rewrite Hi in *. exact Hle.
Qed.

Lemma dict_set_keys {V} (k : string) (v : V) (d : dict V) :
  map fst (dict_set k v d)
  = if bool_decide (k ∈ map fst d) then map fst d else map fst d ++ [k].
Proof.
  induction d as [|[k0 v0] d IH]; simpl; [reflexivity|].
  destruct (String.eqb_spec k k0) as [->|Hne]; simpl.
  - rewrite bool_decide_eq_true_2 by apply list_elem_of_here. reflexivity.
  - rewrite IH. destruct (decide (k ∈ map fst d)) as [Hin|Hout].
    + rewrite !bool_decide_eq_true_2; [reflexivity| |exact Hin].
      by apply list_elem_of_further.
    + rewrite !bool_decide_eq_false_2; [reflexivity| |exact Hout].
      intros Hin. apply elem_of_cons in Hin as [?|?]; contradiction.
Qed.

Lemma dict_set_well_formed (k : string) (rule : Rule) (rules : dict Rule) :
  lower k = k -> well_formed rules -> well_formed (dict_set k rule rules).
Proof.
  intros Hk [Hnd Hlow]. unfold well_formed. rewrite dict_set_keys.
  destruct (decide (k ∈ map fst rules)) as [Hin|Hout].
  - rewrite bool_decide_eq_true_2 by exact Hin. by split.
  - rewrite bool_decide_eq_false_2 by exact Hout. split.
    + apply NoDup_app. split; [exact Hnd|]. split; [|apply NoDup_singleton].
      intros x Hx Hx'. apply list_elem_of_singleton in Hx' as ->. contradiction.
    + apply Forall_app. split; [exact Hlow|]. by repeat constructor.
Qed.

Lemma _load_rules_well_formed
    (data : list (string * option (list (string * PermData))))
    (rules : dict Rule) :
  well_formed rules -> well_formed (_load_rules data rules).
Proof.
  unfold _load_rules. revert rules.
  induction data as [|[group permissions] data IH]; intros rules Hwf; simpl;
    [exact Hwf|].
  apply IH. destruct permissions as [permissions|]; [|exact Hwf].
  clear IH. revert rules Hwf.
  induction permissions as [|[n pd] permissions IHp]; intros rules Hwf; simpl;
    [exact Hwf|].
  apply IHp. apply dict_set_well_formed; [apply lower_idempotent | exact Hwf].
Qed.

(** C8, at the failing input.  A rule without an impact score translates
    with the default impact 30, but [get_high_impact_permissions] filters
    it with the default 0: for [min_score] 20 the listing is empty although
    the rule's impact 30 is at least 20. *)
Theorem high_impact_listing_defaults_to_zero :
  impact_score (translate1 bare_rules "custom.perm") = 30
  /\ get_high_impact_permissions bare_rules 20 = []
  /\ map fst (get_high_impact_permissions bare_rules 0) = ["custom.perm"]
  /\ map (fun x => impact_score (snd x))
       (get_high_impact_permissions bare_rules 0) = [30].
Proof. vm_compute. repeat split. Qed.

(** ** Exact arithmetic: the total as a function of the weighted sum *)

Lemma exact_gt_true (x y : Q) : Exact.gt x y = true <-> (y < x)%Q.
Proof.
  unfold Exact.gt. rewrite negb_true_iff, <- not_true_iff_false, Qle_bool_iff.
  split; [apply Qnot_le_lt | apply Qlt_not_le].
Qed.

Lemma exact_gt_false (x y : Q) : Exact.gt x y = false <-> (x <= y)%Q.
Proof.
  unfold Exact.gt. rewrite negb_false_iff. apply Qle_bool_iff.
Qed.

Lemma exact_trunc_nonneg (x : Q) : (0 <= x)%Q -> Exact.trunc x = Qfloor x.
Proof.
  destruct x as [n d]. unfold Qle, Exact.trunc, Qfloor. simpl. intros Hn.
  apply Z.quot_div_nonneg; lia.
Qed.

Lemma exact_trunc_nonpos (x : Q) : (x <= 0)%Q -> Exact.trunc x = Qceiling x.
Proof.
  destruct x as [n d]. unfold Qle, Exact.trunc, Qceiling, Qfloor. simpl.
  intros Hn.
  rewrite <- (Z.opp_involutive n) at 1.
  rewrite Z.quot_opp_l by lia. f_equal.
  apply Z.quot_div_nonneg; lia.
Qed.

Lemma wsum_app (fs gs : list (RiskFactor Q)) :
  (wsum (fs ++ gs) == wsum fs + wsum gs)%Q.
Proof.
  induction fs as [|f fs IH].
  - change (wsum gs == 0 + wsum gs)%Q. ring.
  - change (contribution f + wsum (fs ++ gs)
            == contribution f + wsum fs + wsum gs)%Q.
    rewrite IH. ring.
Qed.

Lemma weighted_sum_exact (fs : list (RiskFactor Q)) (total : Q) :
  exists s, weighted_sum total fs = Some s /\ (s == total + wsum fs)%Q.
Proof.
  revert total. induction fs as [|f fs IH]; intros total; simpl.
  - exists total. split; [reflexivity | ring].
  - destruct (IH (total + inject_Z (score f) * weight f)%Q) as (s & Hs & Heq).
    exists s. split; [exact Hs|].
    rewrite Heq.
    change (wsum (f :: fs)) with (contribution f + wsum fs)%Q.
    unfold contribution. ring.
Qed.

Lemma total_of_above (s : Q) : (100 < s)%Q -> total_of s = 100.
Proof.
  intros Hs. unfold total_of, cap, diminish. simpl.
  rewrite (proj2 (exact_gt_true s 100) Hs).
  set (d := (100 + (s - 100) * (1 # 10))%Q).
  assert (Hd : (100 < d)%Q) by (unfold d; lra).
  assert (Htrunc : forall x, (100 <= x)%Q -> 100 <= Exact.trunc x).
  { intros x Hx. rewrite exact_trunc_nonneg by lra.
    rewrite <- (Qfloor_Z 100). by apply Qfloor_resp_le. }
  destruct (Exact.gt d 120).
  - specialize (Htrunc 120%Q). lapply Htrunc; [lia | lra].
  - specialize (Htrunc d). lapply Htrunc; [lia | lra].
Qed.

Lemma total_of_upto (s : Q) :
  (s <= 100)%Q -> total_of s = Z.max 0 (Z.min 100 (Exact.trunc s)).
Proof.
  intros Hs. unfold total_of, cap, diminish. simpl.
  rewrite (proj2 (exact_gt_false s 100) Hs).
  rewrite (proj2 (exact_gt_false s 120)) by lra. reflexivity.
Qed.

Lemma total_of_middle (s : Q) :
  (0 <= s)%Q -> (s <= 100)%Q -> total_of s = Qfloor s.
Proof.
  intros H0 H100. rewrite total_of_upto by exact H100.
  rewrite exact_trunc_nonneg by exact H0.
  pose proof (Qfloor_resp_le _ _ H0) as Hlo.
  pose proof (Qfloor_resp_le _ _ H100) as Hhi.
  change 0%Q with (inject_Z 0) in Hlo. change 100%Q with (inject_Z 100) in Hhi.
  rewrite Qfloor_Z in Hlo, Hhi. lia.
Qed.

Lemma total_of_below (s : Q) : (s <= 0)%Q -> total_of s = 0.
Proof.
  intros Hs. rewrite total_of_upto by lra.
  rewrite exact_trunc_nonpos by exact Hs.
  pose proof (Qceiling_resp_le _ _ Hs) as Hc.
  change 0%Q with (inject_Z 0) in Hc. rewrite Qceiling_Z in Hc. lia.
Qed.

Lemma total_of_range (s : Q) : 0 <= total_of s <= 100.
Proof. unfold total_of. lia. Qed.

Lemma total_of_mono (s s' : Q) : (s <= s')%Q -> total_of s <= total_of s'.
Proof.
  intros Hle.
  destruct (Qlt_le_dec 100 s') as [Hhi'|Hhi'].
  { rewrite (total_of_above s' Hhi'). apply total_of_range. }
  destruct (Qlt_le_dec s 0) as [Hlo|Hlo].
  { rewrite (total_of_below s) by lra. apply total_of_range. }
  rewrite !total_of_middle by lra. by apply Qfloor_resp_le.
Qed.

Lemma total_of_comp (s s' : Q) : (s == s')%Q -> total_of s = total_of s'.
Proof.
  intros Heq. apply Z.le_antisymm; apply total_of_mono; rewrite Heq;
    apply Qle_refl.
Qed.

(** In exact arithmetic the total is [total_of] of the sum of the
    contributions. *)
Lemma _calculate_total_exact (fs : list (RiskFactor Q)) :
  _calculate_total fs = Some (total_of (wsum fs)).
Proof.
  unfold _calculate_total. destruct fs as [|f fs]; [reflexivity|].
  destruct (weighted_sum_exact (f :: fs) (fconst 0)) as (s & -> & Heq).
  simpl. f_equal. apply total_of_comp. rewrite Heq. simpl. ring.
Qed.


(** The level assigned by [score_service_principal]. *)
Lemma score_service_principal_level {F} `{PyFloat F}
    (config : Config F) (rules : dict Rule) (sp : ServicePrincipal)
    (r : RiskScore F) :
  app_id sp ∉ allowed_app_ids (allow_deny config) ->
  score_service_principal config rules sp = Some r ->
  risk_level r
  = if 80 <=? total_score r then "Critical"
    else if 60 <=? total_score r then "High"
    else if 40 <=? total_score r then "Medium"
    else "Low".
Proof.
  intros Hnot Hscore. unfold score_service_principal in Hscore.
  rewrite bool_decide_eq_false_2 in Hscore by exact Hnot.
  apply bind_Some in Hscore as (pf & _ & Hscore).
  apply bind_Some in Hscore as (total & _ & [= <-]). reflexivity.
Qed.

(** ** First-party identities (C4) *)


Lemma first_party_skipped {F} (config : Config F) (result : AnalysisResult)
    (findings : list ShadowOAuthFinding) (sp : ServicePrincipal) :
  app_type sp = AppType.FIRST_PARTY_MICROSOFT ->
  detect_step config result findings sp = findings.
Proof. intros Hfp. unfold detect_step. by rewrite Hfp. Qed.

Lemma first_party_trust_factors {F} `{PyFloat F}
    (config : Config F) (sp : ServicePrincipal) :
  app_type sp = AppType.FIRST_PARTY_MICROSOFT ->
  _score_trust_factors config sp = [first_party_factor config].
Proof. intros Hfp. unfold _score_trust_factors. by rewrite Hfp. Qed.






(** ** The shape of the factor list *)

Lemma _score_credentials_unlinked {F} `{PyFloat F}
    (config : Config F) (sp : ServicePrincipal) :
  linked_application sp = None -> _score_credentials config sp = [].
Proof. intros Hnone. unfold _score_credentials. by rewrite Hnone. Qed.

(** The factors of a score, group by group, and its total. *)
Lemma score_service_principal_factors {F} `{PyFloat F}
    (config : Config F) (rules : dict Rule) (sp : ServicePrincipal)
    (r : RiskScore F) :
  app_id sp ∉ allowed_app_ids (allow_deny config) ->
  score_service_principal config rules sp = Some r ->
  exists permission_factors,
    _score_permissions config rules sp = Some permission_factors
    /\ factors r
       = (if bool_decide (app_id sp ∈ denied_app_ids (allow_deny config))
          then [deny_factor sp] else [])
         ++ permission_factors
         ++ _score_trust_factors config sp
         ++ _score_ownership config rules sp
         ++ _score_activity config rules sp
         ++ _score_credentials config sp
    /\ _calculate_total (factors r) = Some (total_score r).
Proof.
  intros Hnot Hscore. unfold score_service_principal in Hscore.
  rewrite bool_decide_eq_false_2 in Hscore by exact Hnot.
  apply bind_Some in Hscore as (pf & Hpf & Hscore).
  apply bind_Some in Hscore as (total & Htotal & [= <-]).
  exists pf. split; [exact Hpf|]. simpl. split; [|exact Htotal].
  destruct (linked_application sp) eqn:Hlinked.
  - by rewrite <- !app_assoc.
  - rewrite (_score_credentials_unlinked config sp Hlinked), app_nil_r.
    by rewrite <- !app_assoc.
Qed.

(** ** Signs of the emitted factors *)

Section FactorSigns.
Context {F : Type} `{PyFloat F}.
Variable config : Config F.
Variable rules : dict Rule.
(** a property of the weights: of the two literals and of the five
    configured ones *)
Variable W : F -> Prop.
Hypothesis W_one : W (fconst 1).
Hypothesis W_credential : W (fconst (12 # 10)).
Hypothesis W_user_consent : W (user_consent_weight (scoring config)).
Hypothesis W_no_verified_publisher :
  W (no_verified_publisher_weight (scoring config)).
Hypothesis W_external : W (external_multi_tenant_weight (scoring config)).
Hypothesis W_no_owner : W (no_owner_weight (scoring config)).
Hypothesis W_unused : W (unused_high_privilege_weight (scoring config)).

Lemma extend_each_Forall {A B} (P : B -> Prop)
    (body : A -> option (list B)) (l : list A) (zs : list B) :
  (forall x ys, body x = Some ys -> Forall P ys) ->
  extend_each body l = Some zs -> Forall P zs.
Proof.
  intros Hbody. revert zs. induction l as [|x l IH]; intros zs; simpl.
  - intros [= <-]. constructor.
  - intros Hsome. apply bind_Some in Hsome as (ys & Hys & Hsome).
    apply bind_Some in Hsome as (zs' & Hzs' & [= <-]).
    apply Forall_app. split; [by eapply Hbody | by apply IH].
Qed.

Lemma _score_permissions_positive (sp : ServicePrincipal)
    (permission_factors : list (RiskFactor F)) :
  _score_permissions config rules sp = Some permission_factors ->
  Forall (positive_factor W) permission_factors.
Proof.
  unfold _score_permissions. intros Hsome.
  apply bind_Some in Hsome as (delegated & Hdelegated & Hsome).
  apply bind_Some in Hsome as (application & Happlication & [= <-]).
  apply Forall_app. split; [|apply Forall_app; split].
  - eapply extend_each_Forall; [|exact Hdelegated].
    intros scope ys Hys. simpl in Hys.
    apply bind_Some in Hys as (x & _ & Hys).
    apply bind_Some in Hys as (points & _ & [= <-]).
    destruct (0 <? points) eqn:Hpos; [|constructor].
    repeat constructor; simpl; try lia; exact W_one.
  - eapply extend_each_Forall; [|exact Happlication].
    intros role ys Hys. simpl in Hys.
    destruct (negb (scored_role role)); [injection Hys as <-; constructor|].
    apply bind_Some in Hys as (x & _ & Hys).
    apply bind_Some in Hys as (points & _ & [= <-]).
    destruct (0 <? points) eqn:Hpos; [|constructor].
    repeat constructor; simpl; try lia; exact W_one.
  - destruct (existsb _ _); [|constructor].
    repeat constructor; simpl; try lia; exact W_user_consent.
Qed.

Lemma _score_trust_factors_positive (sp : ServicePrincipal) :
  app_type sp <> AppType.FIRST_PARTY_MICROSOFT ->
  Forall (positive_factor W) (_score_trust_factors config sp).
Proof.
  intros Hnot. unfold _score_trust_factors.
  destruct (app_type sp); try contradiction; simpl;
    destruct (has_verified_publisher sp); simpl;
    repeat constructor; simpl; try lia; assumption.
Qed.

Lemma _score_ownership_positive (sp : ServicePrincipal) :
  Forall (positive_factor W) (_score_ownership config rules sp).
Proof.
  unfold _score_ownership. destruct (negb (has_owners sp)); [|constructor].
  constructor; [|constructor]. split; simpl; [case_match; lia | exact W_no_owner].
Qed.

Lemma _score_activity_positive (sp : ServicePrincipal) :
  Forall (positive_factor W) (_score_activity config rules sp).
Proof.
  unfold _score_activity.
  repeat case_match; repeat constructor; simpl; try lia; exact W_unused.
Qed.

Lemma _score_credentials_positive (sp : ServicePrincipal) :
  Forall (positive_factor W) (_score_credentials config sp).
Proof.
  unfold _score_credentials. destruct (linked_application sp) as [app|];
    [|constructor].
  apply Forall_app. split.
  - induction (expiring_credentials app) as [|[cred days] l IH];
      [constructor|].
    simpl. apply Forall_app. split; [|exact IH].
    case_match; repeat constructor; simpl; try lia; exact W_credential.
  - induction (all_credentials app) as [|cred l IH]; [constructor|].
    simpl. apply Forall_app. split; [|exact IH].
    repeat case_match; repeat constructor; simpl; try lia; exact W_one.
Qed.

End FactorSigns.

(** ** The deny list (C5) *)

Lemma wsum_nonneg (fs : list (RiskFactor Q)) :
  Forall (positive_factor (fun w => (0 <= w)%Q)) fs -> (0 <= wsum fs)%Q.
Proof.
  induction 1 as [|f fs [Hscore Hweight] _ IH]; [apply Qle_refl|].
  change (0 <= contribution f + wsum fs)%Q. unfold contribution.
  assert (0 <= inject_Z (score f))%Q.
  { change 0%Q with (inject_Z 0). rewrite <- Zle_Qle. lia. }
  nra.
Qed.

Lemma total_of_ceiling (s : Q) : (100 <= s)%Q -> total_of s = 100.
Proof.
  intros Hs. apply Z.le_antisymm; [apply total_of_range|].
  change 100 with (total_of 100) at 1. by apply total_of_mono.
Qed.

(** The factor list of a deny-listed service principal that is not
    allow-listed starts with the deny factor, of score 100 and weight 1.0;
    every other factor has a positive score, except the first-party trust
    factor (score -30). *)
Lemma deny_listed_factors {F} `{PyFloat F} (config : Config F)
    (rules : dict Rule) (sp : ServicePrincipal) (r : RiskScore F) :
  app_id sp ∈ denied_app_ids (allow_deny config) ->
  app_id sp ∉ allowed_app_ids (allow_deny config) ->
  score_service_principal config rules sp = Some r ->
  exists others,
    factors r = deny_factor sp :: others
    /\ score (deny_factor (F:=F) sp) = 100
    /\ weight (deny_factor sp) = fconst 1
    /\ Forall (fun f => 0 < score f
                        \/ (f = first_party_factor config
                            /\ app_type sp = AppType.FIRST_PARTY_MICROSOFT))
              others.
Proof.
  intros Hdenied Hallow Hscore.
  destruct (score_service_principal_factors config rules sp r Hallow Hscore)
    as (pf & Hpf & Hfactors & _).
  rewrite bool_decide_eq_true_2 in Hfactors by exact Hdenied.
  eexists. split; [exact Hfactors|]. split; [reflexivity|].
  split; [reflexivity|].
  assert (Hweaken : forall fs,
             Forall (positive_factor (fun _ : F => True)) fs ->
             Forall (fun f => 0 < score f
                              \/ (f = first_party_factor config
                                  /\ app_type sp
                                     = AppType.FIRST_PARTY_MICROSOFT)) fs).
  { intros fs Hfs. eapply Forall_impl; [exact Hfs|].
    intros f [Hpos _]. by left. }
  repeat (apply Forall_app; split).
  - apply Hweaken. by eapply _score_permissions_positive.
  - destruct (decide (app_type sp = AppType.FIRST_PARTY_MICROSOFT))
      as [Hfp|Hfp].
    + rewrite first_party_trust_factors by exact Hfp.
      constructor; [by right | constructor].
    + apply Hweaken. by apply _score_trust_factors_positive.
  - apply Hweaken. by apply _score_ownership_positive.
  - apply Hweaken. by apply _score_activity_positive.
  - apply Hweaken. by apply _score_credentials_positive.
Qed.

(** In exact arithmetic, with non-negative configured weights, the
    weighted total of a deny-listed identity is at least 100, the score 100
    and the level Critical, unless the identity is first-party, where the
    weighted total is at least 100 minus 30 times the first-party weight. *)
Lemma deny_listed_exact (config : Config Q) (rules : dict Rule)
    (sp : ServicePrincipal) (r : RiskScore Q) :
  app_id sp ∈ denied_app_ids (allow_deny config) ->
  app_id sp ∉ allowed_app_ids (allow_deny config) ->
  weights_nonneg (scoring config) ->
  score_service_principal config rules sp = Some r ->
  (app_type sp <> AppType.FIRST_PARTY_MICROSOFT ->
   (100 <= wsum (factors r))%Q
   /\ total_score r = 100
   /\ risk_level r = "Critical")
  /\ (app_type sp = AppType.FIRST_PARTY_MICROSOFT ->
      (100 - 30 * first_party_microsoft_weight (scoring config)
       <= wsum (factors r))%Q).
Proof.
  intros Hdenied Hallow Hweights Hscore.
  destruct Hweights as (Hw1 & Hw2 & Hw3 & Hw4 & Hw5).
  destruct (score_service_principal_factors config rules sp r Hallow Hscore)
    as (pf & Hpf & Hfactors & Htotal).
  rewrite bool_decide_eq_true_2 in Hfactors by exact Hdenied.
  rewrite _calculate_total_exact in Htotal. injection Htotal as Htotal.
  assert (H1 : (0 <= 1)%Q) by lra.
  assert (H12 : (0 <= 12 # 10)%Q) by lra.
  assert (Hperm : (0 <= wsum pf)%Q).
  { apply wsum_nonneg.
    eapply _score_permissions_positive; [| |exact Hpf]; assumption. }
  assert (Hown : (0 <= wsum (_score_ownership config rules sp))%Q).
  { apply wsum_nonneg. apply _score_ownership_positive; assumption. }
  assert (Hact : (0 <= wsum (_score_activity config rules sp))%Q).
  { apply wsum_nonneg. apply _score_activity_positive; assumption. }
  assert (Hcred : (0 <= wsum (_score_credentials config sp))%Q).
  { apply wsum_nonneg. apply _score_credentials_positive; assumption. }
  assert (Hsum : (wsum (factors r)
                  == 100 + wsum pf + wsum (_score_trust_factors config sp)
                     + wsum (_score_ownership config rules sp)
                     + wsum (_score_activity config rules sp)
                     + wsum (_score_credentials config sp))%Q).
  { rewrite Hfactors, !wsum_app.
    change (wsum [deny_factor sp]) with (inject_Z 100 * 1 + 0)%Q.
    change (inject_Z 100) with 100%Q. ring. }
  split.
  + intros Hfp.
    assert (Htrust : (0 <= wsum (_score_trust_factors config sp))%Q).
    { apply wsum_nonneg. apply _score_trust_factors_positive; assumption. }
    assert (Hge : (100 <= wsum (factors r))%Q) by lra.
    split; [exact Hge|].
    assert (Hhundred : total_score r = 100).
    { rewrite <- Htotal. by apply total_of_ceiling. }
    split; [exact Hhundred|].
    rewrite (score_service_principal_level config rules sp r Hallow Hscore).
    by rewrite Hhundred.
  + intros Hfp. rewrite first_party_trust_factors in Hsum by exact Hfp.
    change (wsum [first_party_factor config])
      with (inject_Z (-30)
            * first_party_microsoft_weight (scoring config) + 0)%Q in Hsum.
    change (inject_Z (-30)) with (-30)%Q in Hsum. lra.
Qed.

(** The deny-listed third-party identity [risky_principal], with doubles. *)
Example deny_listed_binary64_example :
  option_map (fun r => (total_score r, risk_level r))
    (score_service_principal (F:=float)
       (with_lists default_config [] ["app-risky"]) mail_catalog
       risky_principal)
  = Some (100, "Critical").
Proof. vm_compute. reflexivity. Qed.

(** ** The cap at 120 (C10) *)

(** C10 fails on doubles: [20 * 1e308] overflows to [inf]; with the cap the
    total becomes 120 and 100 is returned, without it [int(inf)] raises
    OverflowError. *)
Lemma cap_counterexample :
  weighted_sum (F:=float) (fconst 0) [overflowing_factor] = Some infinity
  /\ _calculate_total [overflowing_factor] = Some 100
  /\ calculate_total_uncapped [overflowing_factor] = None
  /\ _calculate_total [overflowing_factor]
     <> calculate_total_uncapped [overflowing_factor].
Proof. vm_compute. repeat split. discriminate. Qed.

(** The factor list reaches [_calculate_total] from the scorer: an owned
    tenant application with one user-consented unknown scope, under
    [overflow_config], scores 100 through the cap. *)
Example cap_counterexample_reached :
  option_map (fun r => (total_score r, risk_level r, map score (factors r),
                        map weight (factors r)))
    (score_service_principal overflow_config []
       (a_principal "app-owned" AppType.TENANT_OWNED
          [a_grant ConsentType.USER "Custom.Scope"] [] [an_owner]))
  = Some (100, "Critical", [30; 20],
          [fconst 1; weight overflowing_factor]).
Proof. vm_compute. reflexivity. Qed.

Lemma digits2_pos_lower (m : positive) :
  2 ^ (Zpos (digits2_pos m) - 1) <= Zpos m.
Proof.
  induction m as [m IH|m IH|]; simpl digits2_pos; [| |simpl; lia].
  - rewrite Pos2Z.inj_succ.
    replace (Z.succ (Z.pos (digits2_pos m)) - 1)
      with (Z.succ (Z.pos (digits2_pos m) - 1)) by lia.
    rewrite Z.pow_succ_r by lia. lia.
  - rewrite Pos2Z.inj_succ.
    replace (Z.succ (Z.pos (digits2_pos m)) - 1)
      with (Z.succ (Z.pos (digits2_pos m) - 1)) by lia.
    rewrite Z.pow_succ_r by lia. lia.
Qed.

(** A double above 120 is [+inf] or truncates to an integer from 120. *)
Lemma binary64_above_120 (x : float) :
  Binary64.gt x (Binary64.const 120) = true ->
  Prim2SF x = S754_infinity false
  \/ exists i, Binary64.trunc x = Some i /\ 120 <= i.
Proof.
  unfold Binary64.gt. rewrite ltb_spec.
  replace (Prim2SF (Binary64.const 120))
    with (S754_finite false 8444249301319680 (-46))
    by (vm_compute; reflexivity).
  pose proof (Prim2SF_valid x) as Hvalid.
  unfold Binary64.trunc.
  destruct (Prim2SF x) as [s|s| |s m e]; simpl; try discriminate.
  - destruct s; [discriminate|]. intros _. by left.
  - destruct s; [discriminate|]. intros Hlt. right.
    unfold SpecFloat.valid_binary, bounded, canonical_mantissa, fexp,
      SpecFloat.emin, prec, emax in Hvalid.
    apply andb_prop in Hvalid as [Hcanon _]. apply Z.eqb_eq in Hcanon.
    pose proof (digits2_pos_lower m) as Hdigits.
    eexists. split; [reflexivity|].
    unfold SFltb, SFcompare in Hlt. revert Hlt.
    destruct (Z.compare_spec (-46) e) as [He|He|He]; intros Hlt;
      [| |discriminate].
    + subst e. assert (Hm : (8444249301319680 < m)%positive).
      { unfold Pos.lt, Pos.compare.
        match type of Hlt with
        | context [match ?c with Eq => _ | Lt => _ | Gt => _ end] =>
            destruct c; [discriminate | reflexivity | discriminate]
        end. }
      simpl. rewrite Z.shiftr_div_pow2 by lia.
      apply Z.div_le_lower_bound; lia.
    + assert (Hd : Z.pos (digits2_pos m) = 53) by lia.
      rewrite Hd in Hdigits. simpl in Hdigits.
      destruct (Z.leb_spec 0 e) as [Hpos|Hneg].
      * rewrite Z.shiftl_mul_pow2 by lia.
        assert (1 <= 2 ^ e) by (apply Z.pow_le_mono_r with (b := 0); lia).
        nia.
      * rewrite Z.shiftr_div_pow2 by lia.
        apply Z.div_le_lower_bound; [apply Z.pow_pos_nonneg; lia|].
        assert (2 ^ (- e) <= 2 ^ 45) by (apply Z.pow_le_mono_r; lia).
        lia.
Qed.

Lemma cap_exact (s : Q) :
  Z.max 0 (Z.min 100 (Exact.trunc (cap s)))
  = Z.max 0 (Z.min 100 (Exact.trunc s)).
Proof.
  unfold cap. simpl. destruct (Exact.gt s 120) eqn:Hgt; [|reflexivity].
  apply exact_gt_true in Hgt.
  assert (Hs : 120 <= Exact.trunc s).
  { rewrite exact_trunc_nonneg by lra.
    rewrite <- (Qfloor_Z 120). apply Qfloor_resp_le.
    change (inject_Z 120) with 120%Q. lra. }
  change (Exact.trunc 120) with 120. lia.
Qed.

(** C10, amended.  In exact arithmetic [_calculate_total] equals the
    function without the cap on every factor list.  On doubles it equals
    it on every factor list unless the weighted sum, after the
    diminishing-returns step, is +infinity; there the capped function
    returns 100 and the uncapped one raises. *)
Theorem cap_at_120_matters_only_on_overflow :
  (forall factors : list (RiskFactor Q),
     _calculate_total factors = calculate_total_uncapped factors)
  /\ (forall factors : list (RiskFactor float),
        _calculate_total factors = calculate_total_uncapped factors
        \/ exists total,
             weighted_sum (fconst 0) factors = Some total
             /\ Prim2SF (diminish total) = S754_infinity false
             /\ _calculate_total factors = Some 100
             /\ calculate_total_uncapped factors = None).
Proof.
  split.
  - intros factors. unfold _calculate_total, calculate_total_uncapped.
    destruct factors as [|f fs]; [reflexivity|].
    destruct (weighted_sum (fconst 0) (f :: fs)) as [total|]; [|reflexivity].
    simpl. f_equal. apply cap_exact.
  - intros factors. unfold _calculate_total, calculate_total_uncapped.
    destruct factors as [|f fs]; [left; vm_compute; reflexivity|].
    destruct (weighted_sum (fconst 0) (f :: fs)) as [total|] eqn:Hsum;
      [|by left].
    simpl. unfold cap. simpl.
    destruct (Binary64.gt (diminish total) (Binary64.const 120)) eqn:Hgt;
      [|by left].
    destruct (binary64_above_120 _ Hgt) as [Hinf|(i & Hi & Hle)].
    + right. exists total. split; [reflexivity|]. split; [exact Hinf|].
      split; [vm_compute; reflexivity|].
      unfold Binary64.trunc. by rewrite Hinf.
    + left. rewrite Hi. simpl.
      replace (Binary64.trunc (Binary64.const 120)) with (Some 120)
        by (vm_compute; reflexivity).
      simpl. f_equal. lia.
Qed.

(** ** Application roles against delegated scopes (C7) *)

Lemma split_single_nonempty (v : string) : split v = [v] -> nonempty v = true.
Proof. destruct v; [discriminate | reflexivity]. Qed.

Lemma split_single_scored (v : string) : split v = [v] -> scored_role v = true.
Proof.
  intros Hv. unfold scored_role. rewrite (split_single_nonempty v Hv). simpl.
  destruct (String.eqb_spec v "Default Access") as [->|]; [|reflexivity].
  vm_compute in Hv. discriminate.
Qed.

Lemma all_delegated_scopes_with_scope (sp : ServicePrincipal) (v : string) :
  split v = [v] ->
  all_delegated_scopes (with_scope sp v) = all_delegated_scopes sp ∪ {[v]}.
Proof.
  intros Hv. unfold all_delegated_scopes. simpl. rewrite foldl_app. simpl.
  unfold scopes at 2. simpl. rewrite Hv.
  rewrite filter_cons_True by (by apply split_single_nonempty).
  rewrite filter_nil. simpl. by rewrite union_empty_r_L.
Qed.

Lemma all_app_role_values_with_role (sp : ServicePrincipal) (v : string) :
  nonempty v = true ->
  all_app_role_values (with_role sp v) = all_app_role_values sp ∪ {[v]}.
Proof.
  intros Hv. unfold all_app_role_values. simpl. rewrite omap_app. simpl.
  rewrite Hv. rewrite list_to_set_app_L. simpl. by rewrite union_empty_r_L.
Qed.

(** The running maximum as a maximum over the list. *)
Lemma max_impact_over_spec (rules : dict Rule) (perms : list string) (m x : Z) :
  max_impact_over rules m perms <= x
  <-> m <= x /\ Forall (fun p => impact_score (translate1 rules p) <= x) perms.
Proof.
  unfold max_impact_over. revert m. induction perms as [|p perms IH]; intros m; simpl.
  - split; [intros Hle; split; [exact Hle | constructor] | by intros [Hle _]].
  - rewrite IH, Forall_cons. split.
    + intros [Hmax Hall]. split; [lia|]. split; [lia | exact Hall].
    + intros [Hm [Hp Hall]]. split; [lia | exact Hall].
Qed.

Lemma max_impact_over_perm (rules : dict Rule) (perms perms' : list string) (m : Z) :
  perms ≡ₚ perms' ->
  max_impact_over rules m perms = max_impact_over rules m perms'.
Proof.
  intros Hperm. apply Z.le_antisymm.
  - apply max_impact_over_spec. rewrite Hperm. by apply max_impact_over_spec.
  - apply max_impact_over_spec. rewrite <- Hperm. by apply max_impact_over_spec.
Qed.

Lemma max_impact_over_cons (rules : dict Rule) (perms : list string) (m : Z) (p : string) :
  max_impact_over rules m (p :: perms)
  = Z.max (impact_score (translate1 rules p)) (max_impact_over rules m perms).
Proof.
  apply Z.le_antisymm.
  - apply max_impact_over_spec.
    pose proof (proj1 (max_impact_over_spec rules perms m _) (Z.le_refl _)) as [Hm Hall].
    split; [lia|]. constructor; [lia|].
    eapply Forall_impl; [exact Hall|]. simpl. intros; lia.
  - pose proof (proj1 (max_impact_over_spec rules (p :: perms) m _) (Z.le_refl _)) as [Hm Hall].
    apply Forall_cons in Hall as [Hp Hall].
    apply Z.max_lub; [exact Hp|].
    apply max_impact_over_spec. split; [exact Hm | exact Hall].
Qed.

Lemma max_impact_over_chain (rules : dict Rule) (l1 l2 : list string) (m : Z) :
  max_impact_over rules (max_impact_over rules m l1) l2
  = max_impact_over rules m (l1 ++ l2).
Proof. unfold max_impact_over. by rewrite foldl_app. Qed.

Lemma elements_with (X : gset string) (v : string) :
  v ∉ X -> elements (X ∪ {[v]}) ≡ₚ v :: elements X.
Proof.
  intros Hv. rewrite (union_comm_L X {[v]}). by apply elements_union_singleton.
Qed.

Lemma _score_ownership_same {F} `{PyFloat F}
    (config : Config F) (rules : dict Rule) (sp : ServicePrincipal)
    (v : string) :
  split v = [v] ->
  v ∉ all_delegated_scopes sp -> v ∉ all_app_role_values sp ->
  _score_ownership config rules (with_scope sp v)
  = _score_ownership config rules (with_role sp v).
Proof.
  intros Hv Hscope Hrole. unfold _score_ownership.
  change (has_owners (with_scope sp v)) with (has_owners sp).
  change (has_owners (with_role sp v)) with (has_owners sp).
  destruct (negb (has_owners sp)); [|reflexivity].
  rewrite !max_impact_over_chain.
  rewrite all_delegated_scopes_with_scope by exact Hv.
  rewrite all_app_role_values_with_role by (by apply split_single_nonempty).
  change (all_app_role_values (with_scope sp v)) with (all_app_role_values sp).
  change (all_delegated_scopes (with_role sp v)) with (all_delegated_scopes sp).
  set (keep := fun role : string => scored_role role = true).
  assert (Hleft :
    elements (all_delegated_scopes sp ∪ {[v]})
    ++ filter keep (elements (all_app_role_values sp))
    ≡ₚ v :: (elements (all_delegated_scopes sp)
             ++ filter keep (elements (all_app_role_values sp)))).
  { by rewrite elements_with. }
  assert (Hright :
    elements (all_delegated_scopes sp)
    ++ filter keep (elements (all_app_role_values sp ∪ {[v]}))
    ≡ₚ v :: (elements (all_delegated_scopes sp)
             ++ filter keep (elements (all_app_role_values sp)))).
  { rewrite elements_with by exact Hrole.
    rewrite filter_cons_True by (by apply split_single_scored).
    by rewrite Permutation_middle. }
  rewrite (max_impact_over_perm rules _ _ 0 Hleft).
  by rewrite (max_impact_over_perm rules _ _ 0 Hright).
Qed.

Lemma nonempty_with (X : gset string) (v : string) :
  bool_decide (X ∪ {[v]} ≠ ∅) = true.
Proof. apply bool_decide_eq_true_2. set_solver. Qed.

(** The activity factors of the delegated holder are those of the role
    holder, or, when the impact of [v] is at least 70, the role holder has
    none and the delegated holder has the inactivity factor. *)
Lemma _score_activity_with (config : Config Q) (rules : dict Rule)
    (sp : ServicePrincipal) (v : string) :
  split v = [v] ->
  v ∉ all_delegated_scopes sp ->
  (wsum (_score_activity config rules (with_scope sp v))
   == wsum (_score_activity config rules (with_role sp v)))%Q
  \/ (70 <= impact_score (translate1 rules v)
      /\ (wsum (_score_activity config rules (with_scope sp v))
          == wsum (_score_activity config rules (with_role sp v))
             + 25 * unused_high_privilege_weight (scoring config))%Q).
Proof.
  intros Hv Hscope. unfold _score_activity.
  change (sign_in_activity (with_scope sp v)) with (sign_in_activity sp).
  change (sign_in_activity (with_role sp v)) with (sign_in_activity sp).
  destruct (sign_in_activity sp) as [activity|]; [|by left].
  destruct (negb (data_available activity)); [by left|].
  rewrite all_delegated_scopes_with_scope by exact Hv.
  rewrite all_app_role_values_with_role by (by apply split_single_nonempty).
  change (all_delegated_scopes (with_role sp v)) with (all_delegated_scopes sp).
  destruct (days_since_last_activity activity) as [days|].
  - destruct (inactive_days_threshold (thresholds config) <? days);
      [|by left].
    rewrite (max_impact_over_perm rules _ _ 0
               (elements_with _ v Hscope)).
    rewrite max_impact_over_cons.
    set (m := max_impact_over rules 0 (elements (all_delegated_scopes sp))).
    set (i := impact_score (translate1 rules v)).
    destruct (Z.leb_spec 70 m) as [Hm|Hm].
    + rewrite (proj2 (Z.leb_le 70 (Z.max i m))) by lia. by left.
    + destruct (Z.leb_spec 70 (Z.max i m)) as [Hi|Hi]; [|by left].
      right. split; [lia|].
      change (inject_Z 25 * unused_high_privilege_weight (scoring config) + 0
              == 0 + 25 * unused_high_privilege_weight (scoring config))%Q.
      change (inject_Z 25) with 25%Q. ring.
  - rewrite !nonempty_with. rewrite orb_true_r. simpl. by left.
Qed.

(** *** The permission factors in exact arithmetic *)

Lemma extend_each_flat_map {A B} (body : A -> option (list B))
    (entry : A -> list B) (l : list A) :
  (forall x, body x = Some (entry x)) ->
  extend_each body l = Some (flat_map entry l).
Proof.
  intros Hbody. induction l as [|x l IH]; simpl; [reflexivity|].
  by rewrite Hbody, IH.
Qed.

Lemma _score_permissions_exact (config : Config Q) (rules : dict Rule)
    (sp : ServicePrincipal) :
  _score_permissions config rules sp
  = Some (flat_map (delegated_entry config rules)
            (elements (all_delegated_scopes sp))
          ++ flat_map (application_entry config rules)
               (elements (all_app_role_values sp))
          ++ consent_entry config sp).
Proof.
  unfold _score_permissions.
  rewrite (extend_each_flat_map _ (delegated_entry config rules)
             (elements (all_delegated_scopes sp))) by reflexivity.
  simpl.
  rewrite (extend_each_flat_map _ (application_entry config rules)
             (elements (all_app_role_values sp))).
  - reflexivity.
  - intros role. unfold application_entry.
    by destruct (negb (scored_role role)).
Qed.

Lemma wsum_flat_map_perm {A} (entry : A -> list (RiskFactor Q))
    (l l' : list A) :
  l ≡ₚ l' -> (wsum (flat_map entry l) == wsum (flat_map entry l'))%Q.
Proof.
  induction 1 as [|x l l' _ IH|x y l|l l' l'' _ IH1 _ IH2]; simpl.
  - reflexivity.
  - rewrite !wsum_app, IH. reflexivity.
  - rewrite !wsum_app. ring.
  - by rewrite IH1.
Qed.

Lemma quot_15_10 (i : Z) :
  let q := Z.quot (i * 15) 10 in
  Z.max 0 i <= Z.max 0 q
  /\ (2 <= i -> Z.max 0 i + 1 <= Z.max 0 q)
  /\ (70 <= i -> Z.max 0 i + 35 <= Z.max 0 q).
Proof.
  cbv zeta. destruct (Z.le_gt_cases 0 i) as [Hpos|Hneg].
  - rewrite Z.quot_div_nonneg by lia.
    assert (H0 : i <= i * 15 / 10) by (apply Z.div_le_lower_bound; lia).
    split; [lia|]. split; intros Hi.
    + assert (i + 1 <= i * 15 / 10) by (apply Z.div_le_lower_bound; lia).
      lia.
    + assert (i + 35 <= i * 15 / 10) by (apply Z.div_le_lower_bound; lia).
      lia.
  - replace (i * 15) with (- (- i * 15)) by lia.
    rewrite Z.quot_opp_l by lia. rewrite Z.quot_div_nonneg by lia.
    assert (0 <= - i * 15 / 10) by (apply Z.div_pos; lia).
    repeat split; intros; lia.
Qed.

Lemma wsum_delegated_entry (config : Config Q) (rules : dict Rule)
    (v : string) :
  delegated_permission_multiplier (scoring config) = 1%Q ->
  (wsum (delegated_entry config rules v)
   == inject_Z (Z.max 0 (impact_score (translate1 rules v))))%Q.
Proof.
  intros Hmul. unfold delegated_entry. rewrite Hmul.
  set (i := impact_score (translate1 rules v)).
  assert (Htrunc : Exact.trunc (inject_Z i * 1) = i).
  { unfold Exact.trunc. simpl. rewrite Z.quot_1_r. lia. }
  rewrite Htrunc. destruct (Z.ltb_spec 0 i) as [Hpos|Hneg].
  - rewrite Z.max_r by lia.
    change (inject_Z i * 1 + 0 == inject_Z i)%Q. ring.
  - rewrite Z.max_l by lia. reflexivity.
Qed.

Lemma wsum_application_entry (config : Config Q) (rules : dict Rule)
    (v : string) :
  application_permission_multiplier (scoring config) = (15 # 10)%Q ->
  scored_role v = true ->
  (wsum (application_entry config rules v)
   == inject_Z (Z.max 0 (Z.quot (impact_score (translate1 rules v) * 15) 10)))%Q.
Proof.
  intros Hmul Hv. unfold application_entry. rewrite Hmul, Hv. simpl negb.
  cbv iota.
  set (i := impact_score (translate1 rules v)).
  assert (Htrunc : Exact.trunc (inject_Z i * (15 # 10)) = Z.quot (i * 15) 10).
  { reflexivity. }
  rewrite Htrunc. set (q := Z.quot (i * 15) 10).
  destruct (Z.ltb_spec 0 q) as [Hpos|Hneg].
  - rewrite Z.max_r by lia.
    change (inject_Z q * 1 + 0 == inject_Z q)%Q. ring.
  - rewrite Z.max_l by lia. reflexivity.
Qed.

Lemma consent_entry_with_scope (config : Config Q) (sp : ServicePrincipal)
    (v : string) :
  consent_entry config (with_scope sp v) = consent_entry config sp.
Proof.
  unfold consent_entry. simpl. rewrite existsb_app. simpl.
  by rewrite orb_false_r.
Qed.

(** The weighted sums of the two holders' factor lists, over the groups
    they share. *)
Lemma wsum_with_scope (config : Config Q) (rules : dict Rule)
    (sp : ServicePrincipal) (v : string) (r : RiskScore Q) :
  split v = [v] ->
  v ∉ all_delegated_scopes sp -> v ∉ all_app_role_values sp ->
  delegated_permission_multiplier (scoring config) = 1%Q ->
  app_id sp ∉ allowed_app_ids (allow_deny config) ->
  score_service_principal config rules (with_scope sp v) = Some r ->
  (wsum (factors r)
   == inject_Z (Z.max 0 (impact_score (translate1 rules v)))
      + wsum (_score_activity config rules (with_scope sp v))
      + wsum ((if bool_decide (app_id sp ∈ denied_app_ids (allow_deny config))
               then [deny_factor sp] else [])
              ++ flat_map (delegated_entry config rules)
                   (elements (all_delegated_scopes sp))
              ++ flat_map (application_entry config rules)
                   (elements (all_app_role_values sp))
              ++ consent_entry config sp
              ++ _score_trust_factors config sp
              ++ _score_ownership config rules (with_role sp v)
              ++ _score_credentials config sp))%Q.
Proof.
  intros Hv Hscope Hrole Hmul Hallow Hscore.
  destruct (score_service_principal_factors config rules (with_scope sp v) r
              Hallow Hscore) as (pf & Hpf & Hfactors & _).
  rewrite _score_permissions_exact in Hpf. injection Hpf as <-.
  rewrite Hfactors. clear Hfactors.
  rewrite all_delegated_scopes_with_scope by exact Hv.
  rewrite consent_entry_with_scope.
  change (all_app_role_values (with_scope sp v)) with (all_app_role_values sp).
  change (app_id (with_scope sp v)) with (app_id sp).
  change (deny_factor (with_scope sp v)) with (deny_factor (F:=Q) sp).
  change (_score_trust_factors config (with_scope sp v))
    with (_score_trust_factors config sp).
  change (_score_credentials config (with_scope sp v))
    with (_score_credentials config sp).
  rewrite (_score_ownership_same config rules sp v Hv Hscope Hrole).
  rewrite !wsum_app.
  rewrite (wsum_flat_map_perm _ _ _ (elements_with _ v Hscope)).
  change (flat_map (delegated_entry config rules)
            (v :: elements (all_delegated_scopes sp)))
    with (delegated_entry config rules v
          ++ flat_map (delegated_entry config rules)
               (elements (all_delegated_scopes sp))).
  rewrite wsum_app, (wsum_delegated_entry config rules v Hmul). ring.
Qed.

Lemma wsum_with_role (config : Config Q) (rules : dict Rule)
    (sp : ServicePrincipal) (v : string) (r : RiskScore Q) :
  split v = [v] -> v ∉ all_app_role_values sp ->
  application_permission_multiplier (scoring config) = (15 # 10)%Q ->
  app_id sp ∉ allowed_app_ids (allow_deny config) ->
  score_service_principal config rules (with_role sp v) = Some r ->
  (wsum (factors r)
   == inject_Z (Z.max 0 (Z.quot (impact_score (translate1 rules v) * 15) 10))
      + wsum (_score_activity config rules (with_role sp v))
      + wsum ((if bool_decide (app_id sp ∈ denied_app_ids (allow_deny config))
               then [deny_factor sp] else [])
              ++ flat_map (delegated_entry config rules)
                   (elements (all_delegated_scopes sp))
              ++ flat_map (application_entry config rules)
                   (elements (all_app_role_values sp))
              ++ consent_entry config sp
              ++ _score_trust_factors config sp
              ++ _score_ownership config rules (with_role sp v)
              ++ _score_credentials config sp))%Q.
Proof.
  intros Hv Hrole Hmul Hallow Hscore.
  destruct (score_service_principal_factors config rules (with_role sp v) r
              Hallow Hscore) as (pf & Hpf & Hfactors & _).
  rewrite _score_permissions_exact in Hpf. injection Hpf as <-.
  rewrite Hfactors. clear Hfactors.
  rewrite all_app_role_values_with_role by (by apply split_single_nonempty).
  change (consent_entry config (with_role sp v)) with (consent_entry config sp).
  change (all_delegated_scopes (with_role sp v)) with (all_delegated_scopes sp).
  change (app_id (with_role sp v)) with (app_id sp).
  change (deny_factor (with_role sp v)) with (deny_factor (F:=Q) sp).
  change (_score_trust_factors config (with_role sp v))
    with (_score_trust_factors config sp).
  change (_score_credentials config (with_role sp v))
    with (_score_credentials config sp).
  rewrite !wsum_app.
  rewrite (wsum_flat_map_perm _ _ _ (elements_with _ v Hrole)).
  change (flat_map (application_entry config rules)
            (v :: elements (all_app_role_values sp)))
    with (application_entry config rules v
          ++ flat_map (application_entry config rules)
               (elements (all_app_role_values sp))).
  rewrite wsum_app.
  rewrite (wsum_application_entry config rules v Hmul
             (split_single_scored v Hv)).
  ring.
Qed.

Lemma total_of_strict (s s' : Q) :
  (s + 1 <= s')%Q -> total_of s < 100 -> 0 < total_of s' ->
  total_of s < total_of s'.
Proof.
  intros Hstep Hlow Hhigh.
  destruct (Qlt_le_dec s 0) as [Hneg|Hpos].
  { rewrite (total_of_below s) by lra. exact Hhigh. }
  destruct (Qlt_le_dec 100 s) as [Habove|Hupto].
  { rewrite (total_of_above s Habove) in Hlow. lia. }
  rewrite (total_of_middle s Hpos Hupto) in *.
  destruct (Qlt_le_dec 100 s') as [Habove'|Hupto'].
  { rewrite (total_of_above s' Habove'). exact Hlow. }
  rewrite (total_of_middle s') by lra.
  assert (Hfloor : Qfloor s + 1 <= Qfloor s').
  { rewrite <- (Qfloor_Z (Qfloor s + 1)). apply Qfloor_resp_le.
    rewrite inject_Z_plus. pose proof (Qfloor_le s).
    change (inject_Z 1) with 1%Q. lra. }
  lia.
Qed.

Lemma score_service_principal_exact_total (config : Config Q)
    (rules : dict Rule) (sp : ServicePrincipal) :
  app_id sp ∉ allowed_app_ids (allow_deny config) ->
  exists r, score_service_principal config rules sp = Some r
            /\ total_score r = total_of (wsum (factors r)).
Proof.
  intros Hallow.
  destruct (score_service_principal config rules sp) as [r|] eqn:Hscore.
  - exists r. split; [reflexivity|].
    destruct (score_service_principal_factors config rules sp r Hallow Hscore)
      as (_ & _ & _ & Htotal).
    rewrite _calculate_total_exact in Htotal. by injection Htotal.
  - exfalso. unfold score_service_principal in Hscore.
    rewrite bool_decide_eq_false_2 in Hscore by exact Hallow.
    destruct (_score_permissions_exact_is_Some config rules sp) as [pf Hpf].
    rewrite Hpf in Hscore. simpl in Hscore.
    match type of Hscore with mbind _ (_calculate_total ?fs) = None =>
      destruct (_calculate_total_exact_is_Some fs) as [total Ht];
      rewrite Ht in Hscore end.
    discriminate.
Qed.

(** Exact arithmetic, application multiplier 1.5, delegated multiplier
    1.0, inactivity weight at most 1.4.  For an identity [sp] and a
    permission value [v] of one token that [sp] holds in neither way, the
    identity that gets [v] as an application role scores at least as much
    as the identity that gets [v] as an admin-consented delegated scope;
    and strictly more when the impact of [v] is at least 2, both get the
    same activity factors, the delegated holder's total is below 100 and
    the role holder's total is above 0. *)
Lemma application_role_exact
    (config : Config Q) (rules : dict Rule) (sp : ServicePrincipal)
    (v : string) :
  application_permission_multiplier (scoring config) = (15 # 10)%Q ->
  delegated_permission_multiplier (scoring config) = 1%Q ->
  (unused_high_privilege_weight (scoring config) <= 14 # 10)%Q ->
  split v = [v] ->
  v ∉ all_delegated_scopes sp ->
  v ∉ all_app_role_values sp ->
  exists r_app r_del,
    score_service_principal config rules (with_role sp v) = Some r_app
    /\ score_service_principal config rules (with_scope sp v) = Some r_del
    /\ total_score r_del <= total_score r_app
    /\ (2 <= impact_score (translate1 rules v) ->
        _score_activity config rules (with_scope sp v)
        = _score_activity config rules (with_role sp v) ->
        total_score r_del < 100 ->
        0 < total_score r_app ->
        total_score r_del < total_score r_app).
Proof.
  intros Happ Hdel Hunused Hv Hscope Hrole.
  destruct (decide (app_id sp ∈ allowed_app_ids (allow_deny config)))
    as [Hallow|Hallow].
  { exists allow_list_score, allow_list_score.
    unfold score_service_principal.
    change (app_id (with_role sp v)) with (app_id sp).
    change (app_id (with_scope sp v)) with (app_id sp).
    rewrite bool_decide_eq_true_2 by exact Hallow.
    repeat split; simpl; lia. }
  destruct (score_service_principal_exact_total config rules
              (with_role sp v) Hallow) as (r_app & Hr_app & Ht_app).
  destruct (score_service_principal_exact_total config rules
              (with_scope sp v) Hallow) as (r_del & Hr_del & Ht_del).
  exists r_app, r_del. split; [exact Hr_app|]. split; [exact Hr_del|].
  pose proof (wsum_with_role config rules sp v r_app Hv Hrole Happ Hallow
                Hr_app) as Hs_app.
  pose proof (wsum_with_scope config rules sp v r_del Hv Hscope Hrole Hdel
                Hallow Hr_del) as Hs_del.
  destruct (quot_15_10 (impact_score (translate1 rules v)))
    as (Hge & Hstrict & Hhigh).
  set (i := impact_score (translate1 rules v)) in *.
  set (q := Z.quot (i * 15) 10) in *.
  assert (Hge' : (inject_Z (Z.max 0 i) <= inject_Z (Z.max 0 q))%Q)
    by (by rewrite <- Zle_Qle).
  rewrite Ht_app, Ht_del. split.
  - apply total_of_mono. rewrite Hs_app, Hs_del.
    destruct (_score_activity_with config rules sp v Hv Hscope)
      as [Hact|[Hi Hact]]; rewrite Hact.
    + lra.
    + specialize (Hhigh Hi). rewrite Zle_Qle, inject_Z_plus in Hhigh.
      change (inject_Z 35) with 35%Q in Hhigh. lra.
  - intros Hi Hact Hlow Hpos. apply total_of_strict; [|exact Hlow|exact Hpos].
    rewrite Hs_app, Hs_del, Hact.
    specialize (Hstrict Hi). rewrite Zle_Qle, inject_Z_plus in Hstrict.
    change (inject_Z 1) with 1%Q in Hstrict. lra.
Qed.

(** C7 fails where the total is clamped or truncated: with an impact of 100
    both holders score 100 (the application factor of 150 is scaled to 105
    and clamped), and with an impact of 1 both score 1 ([int(1.5)] is 1);
    doubles, default configuration. *)
Lemma application_role_not_strictly_higher_counterexample :
  (exists r_app r_del : RiskScore float,
     score_service_principal default_config takeover_rules
       (with_role owned_principal "Directory.ReadWrite.All") = Some r_app
     /\ score_service_principal default_config takeover_rules
          (with_scope owned_principal "Directory.ReadWrite.All") = Some r_del
     /\ total_score r_app = 100
     /\ total_score r_del = 100
     /\ ~ (total_score r_del < total_score r_app))
  /\ (exists r_app r_del : RiskScore float,
        score_service_principal default_config takeover_rules
          (with_role owned_principal "User.ReadBasic.All") = Some r_app
        /\ score_service_principal default_config takeover_rules
             (with_scope owned_principal "User.ReadBasic.All") = Some r_del
        /\ total_score r_app = 1
        /\ total_score r_del = 1
        /\ ~ (total_score r_del < total_score r_app)).
Proof.
  split; (eexists; eexists; split; [vm_compute; reflexivity|];
          split; [vm_compute; reflexivity|]; simpl; repeat split; lia).
Qed.

(** The same pair with doubles: 75 as a delegated scope, 100 as an
    application role. *)
Example application_role_binary64_example :
  option_map total_score
    (score_service_principal (F:=float) default_config mail_catalog
       (with_scope owned_principal "Mail.Read")) = Some 75
  /\ option_map total_score
       (score_service_principal (F:=float) default_config mail_catalog
          (with_role owned_principal "Mail.Read")) = Some 100.
Proof. vm_compute. split; reflexivity. Qed.

(** Why the delegated scope is taken admin-consented: a user-consented
    grant adds the user-consent factor, and an unknown permission then
    scores 30 + 24 = 54 as a delegated scope against 45 as an application
    role. *)
Example user_consented_scope_example :
  option_map total_score
    (score_service_principal (F:=float) default_config []
       (a_principal "app-owned" AppType.TENANT_OWNED
          [a_grant ConsentType.USER "Custom.Scope"] [] [an_owner])) = Some 54
  /\ option_map total_score
       (score_service_principal (F:=float) default_config []
          (a_principal "app-owned" AppType.TENANT_OWNED
             [] [a_role "Custom.Scope"] [an_owner])) = Some 45.
Proof. vm_compute. split; reflexivity. Qed.

(** * Properties of the further functions *)

Lemma split_aux_tokens (s : string) (cur : list ascii) :
  Forall (fun a => is_space a = false) cur ->
  Forall token (split_aux s cur).
Proof.
  revert cur. induction s as [|a s IH]; intros cur Hcur; simpl.
  - destruct cur as [|c cur]; [constructor|].
    constructor; [|constructor]. split.
    + intros Heq. apply (f_equal list_ascii_of_string) in Heq.
      rewrite list_ascii_of_string_of_list_ascii in Heq. simpl in Heq.
      by destruct (rev cur).
    + unfold blank_free. rewrite list_ascii_of_string_of_list_ascii.
      by apply Forall_rev.
  - destruct (is_space a) eqn:Ha.
    + apply Forall_app. split; [|apply IH; constructor].
      destruct cur as [|c cur]; [constructor|].
      constructor; [|constructor]. split.
      * intros Heq. apply (f_equal list_ascii_of_string) in Heq.
        rewrite list_ascii_of_string_of_list_ascii in Heq. simpl in Heq.
        by destruct (rev cur).
      * unfold blank_free. rewrite list_ascii_of_string_of_list_ascii.
        by apply Forall_rev.
    + apply IH. by constructor.
Qed.

Lemma scopes_split (g : OAuth2PermissionGrant) :
  scopes g = split (grant_scope g).
Proof.
  unfold scopes.
  pose proof (split_aux_tokens (grant_scope g) [] ltac:(constructor)) as Htok.
  fold (split (grant_scope g)) in Htok.
  induction Htok as [|s l [Hs _] _ IH]; [reflexivity|].
  rewrite filter_cons_True; [by rewrite IH|].
  by destruct s.
Qed.

Lemma split_aux_token (t rest : string) (cur : list ascii) :
  blank_free t ->
  split_aux (t +:+ rest) cur
  = split_aux rest (rev (list_ascii_of_string t) ++ cur).
Proof.
  revert cur. induction t as [|a t IH]; intros cur Hfree; [reflexivity|].
  apply Forall_cons in Hfree as [Ha Hfree].
  change (String a t +:+ rest) with (String a (t +:+ rest)).
  cbn [split_aux]. rewrite Ha, (IH _ Hfree).
  cbn [list_ascii_of_string rev]. by rewrite <- app_assoc.
Qed.

Lemma append_empty_r (s : string) : s +:+ EmptyString = s.
Proof.
  induction s as [|a s IH]; [reflexivity|].
  change (String a (s +:+ EmptyString) = String a s). by rewrite IH.
Qed.

Lemma split_aux_end_token (t : string) :
  token t -> split_aux EmptyString (rev (list_ascii_of_string t)) = [t].
Proof.
  intros [Hne _]. simpl.
  destruct (rev (list_ascii_of_string t)) as [|c l] eqn:Hrev.
  - apply (f_equal (@rev ascii)) in Hrev. rewrite rev_involutive in Hrev.
    apply (f_equal string_of_list_ascii) in Hrev.
    rewrite string_of_list_ascii_of_string in Hrev. contradiction.
  - rewrite <- Hrev, rev_involutive.
    by rewrite string_of_list_ascii_of_string.
Qed.

Lemma split_concat_tokens (tokens : list string) :
  Forall token tokens -> split (String.concat " " tokens) = tokens.
Proof.
  unfold split. induction 1 as [|t tokens Ht Htokens IH]; [reflexivity|].
  destruct tokens as [|t' tokens].
  - simpl String.concat. rewrite <- (append_empty_r t) at 1.
    rewrite split_aux_token by apply Ht. rewrite app_nil_r.
    by apply split_aux_end_token.
  - change (String.concat " " (t :: t' :: tokens))
      with (t +:+ String " " (String.concat " " (t' :: tokens))).
    rewrite split_aux_token by apply Ht. rewrite app_nil_r.
    cbn [split_aux]. change (is_space " ") with true. cbv iota.
    rewrite IH.
    pose proof (split_aux_end_token t Ht) as Hend. cbn [split_aux] in Hend.
    by rewrite Hend.
Qed.

(** ** Sorting *)

Lemma insert_by_perm {A} (key : A -> Z) (x : A) (l : list A) :
  insert_by key x l ≡ₚ x :: l.
Proof.
  induction l as [|y l IH]; simpl; [reflexivity|].
  destruct (key y <=? key x); [|reflexivity].
  rewrite IH. apply Permutation_swap.
Qed.

Lemma sorted_by_perm {A} (key : A -> Z) (l : list A) : sorted_by key l ≡ₚ l.
Proof.
  unfold sorted_by.
  assert (Hgen : forall acc, foldl (fun acc x => insert_by key x acc) acc l
                             ≡ₚ acc ++ l).
  { induction l as [|x l IH]; intros acc; simpl.
    - by rewrite app_nil_r.
    - rewrite IH, insert_by_perm. simpl. apply Permutation_middle. }
  apply Hgen.
Qed.

Lemma insert_by_sorted {A} (key : A -> Z) (x : A) (l : list A) :
  ascending key l -> ascending key (insert_by key x l).
Proof.
  unfold ascending. induction 1 as [|y l Hl IH Hy]; simpl.
  - repeat constructor.
  - destruct (Z.leb_spec (key y) (key x)) as [Hle|Hgt].
    + constructor; [exact IH|].
      rewrite insert_by_perm. constructor; [exact Hle | exact Hy].
    + constructor; [by constructor|].
      constructor; [lia|]. eapply Forall_impl; [exact Hy|]. simpl. intros; lia.
Qed.

Lemma sorted_by_sorted {A} (key : A -> Z) (l : list A) :
  ascending key (sorted_by key l).
Proof.
  unfold sorted_by.
  assert (Hgen : forall acc, ascending key acc ->
            ascending key (foldl (fun acc x => insert_by key x acc) acc l)).
  { induction l as [|x l IH]; intros acc Hacc; simpl; [exact Hacc|].
    apply IH. by apply insert_by_sorted. }
  apply Hgen. constructor.
Qed.

(** ** Scopes of a grant *)

(** X1. Whatever the raw scope string of a grant (leading, trailing or
    repeated blanks, no scope at all), every scope that
    [OAuth2PermissionGrant.scopes] returns is non-empty and holds no blank. *)
Theorem scopes_are_blank_free_tokens (g : OAuth2PermissionGrant) :
  Forall token (scopes g).
Proof.
  rewrite scopes_split. apply split_aux_tokens. constructor.
Qed.

(** X2. A scope string that joins non-empty, blank-free names with single
    spaces is split back into these names, in order. *)
Theorem scopes_of_joined_tokens
    (g : OAuth2PermissionGrant) (tokens : list string) :
  Forall token tokens ->
  grant_scope g = String.concat " " tokens ->
  scopes g = tokens.
Proof.
  intros Htokens Hscope. rewrite scopes_split, Hscope.
  by apply split_concat_tokens.
Qed.

Lemma scopes_of_joined_tokens_witness :
  scopes (a_grant ConsentType.ADMIN
            (String.concat " " ["User.Read"; "Mail.Read"; "Files.ReadWrite.All"]))
  = ["User.Read"; "Mail.Read"; "Files.ReadWrite.All"].
Proof.
  apply scopes_of_joined_tokens; [|reflexivity].
  repeat constructor; try discriminate.
Defined.

(** ** Expiring credentials *)

(** X3. [Application.expiring_credentials] lists, soonest first, exactly the
    credentials of the application that have an end date 0 to 90 days
    ahead, each with its days remaining; a credential that has already
    expired is never listed. *)
Theorem expiring_credentials_spec (app : Application) :
  ascending snd (expiring_credentials app)
  /\ (forall cred days,
        (cred, days) ∈ expiring_credentials app
        <-> cred ∈ all_credentials app
            /\ cred_days_until_expiry cred = Some days
            /\ 0 <= days <= 90)
  /\ (forall cred days,
        (cred, days) ∈ expiring_credentials app -> is_expired cred = false).
Proof.
  assert (Hmem : forall cred days,
             (cred, days) ∈ expiring_credentials app
             <-> cred ∈ all_credentials app
                 /\ cred_days_until_expiry cred = Some days
                 /\ 0 <= days <= 90).
  { intros cred days. unfold expiring_credentials.
    rewrite sorted_by_perm, list_elem_of_omap. split.
    - intros (c & Hin & Hsome).
      destruct (cred_days_until_expiry c) as [d|] eqn:Hd; [|discriminate].
      destruct (Z.leb_spec 0 d); [|discriminate].
      destruct (Z.leb_spec d 90); [|discriminate].
      simpl in Hsome. injection Hsome as <- <-. by repeat split.
    - intros (Hin & Hd & Hlo & Hhi). exists cred. split; [exact Hin|].
      rewrite Hd. rewrite (proj2 (Z.leb_le _ _) Hlo).
      by rewrite (proj2 (Z.leb_le _ _) Hhi). }
  split; [apply sorted_by_sorted|]. split; [exact Hmem|].
  intros cred days Hin. apply Hmem in Hin as (_ & Hd & Hlo & _).
  unfold is_expired. rewrite Hd. apply Z.ltb_ge. exact Hlo.
Qed.

(** ** The ten riskiest identities *)

(** The ranking kept by [top_risky_apps]. *)
Lemma top_risky_apps_ranking {F} (result : ScoredAnalysis F) :
  (length (top_risky_apps result) <= 10)%nat
  /\ descending (fun x => total_score (snd x)) (top_risky_apps result)
  /\ (forall sp score,
        (sp, score) ∈ top_risky_apps result ->
        sp ∈ service_principals (analysis result)
        /\ dict_get (object_id sp) (risk_scores result) = Some score)
  /\ (forall sp score,
        sp ∈ service_principals (analysis result) ->
        dict_get (object_id sp) (risk_scores result) = Some score ->
        (sp, score) ∈ top_risky_apps result
        \/ (length (top_risky_apps result) = 10%nat
            /\ forall x, x ∈ top_risky_apps result ->
                         total_score score <= total_score (snd x))).
Proof.
  unfold top_risky_apps.
  set (scored := omap _ (service_principals (analysis result))).
  set (ranked := sorted_by_desc (fun x => total_score (snd x)) scored).
  assert (Hscored : forall sp score,
             (sp, score) ∈ scored
             <-> sp ∈ service_principals (analysis result)
                 /\ dict_get (object_id sp) (risk_scores result) = Some score).
  { intros sp score. unfold scored. rewrite list_elem_of_omap. split.
    - intros (sp' & Hin & Hsome).
      destruct (dict_get (object_id sp') (risk_scores result)) as [s|] eqn:Hs;
        [|discriminate].
      injection Hsome as -> ->. by split.
    - intros [Hin Hs]. exists sp. split; [exact Hin|]. by rewrite Hs. }
  assert (Hranked : descending (fun x => total_score (snd x))
                      (take 10 ranked ++ drop 10 ranked)).
  { rewrite take_drop. apply sorted_by_desc_sorted. }
  split; [rewrite length_take; lia|].
  split; [exact (StronglySorted_app_1_l _ _ _ Hranked)|].
  split.
  - intros sp score Hin. apply Hscored.
    rewrite <- (sorted_by_desc_perm (fun x => total_score (snd x)) scored).
    fold ranked. rewrite <- (take_drop 10 ranked).
    apply elem_of_app. by left.
  - intros sp score Hin Hs.
    assert (Hmem : (sp, score) ∈ take 10 ranked ++ drop 10 ranked).
    { rewrite take_drop. unfold ranked. rewrite sorted_by_desc_perm.
      by apply Hscored. }
    apply elem_of_app in Hmem as [Htake|Hdrop]; [by left|]. right. split.
    + rewrite length_take. apply Nat.min_l.
      destruct (Nat.le_gt_cases 10 (length ranked)) as [|Hshort]; [assumption|].
      rewrite drop_ge in Hdrop by lia. by apply elem_of_nil in Hdrop.
    + intros x Hx.
      exact (StronglySorted_app_1_elem_of _ _ _ _ _ Hranked Hx Hdrop).
Qed.

(** X4. [top_risky_apps] holds at most ten pairs, in descending order of
    total score; each pairs an identity of the result with the score
    stored under its object id; and a scored identity that is left out has
    a total no higher than any listed one (the list is then full). *)
Theorem top_risky_apps_spec {F} (result : ScoredAnalysis F) :
  (length (top_risky_apps result) <= 10)%nat
  /\ descending (fun x => total_score (snd x)) (top_risky_apps result)
  /\ (forall sp score,
        (sp, score) ∈ top_risky_apps result ->
        sp ∈ service_principals (analysis result)
        /\ dict_get (object_id sp) (risk_scores result) = Some score)
  /\ (forall sp score,
        sp ∈ service_principals (analysis result) ->
        dict_get (object_id sp) (risk_scores result) = Some score ->
        (sp, score) ∈ top_risky_apps result
        \/ (length (top_risky_apps result) = 10%nat
            /\ forall x, x ∈ top_risky_apps result ->
                         total_score score <= total_score (snd x))).
Proof. apply top_risky_apps_ranking. Qed.

(** ** Scoring a whole result *)

Lemma dict_get_set_eq {V} (k : string) (v : V) (d : dict V) :
  dict_get k (dict_set k v d) = Some v.
Proof.
  induction d as [|[k0 v0] d IH]; simpl.
  - by rewrite String.eqb_refl.
  - destruct (String.eqb_spec k k0) as [->|Hne]; simpl.
    + by rewrite String.eqb_refl.
    + destruct (String.eqb_spec k k0); [contradiction | exact IH].
Qed.

Lemma dict_set_fresh {V} (k : string) (v : V) (d : dict V) :
  k ∉ map fst d -> dict_set k v d = d ++ [(k, v)].
Proof.
  induction d as [|[k0 v0] d IH]; simpl; intros Hk; [reflexivity|].
  apply not_elem_of_cons in Hk as [Hne Hk].
  destruct (String.eqb_spec k k0); [contradiction|]. by rewrite IH.
Qed.

Lemma dict_get_is_Some {V} (k : string) (d : dict V) :
  is_Some (dict_get k d) <-> k ∈ map fst d.
Proof.
  induction d as [|[k0 v0] d IH]; simpl.
  - split; [by intros [? ?] | by intros ?%elem_of_nil].
  - destruct (String.eqb_spec k k0) as [->|Hne].
    + split; [intros _; apply list_elem_of_here | by eexists].
    + rewrite IH. split; [apply list_elem_of_further|].
      intros [?|?]%elem_of_cons; [contradiction | assumption].
Qed.

Lemma find_app_first {A} (p : A -> bool) (l1 l2 : list A) :
  find p (l1 ++ l2)
  = match find p l1 with Some x => Some x | None => find p l2 end.
Proof.
  induction l1 as [|x l1 IH]; simpl; [reflexivity|].
  by destruct (p x).
Qed.

Section ScoreAll.
Context {F : Type} `{PyFloat F}.
Variable config : Config F.
Variable rules : dict Rule.

(** The entry stored under [k] is the score of the last identity of the
    list whose object id is [k]. *)
Lemma score_all_loop_lookup (sps : list ServicePrincipal)
    (scores scores' : dict (RiskScore F)) (c h c' h' : nat) (k : string) :
  score_all_loop config rules sps scores c h = Some (scores', c', h') ->
  dict_get k scores'
  = match find (fun sp => String.eqb (object_id sp) k) (rev sps) with
    | Some sp => score_service_principal config rules sp
    | None => dict_get k scores
    end.
Proof.
  revert scores c h. induction sps as [|sp sps IH]; intros scores c h; simpl.
  - by intros [= -> _ _].
  - intros Hloop. apply bind_Some in Hloop as (s & Hs & Hloop).
    assert (Hrest : exists c1 h1,
               score_all_loop config rules sps
                 (dict_set (object_id sp) s scores) c1 h1
               = Some (scores', c', h')).
    { repeat case_match; eauto. }
    destruct Hrest as (c1 & h1 & Hrest). rewrite (IH _ _ _ Hrest).
    rewrite find_app_first.
    destruct (find _ (rev sps)) as [sp'|]; [reflexivity|]. simpl.
    destruct (String.eqb_spec (object_id sp) k) as [<-|Hne].
    + by rewrite dict_get_set_eq.
    + by rewrite dict_get_set_ne by congruence.
Qed.

Lemma score_all_loop_counts (sps : list ServicePrincipal)
    (scores scores' : dict (RiskScore F)) (c h c' h' : nat) :
  score_all_loop config rules sps scores c h = Some (scores', c', h') ->
  c' = (c + length (filter (fun sp => scored_level config rules sp
                                       = Some "Critical") sps))%nat
  /\ h' = (h + length (filter (fun sp => scored_level config rules sp
                                          = Some "High") sps))%nat.
Proof.
  revert scores c h.
  induction sps as [|sp sps IH]; intros scores c h; cbn [score_all_loop].
  - intros [= _ -> ->]. rewrite !filter_nil. simpl. lia.
  - intros Hloop. apply bind_Some in Hloop as (s & Hs & Hloop).
    assert (Hlvl : scored_level config rules sp = Some (risk_level s)).
    { unfold scored_level. by rewrite Hs. }
    rewrite !filter_cons.
    destruct (String.eqb_spec (risk_level s) "Critical") as [Hc|Hc].
    + apply IH in Hloop as [-> ->].
      rewrite decide_True by (by rewrite Hlvl, Hc).
      rewrite decide_False by (by rewrite Hlvl, Hc). simpl. lia.
    + destruct (String.eqb_spec (risk_level s) "High") as [Hh|Hh].
      * apply IH in Hloop as [-> ->].
        rewrite decide_False by (by rewrite Hlvl, Hh).
        rewrite decide_True by (by rewrite Hlvl, Hh). simpl. lia.
      * apply IH in Hloop as [-> ->].
        rewrite decide_False by (rewrite Hlvl; congruence).
        rewrite decide_False by (rewrite Hlvl; congruence). simpl. lia.
Qed.

(** With distinct object ids the entries are the identities' scores, in
    the order of the list. *)
Lemma score_all_loop_entries (sps : list ServicePrincipal)
    (scores scores' : dict (RiskScore F)) (c h c' h' : nat) :
  NoDup (map object_id sps) ->
  (forall sp, sp ∈ sps -> object_id sp ∉ map fst scores) ->
  score_all_loop config rules sps scores c h = Some (scores', c', h') ->
  exists entries,
    scores' = scores ++ entries
    /\ Forall2 (fun sp e => fst e = object_id sp
                            /\ score_service_principal config rules sp
                               = Some (snd e))
               sps entries.
Proof.
  revert scores c h. induction sps as [|sp sps IH]; intros scores c h; simpl.
  - intros _ _ [= -> _ _]. exists []. by rewrite app_nil_r.
  - intros Hnd Hfresh Hloop. apply NoDup_cons in Hnd as [Hsp Hnd].
    apply bind_Some in Hloop as (s & Hs & Hloop).
    assert (Hrest : exists c1 h1,
               score_all_loop config rules sps
                 (dict_set (object_id sp) s scores) c1 h1
               = Some (scores', c', h')).
    { repeat case_match; eauto. }
    destruct Hrest as (c1 & h1 & Hrest).
    rewrite dict_set_fresh in Hrest by (apply Hfresh, list_elem_of_here).
    apply IH in Hrest as (entries & -> & Hall); [|exact Hnd|].
    + exists ((object_id sp, s) :: entries). rewrite <- app_assoc. simpl.
      split; [reflexivity|]. by constructor.
    + intros sp' Hsp'. rewrite map_app. simpl.
      intros [Hin|Hin]%elem_of_app.
      * revert Hin. apply Hfresh. by apply list_elem_of_further.
      * apply list_elem_of_singleton in Hin. apply Hsp. rewrite <- Hin.
        apply list_elem_of_fmap. by exists sp'.
Qed.

End ScoreAll.

Lemma find_unique_id (sps : list ServicePrincipal) (sp : ServicePrincipal) :
  NoDup (map object_id sps) -> sp ∈ sps ->
  find (fun sp' => String.eqb (object_id sp') (object_id sp)) sps = Some sp.
Proof.
  induction sps as [|sp0 sps IH]; simpl; intros Hnd Hin.
  - by apply elem_of_nil in Hin.
  - apply NoDup_cons in Hnd as [Hsp0 Hnd].
    apply elem_of_cons in Hin as [->|Hin].
    + by rewrite String.eqb_refl.
    + destruct (String.eqb_spec (object_id sp0) (object_id sp)) as [Heq|Hne];
        [|by apply IH].
      exfalso. apply Hsp0. rewrite Heq. apply list_elem_of_fmap. by exists sp.
Qed.

Lemma filter_exclusive_length {A} (P Q : A -> Prop)
    `{forall x, Decision (P x)} `{forall x, Decision (Q x)} (l : list A) :
  (forall x, P x -> Q x -> False) ->
  (length (filter P l) + length (filter Q l) <= length l)%nat.
Proof.
  intros Hex. induction l as [|x l IH]; [simpl; lia|].
  rewrite !filter_cons. destruct (decide (P x)) as [Hp|Hp];
    destruct (decide (Q x)) as [Hq|Hq]; simpl; try lia.
  destruct (Hex x Hp Hq).
Qed.

Lemma score_service_principal_exact_is_Some
    (config : Config Q) (rules : dict Rule) (sp : ServicePrincipal) :
  is_Some (score_service_principal config rules sp).
Proof.
  unfold score_service_principal. case_bool_decide; [by eexists|].
  destruct (_score_permissions_exact_is_Some config rules sp) as [pf ->].
  simpl.
  match goal with |- is_Some (mbind _ (_calculate_total ?fs)) =>
    destruct (_calculate_total_exact_is_Some fs) as [total ->] end.
  simpl. by eexists.
Qed.

Lemma score_all_loop_exact_is_Some
    (config : Config Q) (rules : dict Rule) (sps : list ServicePrincipal)
    (scores : dict (RiskScore Q)) (c h : nat) :
  is_Some (score_all_loop config rules sps scores c h).
Proof.
  revert scores c h. induction sps as [|sp sps IH]; intros scores c h;
    cbn [score_all_loop]; [by eexists|].
  destruct (score_service_principal_exact_is_Some config rules sp) as [s ->].
  simpl. repeat case_match; apply IH.
Qed.

Lemma score_all_inv {F} `{PyFloat F} (config : Config F) (rules : dict Rule)
    (result : AnalysisResult) (scored : ScoredAnalysis F) :
  score_all config rules result = Some scored ->
  analysis scored = result
  /\ score_all_loop config rules (service_principals result) [] 0%nat 0%nat
     = Some (risk_scores scored, critical_count scored,
             high_risk_count scored).
Proof.
  unfold score_all. intros Hall.
  apply bind_Some in Hall as ([[scores c] h] & Hloop & [= <-]). by split.
Qed.

(** X5. [score_all] stores under each object id the score of the last
    identity of the result that carries this id, and nothing under any
    other key; so with distinct object ids every identity finds its own
    score.  The result itself is otherwise unchanged.  In exact arithmetic
    [score_all] always returns. *)
Theorem score_all_stores_each_score :
  (forall F (PF : PyFloat F) (config : Config F) (rules : dict Rule)
          (result : AnalysisResult) (scored : ScoredAnalysis F),
     score_all config rules result = Some scored ->
     analysis scored = result
     /\ (forall k,
           dict_get k (risk_scores scored)
           = sp ← find (fun sp => String.eqb (object_id sp) k)
                       (rev (service_principals result));
             score_service_principal config rules sp)
     /\ (NoDup (map object_id (service_principals result)) ->
         forall sp,
           sp ∈ service_principals result ->
           dict_get (object_id sp) (risk_scores scored)
           = score_service_principal config rules sp))
  /\ (forall (config : Config Q) (rules : dict Rule) (result : AnalysisResult),
        is_Some (score_all config rules result)).
Proof.
  split.
  - intros F PF config rules result scored Hall.
    apply score_all_inv in Hall as [Hresult Hloop].
    split; [exact Hresult|].
    assert (Hlookup : forall k,
               dict_get k (risk_scores scored)
               = sp ← find (fun sp => String.eqb (object_id sp) k)
                           (rev (service_principals result));
                 score_service_principal config rules sp).
    { intros k. rewrite (score_all_loop_lookup _ _ _ _ _ _ _ _ _ k Hloop).
      by destruct (find _ _). }
    split; [exact Hlookup|].
    intros Hnd sp Hsp. rewrite Hlookup.
    rewrite (find_unique_id (rev (service_principals result)) sp);
      [reflexivity | | by rewrite <- Permutation_rev].
    by rewrite <- Permutation_rev.
  - intros config rules result. unfold score_all.
    destruct (score_all_loop_exact_is_Some config rules
                (service_principals result) [] 0%nat 0%nat)
      as [[[scores c] h] ->].
    simpl. by eexists.
Qed.

(** X6. The counters [score_all] writes are the numbers of identities of
    the result that score Critical and High; together they never exceed
    the number of identities; and with distinct object ids they are the
    numbers of Critical and of High entries of [risk_scores]. *)
Theorem score_all_counts_levels
    {F} `{PyFloat F} (config : Config F) (rules : dict Rule)
    (result : AnalysisResult) (scored : ScoredAnalysis F) :
  score_all config rules result = Some scored ->
  critical_count scored
  = length (filter (fun sp => scored_level config rules sp = Some "Critical")
                   (service_principals result))
  /\ high_risk_count scored
     = length (filter (fun sp => scored_level config rules sp = Some "High")
                      (service_principals result))
  /\ (critical_count scored + high_risk_count scored
      <= length (service_principals result))%nat
  /\ (NoDup (map object_id (service_principals result)) ->
      critical_count scored
      = length (filter (fun e => risk_level (snd e) = "Critical")
                       (risk_scores scored))
      /\ high_risk_count scored
         = length (filter (fun e => risk_level (snd e) = "High")
                          (risk_scores scored))).
Proof.
  intros Hall. apply score_all_inv in Hall as [_ Hloop].
  destruct (score_all_loop_counts _ _ _ _ _ _ _ _ _ Hloop) as [Hc Hh].
  simpl in Hc, Hh. split; [exact Hc|]. split; [exact Hh|]. split.
  - rewrite Hc, Hh. apply filter_exclusive_length. congruence.
  - intros Hnd.
    destruct (score_all_loop_entries config rules _ [] _ 0%nat 0%nat _ _ Hnd
                ltac:(intros ? _; apply not_elem_of_nil) Hloop)
      as (entries & Hentries & Hall).
    simpl in Hentries. rewrite Hentries, Hc, Hh. clear Hentries Hc Hh Hloop Hnd.
    unfold dict.
    induction Hall as [|sp e sps entries [_ Hs] _ IH]; [by split|].
    rewrite !filter_cons.
    assert (Hlvl : scored_level config rules sp = Some (risk_level (snd e))).
    { unfold scored_level. by rewrite Hs. }
    destruct IH as [IHc IHh]. split.
    + destruct (decide (risk_level (snd e) = "Critical")) as [Hl|Hl].
      * rewrite decide_True by (by rewrite Hlvl, Hl). simpl. by rewrite IHc.
      * rewrite decide_False by (rewrite Hlvl; congruence). exact IHc.
    + destruct (decide (risk_level (snd e) = "High")) as [Hl|Hl].
      * rewrite decide_True by (by rewrite Hlvl, Hl). simpl. by rewrite IHh.
      * rewrite decide_False by (rewrite Hlvl; congruence). exact IHh.
Qed.

(** Under the default configuration with "app-denied" on the deny list and
    the catalog of [mail_document], scored with doubles: two identities
    score Critical and one High. *)
Lemma score_all_counts_levels_witness :
  exists scored : ScoredAnalysis float,
    score_all denied_config mail_catalog sample_result = Some scored
    /\ critical_count scored = 2%nat
    /\ high_risk_count scored = 1%nat
    /\ critical_count scored
       = length (filter (fun e => risk_level (snd e) = "Critical")
                        (risk_scores scored)).
Proof.
  destruct (score_all (F:=float) denied_config mail_catalog sample_result)
    as [scored|] eqn:Hall; [|vm_compute in Hall; discriminate].
  exists scored. split; [reflexivity|].
  split; [vm_compute in Hall; by injection Hall as <-|].
  split; [vm_compute in Hall; by injection Hall as <-|].
  destruct (score_all_counts_levels denied_config mail_catalog sample_result
              scored Hall) as (_ & _ & _ & Hentries).
  apply Hentries. apply (bool_decide_unpack _). vm_compute. exact I.
Defined.

Lemma score_all_loop_scored {F} `{PyFloat F} (config : Config F)
    (rules : dict Rule) (sps : list ServicePrincipal)
    (scores scores' : dict (RiskScore F)) (c h c' h' : nat) :
  score_all_loop config rules sps scores c h = Some (scores', c', h') ->
  forall sp, sp ∈ sps -> is_Some (score_service_principal config rules sp).
Proof.
  revert scores c h.
  induction sps as [|sp0 sps IH]; intros scores c h; cbn [score_all_loop].
  - intros _ sp Hsp. by apply elem_of_nil in Hsp.
  - intros Hloop sp Hsp. apply bind_Some in Hloop as (s & Hs & Hloop).
    apply elem_of_cons in Hsp as [->|Hsp]; [by eexists|].
    repeat case_match; eapply IH; eauto.
Qed.

Lemma omap_length_all {A B} (f : A -> option B) (l : list A) :
  (forall x, x ∈ l -> is_Some (f x)) -> length (omap f l) = length l.
Proof.
  induction l as [|x l IH]; intros Hall; [reflexivity|].
  destruct (Hall x (list_elem_of_here _ _)) as [y Hy].
  change (omap f (x :: l))
    with (match f x with Some y => y :: omap f l | None => omap f l end).
  rewrite Hy. simpl. f_equal. apply IH. intros x' Hx'. apply Hall.
  by apply list_elem_of_further.
Qed.

(** X7. After [score_all] on a result with distinct object ids,
    [top_risky_apps] lists min(10, n) of the n identities, each with the
    score [score_service_principal] gives it, and every identity left out
    scores no higher than every listed one. *)
Theorem top_risky_apps_after_score_all
    {F} `{PyFloat F} (config : Config F) (rules : dict Rule)
    (result : AnalysisResult) (scored : ScoredAnalysis F) :
  score_all config rules result = Some scored ->
  NoDup (map object_id (service_principals result)) ->
  length (top_risky_apps scored)
  = Nat.min 10 (length (service_principals result))
  /\ (forall sp score,
        (sp, score) ∈ top_risky_apps scored ->
        sp ∈ service_principals result
        /\ score_service_principal config rules sp = Some score)
  /\ (forall sp,
        sp ∈ service_principals result ->
        exists score,
          score_service_principal config rules sp = Some score
          /\ ((sp, score) ∈ top_risky_apps scored
              \/ forall x, x ∈ top_risky_apps scored ->
                           total_score score <= total_score (snd x))).
Proof.
  intros Hall Hnd. apply score_all_inv in Hall as [Hresult Hloop].
  assert (Hlookup : forall sp,
             sp ∈ service_principals result ->
             dict_get (object_id sp) (risk_scores scored)
             = score_service_principal config rules sp).
  { intros sp Hsp.
    rewrite (score_all_loop_lookup _ _ _ _ _ _ _ _ _ (object_id sp) Hloop).
    rewrite (find_unique_id (rev (service_principals result)) sp);
      [reflexivity | | by rewrite <- Permutation_rev].
    by rewrite <- Permutation_rev. }
  pose proof (score_all_loop_scored _ _ _ _ _ _ _ _ _ Hloop) as Hscored.
  destruct (top_risky_apps_ranking scored) as (_ & _ & Hlisted & Hleft).
  rewrite Hresult in Hlisted, Hleft.
  split; [|split].
  - unfold top_risky_apps. rewrite length_take, sorted_by_desc_perm.
    rewrite Hresult. rewrite omap_length_all; [reflexivity|].
    intros sp Hsp. rewrite (Hlookup sp Hsp).
    destruct (Hscored sp Hsp) as [s ->]. by eexists.
  - intros sp score Hin. destruct (Hlisted sp score Hin) as [Hsp Hs].
    split; [exact Hsp|]. by rewrite <- Hlookup.
  - intros sp Hsp. destruct (Hscored sp Hsp) as [score Hscore].
    exists score. split; [exact Hscore|].
    destruct (Hleft sp score Hsp) as [Hin|[_ Hle]];
      [by rewrite Hlookup | by left | by right].
Qed.

Lemma top_risky_apps_after_score_all_witness :
  exists scored : ScoredAnalysis float,
    score_all denied_config mail_catalog sample_result = Some scored
    /\ length (top_risky_apps scored) = 4%nat
    /\ map (fun x => (app_id (fst x), total_score (snd x)))
           (top_risky_apps scored)
       = [("app-risky", 100); ("app-denied", 100);
          ("00000003-0000-0000-c000-000000000000", 66); ("app-owned", 0)].
Proof.
  destruct (score_all (F:=float) denied_config mail_catalog sample_result)
    as [scored|] eqn:Hall; [|vm_compute in Hall; discriminate].
  exists scored. split; [reflexivity|].
  split.
  - apply (top_risky_apps_after_score_all denied_config mail_catalog
             sample_result scored Hall).
    apply (bool_decide_unpack _). vm_compute. exact I.
  - vm_compute in Hall. by injection Hall as <-.
Defined.

(** ** The total in exact arithmetic, continued *)

Lemma total_of_clamp (s : Q) :
  total_of s = Z.max 0 (Z.min 100 (Exact.trunc s)).
Proof.
  destruct (Qlt_le_dec 100 s) as [Hhi|Hlo]; [|by apply total_of_upto].
  rewrite (total_of_above s Hhi).
  assert (100 <= Exact.trunc s); [|lia].
  rewrite exact_trunc_nonneg by lra.
  rewrite <- (Qfloor_Z 100). apply Qfloor_resp_le.
  change (inject_Z 100) with 100%Q. lra.
Qed.

Lemma wsum_perm (fs gs : list (RiskFactor Q)) :
  fs ≡ₚ gs -> (wsum fs == wsum gs)%Q.
Proof.
  induction 1 as [|f fs gs _ IH|f g fs|fs gs hs _ IH1 _ IH2].
  - reflexivity.
  - change (contribution f + wsum fs == contribution f + wsum gs)%Q.
    by rewrite IH.
  - change (contribution g + (contribution f + wsum fs)
            == contribution f + (contribution g + wsum fs))%Q. ring.
  - by rewrite IH1.
Qed.

(** In exact arithmetic [_calculate_total] is the weighted sum of the
    factors, truncated toward zero and clamped to [0,100]; the total does
    not depend on the order of the factors, and one more factor of
    non-negative contribution never lowers it. *)
Lemma calculate_total_exact_clamped :
  (forall fs : list (RiskFactor Q),
     _calculate_total fs = Some (Z.max 0 (Z.min 100 (Exact.trunc (wsum fs)))))
  /\ (forall fs gs : list (RiskFactor Q),
        fs ≡ₚ gs -> _calculate_total fs = _calculate_total gs)
  /\ (forall (fs : list (RiskFactor Q)) (f : RiskFactor Q),
        (0 <= inject_Z (score f) * weight f)%Q ->
        exists a b,
          _calculate_total fs = Some a
          /\ _calculate_total (fs ++ [f]) = Some b
          /\ a <= b).
Proof.
  split; [|split].
  - intros fs. rewrite _calculate_total_exact. f_equal. apply total_of_clamp.
  - intros fs gs Hperm. rewrite !_calculate_total_exact. f_equal.
    apply total_of_comp. by apply wsum_perm.
  - intros fs f Hf. exists (total_of (wsum fs)), (total_of (wsum (fs ++ [f]))).
    split; [apply _calculate_total_exact|].
    split; [apply _calculate_total_exact|].
    apply total_of_mono. rewrite wsum_app.
    change (wsum [f]) with (inject_Z (score f) * weight f + 0)%Q. lra.
Qed.

(** ** Membership in the permission sets *)

Lemma elem_of_all_delegated_scopes (sp : ServicePrincipal) (s : string) :
  s ∈ all_delegated_scopes sp
  <-> exists grant, grant ∈ oauth2_permission_grants sp /\ s ∈ scopes grant.
Proof.
  unfold all_delegated_scopes.
  assert (Hgen : forall (grants : list OAuth2PermissionGrant) (acc : gset string),
             s ∈ foldl (fun acc grant => acc ∪ list_to_set (scopes grant))
                       acc grants
             <-> s ∈ acc \/ exists grant, grant ∈ grants /\ s ∈ scopes grant).
  { induction grants as [|g grants IH]; intros acc; simpl.
    - split; [by left|]. intros [?|(g & Hg & _)]; [assumption|].
      by apply elem_of_nil in Hg.
    - rewrite IH, elem_of_union, elem_of_list_to_set. split.
      + intros [[?|?]|(g' & Hg' & Hs)]; [by left| |].
        * right. exists g. split; [apply list_elem_of_here | assumption].
        * right. exists g'. split; [by apply list_elem_of_further | assumption].
      + intros [?|(g' & Hg' & Hs)]; [by left; left|].
        apply elem_of_cons in Hg' as [->|Hg']; [by left; right|].
        right. by exists g'. }
  rewrite Hgen. split; [|by right]. intros [Hempty|?]; [|assumption].
  by apply elem_of_empty in Hempty.
Qed.

Lemma elem_of_all_app_role_values (sp : ServicePrincipal) (v : string) :
  v ∈ all_app_role_values sp
  <-> v <> EmptyString
      /\ exists a, a ∈ app_role_assignments sp /\ role_value a = Some v.
Proof.
  unfold all_app_role_values. rewrite elem_of_list_to_set, list_elem_of_omap.
  split.
  - intros (a & Ha & Hv). destruct (role_value a) as [v'|] eqn:Hrole;
      [|discriminate].
    destruct v' as [|c v']; [discriminate|]. injection Hv as <-.
    split; [discriminate|]. by exists a.
  - intros (Hne & a & Ha & Hrole). exists a. split; [exact Ha|].
    rewrite Hrole. by destruct v.
Qed.

Lemma max_impact_over_ge (rules : dict Rule) (perms : list string) (m x : Z) :
  x <= max_impact_over rules m perms
  <-> x <= m
      \/ exists p, p ∈ perms /\ x <= impact_score (translate1 rules p).
Proof.
  unfold max_impact_over. revert m.
  induction perms as [|p perms IH]; intros m; simpl.
  - split; [by left|]. intros [?|(p & Hp & _)]; [assumption|].
    by apply elem_of_nil in Hp.
  - rewrite IH. split.
    + intros [Hmax|(p' & Hp' & Hle)].
      * destruct (Z.le_gt_cases x m) as [|Hm]; [by left|]. right. exists p.
        split; [apply list_elem_of_here | lia].
      * right. exists p'. split; [by apply list_elem_of_further | exact Hle].
    + intros [Hm|(p' & Hp' & Hle)]; [left; lia|].
      apply elem_of_cons in Hp' as [->|Hp']; [left; lia|].
      right. by exists p'.
Qed.

(** ** The ownership factor *)

(** X9. [_score_ownership] emits nothing for an identity with an owner and
    otherwise the single factor "No Owners", weighted by
    [no_owner_weight]; its score is 15 exactly when some delegated scope,
    or some application role other than the "Default Access" sentinel,
    translates to an impact of at least 70, and 10 in every other case. *)
Theorem _score_ownership_spec {F} `{PyFloat F}
    (config : Config F) (rules : dict Rule) (sp : ServicePrincipal) :
  (owners sp <> [] -> _score_ownership config rules sp = [])
  /\ (owners sp = [] ->
      exists f,
        _score_ownership config rules sp = [f]
        /\ name f = "No Owners"
        /\ weight f = no_owner_weight (scoring config)
        /\ (score f = 15 \/ score f = 10)
        /\ (score f = 15
            <-> exists p,
                  (p ∈ all_delegated_scopes sp
                   \/ (p ∈ all_app_role_values sp /\ p <> "Default Access"))
                  /\ 70 <= impact_score (translate1 rules p))).
Proof.
  unfold _score_ownership, has_owners. split.
  - intros Hown. destruct (owners sp); [contradiction | reflexivity].
  - intros ->. simpl. rewrite max_impact_over_chain.
    eexists. split; [reflexivity|]. simpl.
    split; [reflexivity|]. split; [reflexivity|].
    split; [case_match; [by left | by right]|].
    set (perms := elements (all_delegated_scopes sp) ++ _).
    assert (Hperms : 70 <= max_impact_over rules 0 perms
                     <-> exists p,
                           (p ∈ all_delegated_scopes sp
                            \/ (p ∈ all_app_role_values sp
                                /\ p <> "Default Access"))
                           /\ 70 <= impact_score (translate1 rules p)).
    { rewrite max_impact_over_ge. unfold perms. split.
      - intros [?|(p & Hp & Hle)]; [lia|]. exists p. split; [|exact Hle].
        apply elem_of_app in Hp as [Hp|Hp].
        + left. by apply elem_of_elements in Hp.
        + right. apply list_elem_of_filter in Hp as [Hscored Hp].
          apply elem_of_elements in Hp. split; [exact Hp|].
          intros ->. discriminate.
      - intros (p & Hp & Hle). right. exists p. split; [|exact Hle].
        apply elem_of_app. destruct Hp as [Hp|[Hp Hne]].
        + left. by apply elem_of_elements.
        + right. apply list_elem_of_filter. split; [|by apply elem_of_elements].
          unfold scored_role.
          apply elem_of_all_app_role_values in Hp as [Hempty _].
          assert (Hn : nonempty p = true)
            by (destruct p; [contradiction | reflexivity]).
          rewrite Hn. cbn [andb].
          destruct (String.eqb_spec p "Default Access");
            [contradiction | reflexivity]. }
    rewrite <- Hperms.
    destruct (Z.leb_spec 70 (max_impact_over rules 0 perms)); split;
      intros; try reflexivity; try lia; try discriminate.
Qed.

(** ** The activity factor *)

(** X10. With sign-in data available, [_score_activity] emits at most one
    factor, weighted by [unused_high_privilege_weight].  An identity last
    active within the threshold gets none.  One that never signed in gets
    "Never Used" (score 15) exactly when it holds any delegated scope or
    any application role value, the "Default Access" sentinel included.
    One inactive beyond the threshold gets "Inactive High-Privilege"
    (score 25) exactly when one of its delegated scopes translates to an
    impact of at least 70. *)
Theorem _score_activity_spec {F} `{PyFloat F}
    (config : Config F) (rules : dict Rule) (sp : ServicePrincipal)
    (activity : SignInActivity) :
  sign_in_activity sp = Some activity ->
  data_available activity = true ->
  (length (_score_activity config rules sp) <= 1)%nat
  /\ Forall (fun f => weight f = unused_high_privilege_weight (scoring config))
            (_score_activity config rules sp)
  /\ (forall days,
        days_since_last_activity activity = Some days ->
        days <= inactive_days_threshold (thresholds config) ->
        _score_activity config rules sp = [])
  /\ (days_since_last_activity activity = None ->
      map (fun f => (name f, score f)) (_score_activity config rules sp)
      = if bool_decide (all_delegated_scopes sp ∪ all_app_role_values sp ≠ ∅)
        then [("Never Used", 15)] else [])
  /\ (forall days,
        days_since_last_activity activity = Some days ->
        inactive_days_threshold (thresholds config) < days ->
        ((exists p, p ∈ all_delegated_scopes sp
                    /\ 70 <= impact_score (translate1 rules p)) ->
         map (fun f => (name f, score f)) (_score_activity config rules sp)
         = [("Inactive High-Privilege", 25)])
        /\ (~ (exists p, p ∈ all_delegated_scopes sp
                         /\ 70 <= impact_score (translate1 rules p)) ->
            _score_activity config rules sp = [])).
Proof.
  intros Hactivity Havailable. unfold _score_activity.
  rewrite Hactivity, Havailable. simpl.
  split; [repeat case_match; simpl; lia|].
  split; [repeat case_match; repeat constructor|].
  split.
  { intros days Hdays Hle. rewrite Hdays.
    by rewrite (proj2 (Z.ltb_ge _ _) Hle). }
  split.
  { intros ->.
    destruct (decide (all_delegated_scopes sp ∪ all_app_role_values sp ≠ ∅))
      as [Hany|Hnone].
    - rewrite (bool_decide_eq_true_2 _ Hany).
      assert (Hor : bool_decide (all_delegated_scopes sp ≠ ∅)
                    || bool_decide (all_app_role_values sp ≠ ∅) = true).
      { apply orb_true_iff.
        destruct (decide (all_delegated_scopes sp = ∅)) as [Hd|Hd].
        - right. apply bool_decide_eq_true_2. intros Hr. apply Hany.
          rewrite Hd, Hr. set_solver.
        - left. by apply bool_decide_eq_true_2. }
      by rewrite Hor.
    - rewrite (bool_decide_eq_false_2 _ Hnone).
      assert (Hor : bool_decide (all_delegated_scopes sp ≠ ∅)
                    || bool_decide (all_app_role_values sp ≠ ∅) = false).
      { apply orb_false_iff. split; apply bool_decide_eq_false_2;
          intros Hne; apply Hnone; set_solver. }
      by rewrite Hor. }
  assert (Himpact : 70 <= max_impact_over rules 0
                            (elements (all_delegated_scopes sp))
                    <-> exists p, p ∈ all_delegated_scopes sp
                                  /\ 70 <= impact_score (translate1 rules p)).
  { rewrite max_impact_over_ge. split.
    - intros [?|(p & Hp & Hle)]; [lia|]. exists p.
      split; [by apply elem_of_elements in Hp | exact Hle].
    - intros (p & Hp & Hle). right. exists p.
      split; [by apply elem_of_elements | exact Hle]. }
  intros days Hdays Hgt. rewrite Hdays.
  rewrite (proj2 (Z.ltb_lt _ _) Hgt). split.
  - intros Hex. apply Himpact in Hex.
    by rewrite (proj2 (Z.leb_le _ _) Hex).
  - intros Hnone.
    destruct (Z.leb_spec 70 (max_impact_over rules 0
                               (elements (all_delegated_scopes sp))))
      as [Hle|]; [|reflexivity].
    destruct Hnone. by apply Himpact.
Qed.

(** For [default_access_principal]: "Never Used" is emitted, although
    [_score_permissions] scores nothing for the sentinel role. *)
Lemma _score_activity_spec_witness :
  map (fun f => (name f, score f))
      (_score_activity (default_config (F:=float)) [] default_access_principal)
  = [("Never Used", 15)]
  /\ _score_permissions (default_config (F:=float)) []
       default_access_principal = Some [].
Proof.
  split; [|reflexivity].
  destruct (_score_activity_spec (default_config (F:=float)) []
              default_access_principal
              {| days_since_last_activity := None; data_available := true |}
              eq_refl eq_refl) as (_ & _ & _ & Hnever & _).
  rewrite (Hnever eq_refl). reflexivity.
Defined.

(** ** The credential factors *)

Lemma filter_none {A} (P : A -> Prop) `{forall y, Decision (P y)}
    (l : list A) :
  Forall (fun y => ~ P y) l -> filter P l = [].
Proof.
  induction 1 as [|y ys Hy _ IH]; [reflexivity|].
  by rewrite filter_cons_False.
Qed.

Lemma filter_flat_map_none {A B} (P : B -> Prop) `{forall y, Decision (P y)}
    (f : A -> list B) (l : list A) :
  (forall x, Forall (fun y => ~ P y) (f x)) -> filter P (flat_map f l) = [].
Proof.
  intros Hnone. induction l as [|x l IH]; [reflexivity|].
  simpl. by rewrite filter_app, IH, filter_none.
Qed.

Lemma length_filter_flat_map {A B} (P : B -> Prop) `{forall y, Decision (P y)}
    (f : A -> list B) (q : A -> bool) (l : list A) :
  (forall x, q x = true -> exists y, f x = [y] /\ P y) ->
  (forall x, q x = false -> Forall (fun y => ~ P y) (f x)) ->
  length (filter P (flat_map f l)) = length (filter (fun x => q x = true) l).
Proof.
  intros Hyes Hno. induction l as [|x l IH]; [reflexivity|].
  simpl. rewrite filter_app, length_app, IH, filter_cons.
  destruct (q x) eqn:Hq.
  - destruct (Hyes x Hq) as (y & -> & Hy).
    rewrite filter_cons_True by exact Hy. rewrite filter_nil.
    rewrite decide_True by reflexivity. reflexivity.
  - rewrite decide_False by discriminate.
    by rewrite (filter_none P (f x) (Hno x Hq)).
Qed.

(** X11. For an identity with a linked application, [_score_credentials]
    emits one factor of score 10 and weight 1.2 for each credential that
    ends 0 to min(90, credential_expiry_critical) days ahead, and one
    factor "Old Credential" of score 5 and weight 1.0 for each credential
    whose age is not 0 and above [credential_age_concern]; nothing else.
    A credential already expired, or ending more than 90 days ahead, never
    counts as expiring, whatever the configured threshold. *)
Theorem _score_credentials_counts {F} `{PyFloat F}
    (config : Config F) (sp : ServicePrincipal) (app : Application) :
  linked_application sp = Some app ->
  Forall (fun f => (score f = 10 /\ weight f = fconst (12 # 10))
                   \/ (score f = 5 /\ weight f = fconst 1
                       /\ name f = "Old Credential"))
         (_score_credentials config sp)
  /\ length (filter (fun f => score f = 10) (_score_credentials config sp))
     = length (filter
                 (fun cred =>
                    expires_within
                      (Z.min 90 (credential_expiry_critical (thresholds config)))
                      cred = true)
                 (all_credentials app))
  /\ length (filter (fun f => score f = 5) (_score_credentials config sp))
     = length (filter
                 (fun cred =>
                    older_than (credential_age_concern (thresholds config))
                               cred = true)
                 (all_credentials app)).
Proof.
  intros Hlinked. unfold _score_credentials. rewrite Hlinked.
  set (expiring := fun '(cred, days) => _).
  set (old := fun cred : Credential => _).
  set (listed := fun cred : Credential =>
                   match cred_days_until_expiry cred with
                   | Some days =>
                       if (0 <=? days) && (days <=? 90) then Some (cred, days)
                       else None
                   | None => None
                   end).
  assert (Hperm : flat_map expiring (expiring_credentials app)
                  ≡ₚ flat_map (fun cred => match listed cred with
                                           | Some x => expiring x
                                           | None => []
                                           end) (all_credentials app)).
  { unfold expiring_credentials. rewrite sorted_by_perm. fold listed.
    induction (all_credentials app) as [|cred creds IH]; [reflexivity|].
    simpl. destruct (listed cred); simpl; [|exact IH]. by rewrite IH. }
  split; [|split].
  - apply Forall_app. split.
    + rewrite Hperm. apply Forall_flat_map, Forall_forall. intros cred _.
      destruct (listed cred) as [[c d]|]; [|constructor]. simpl.
      case_match; [|constructor]. apply Forall_singleton. left. by split.
    + apply Forall_flat_map, Forall_forall. intros cred _. unfold old.
      repeat case_match;
        first [apply Forall_nil_2
              | apply Forall_singleton; right; by repeat split].
  - rewrite filter_app, length_app, Hperm.
    rewrite (length_filter_flat_map _ _
               (expires_within
                  (Z.min 90 (credential_expiry_critical (thresholds config))))).
    + assert (Hold : filter (fun f => score f = 10)
                       (flat_map old (all_credentials app)) = []).
      { apply filter_flat_map_none. intros cred. unfold old.
        repeat case_match;
          first [apply Forall_nil_2 | apply Forall_singleton; discriminate]. }
      rewrite Hold. simpl. lia.
    + intros cred Hcred. unfold expires_within, listed in *.
      destruct (cred_days_until_expiry cred) as [d|]; [|discriminate].
      apply andb_true_iff in Hcred as [Hlo Hhi]. rewrite Hlo.
      apply Z.leb_le in Hhi.
      rewrite (proj2 (Z.leb_le d 90)) by lia. simpl. unfold expiring.
      rewrite (proj2 (Z.leb_le _ _)) by lia. eexists. by split.
    + intros cred Hcred. unfold expires_within, listed in *.
      destruct (cred_days_until_expiry cred) as [d|]; [|constructor].
      destruct (Z.leb_spec 0 d); simpl in *; [|constructor].
      destruct (Z.leb_spec d 90); simpl; [|constructor].
      apply Z.leb_gt in Hcred. unfold expiring.
      rewrite (proj2 (Z.leb_gt _ _)) by lia. constructor.
  - rewrite filter_app, length_app, Hperm.
    assert (Hexp : filter (fun f => score f = 5)
                     (flat_map (fun cred => match listed cred with
                                            | Some x => expiring x
                                            | None => []
                                            end) (all_credentials app)) = []).
    { apply filter_flat_map_none. intros cred.
      destruct (listed cred) as [[c d]|]; [|constructor]. simpl.
      case_match; [|constructor]. apply Forall_singleton. discriminate. }
    rewrite Hexp. simpl.
    apply length_filter_flat_map.
    + intros cred Hcred. unfold older_than, old in *.
      destruct (cred_age_days cred) as [age|]; [|discriminate].
      rewrite Hcred. eexists. by split.
    + intros cred Hcred. unfold older_than, old in *.
      destruct (cred_age_days cred) as [age|]; [|constructor].
      rewrite Hcred. constructor.
Qed.

(** The identity [linked_principal] under the default thresholds: one
    credential ends within 7 days, two are older than 365 days. *)
Lemma _score_credentials_counts_witness :
  length (filter (fun f => score f = 10)
            (_score_credentials (default_config (F:=float)) linked_principal))
  = 1%nat
  /\ length (filter (fun f => score f = 5)
               (_score_credentials (default_config (F:=float))
                  linked_principal))
     = 2%nat.
Proof.
  destruct (_score_credentials_counts (default_config (F:=float))
              linked_principal rotating_app eq_refl) as (_ & Hexpiring & Hold).
  rewrite Hexpiring, Hold. split; reflexivity.
Defined.

(** ** Loading the catalog *)

Lemma elem_of_flat_map {A B} (f : A -> list B) (l : list A) (y : B) :
  y ∈ flat_map f l <-> exists x, x ∈ l /\ y ∈ f x.
Proof.
  rewrite list_elem_of_In, in_flat_map. split.
  - intros (x & Hx & Hy). exists x. by rewrite !list_elem_of_In.
  - intros (x & Hx & Hy). exists x. by rewrite <- !list_elem_of_In.
Qed.

Lemma dict_get_app {V} (k : string) (d d' : dict V) :
  dict_get k (d ++ d')
  = match dict_get k d with Some v => Some v | None => dict_get k d' end.
Proof.
  induction d as [|[k0 v0] d IH]; simpl; [reflexivity|].
  by destruct (String.eqb k k0).
Qed.

(** After a run of assignments the value under [k] is the one assigned
    last, or the old one. *)
Lemma dict_get_foldl_set {V} (kvs : list (string * V)) (d : dict V)
    (k : string) :
  dict_get k (foldl (fun d '(k, v) => dict_set k v d) d kvs)
  = match dict_get k (rev kvs) with
    | Some v => Some v
    | None => dict_get k d
    end.
Proof.
  revert d. induction kvs as [|[k0 v0] kvs IH]; intros d; simpl;
    [reflexivity|].
  rewrite IH, dict_get_app. destruct (dict_get k (rev kvs)); [reflexivity|].
  simpl. destruct (String.eqb_spec k k0) as [->|Hne].
  - apply dict_get_set_eq.
  - by apply dict_get_set_ne.
Qed.

Lemma _load_rules_entries
    (data : list (string * option (list (string * PermData))))
    (rules : dict Rule) :
  _load_rules data rules
  = foldl (fun d '(k, v) => dict_set k v d) rules (entries data).
Proof.
  unfold _load_rules, entries. revert rules.
  induction data as [|[resource permissions] data IH]; intros rules; simpl;
    [reflexivity|].
  rewrite foldl_app, IH. f_equal.
  destruct permissions as [permissions|]; [|reflexivity].
  revert rules. induction permissions as [|[n pd] permissions IHp];
    intros rules; simpl; [reflexivity|]. apply IHp.
Qed.

(** X12. After [_load_rules] the rule found under a key is the one built
    from the last entry of the document, in reading order, whose name
    folds to this key; a key no entry folds to keeps the rule it had.  So
    names that differ only in case share one rule, and a permission is
    known after loading into an empty catalog exactly when some entry's
    name equals it up to case. *)
Theorem _load_rules_last_entry_wins :
  (forall data (rules : dict Rule) (key : string),
     dict_get key (_load_rules data rules)
     = match dict_get key (rev (entries data)) with
       | Some rule => Some rule
       | None => dict_get key rules
       end)
  /\ (forall data (p resource : string),
        is_known (translate (_load_rules data []) p resource) = true
        <-> exists group permissions perm_name perm_data,
              (group, Some permissions) ∈ data
              /\ (perm_name, perm_data) ∈ permissions
              /\ lower perm_name = lower p).
Proof.
  assert (Hget : forall data (rules : dict Rule) (key : string),
             dict_get key (_load_rules data rules)
             = match dict_get key (rev (entries data)) with
               | Some rule => Some rule
               | None => dict_get key rules
               end).
  { intros data rules key. rewrite _load_rules_entries.
    apply dict_get_foldl_set. }
  split; [exact Hget|].
  intros data p resource.
  assert (Hknown : is_known (translate (_load_rules data []) p resource) = true
                   <-> lower p ∈ map fst (entries data)).
  { unfold translate. rewrite Hget. simpl.
    rewrite <- (dict_get_is_Some (lower p) (entries data)).
    assert (Hrev : is_Some (dict_get (lower p) (rev (entries data)))
                   <-> is_Some (dict_get (lower p) (entries data))).
    { rewrite !dict_get_is_Some, map_rev. by rewrite <- Permutation_rev. }
    rewrite <- Hrev.
    destruct (dict_get (lower p) (rev (entries data))); simpl.
    - split; [by eexists | reflexivity].
    - split; [discriminate | by intros [? ?]]. }
  rewrite Hknown. unfold entries. rewrite list_elem_of_fmap. split.
  - intros ([k rule] & Hk & Hin). simpl in Hk. subst k.
    apply elem_of_flat_map in Hin as ([group permissions] & Hgroup & Hin).
    destruct permissions as [permissions|]; [|by apply elem_of_nil in Hin].
    apply list_elem_of_fmap in Hin as ([n pd] & Heq & Hin).
    injection Heq as Hn _. exists group, permissions, n, pd. by repeat split.
  - intros (group & permissions & n & pd & Hgroup & Hin & Hn).
    exists (lower n, make_rule group pd). split; [by simpl|].
    apply elem_of_flat_map. exists (group, Some permissions).
    split; [exact Hgroup|]. apply list_elem_of_fmap. by exists (n, pd).
Qed.

Lemma dict_set_length {V} (k : string) (v : V) (d : dict V) :
  (length (dict_set k v d) <= S (length d))%nat.
Proof.
  induction d as [|[k0 v0] d IH]; simpl; [lia|].
  destruct (String.eqb k k0); simpl; lia.
Qed.

(** X13. After loading a document into an empty catalog,
    [known_permission_count] is the number of distinct case-folded names
    of the document, hence at most the number of its entries: entries
    whose names differ only in case count once. *)
Theorem known_permission_count_distinct_names
    (data : list (string * option (list (string * PermData)))) :
  known_permission_count (_load_rules data [])
  = size (list_to_set (map fst (entries data)) : gset string)
  /\ (known_permission_count (_load_rules data []) <= length (entries data))%nat.
Proof.
  unfold known_permission_count. split.
  - destruct (_load_rules_well_formed data []) as [Hnd _].
    { split; constructor. }
    rewrite <- (length_map fst), <- (size_list_to_set (C:=gset string)) by exact Hnd.
    f_equal. apply set_eq. intros k. rewrite !elem_of_list_to_set.
    rewrite <- (dict_get_is_Some k (_load_rules data [])).
    rewrite _load_rules_entries, dict_get_foldl_set. simpl.
    rewrite <- (dict_get_is_Some k (entries data)).
    assert (Hrev : is_Some (dict_get k (rev (entries data)))
                   <-> is_Some (dict_get k (entries data))).
    { rewrite !dict_get_is_Some, map_rev. by rewrite <- Permutation_rev. }
    destruct (dict_get k (rev (entries data))) eqn:Hk.
    + split; [intros _; apply Hrev; by eexists | by eexists].
    + split; [by intros [? ?]|]. intros Hsome. apply Hrev in Hsome.
      by destruct Hsome.
  - rewrite _load_rules_entries.
    assert (Hgen : forall (kvs : list (string * Rule)) (d : dict Rule),
               (length (foldl (fun d '(k, v) => dict_set k v d) d kvs)
                <= length d + length kvs)%nat).
    { induction kvs as [|[k v] kvs IH]; intros d; simpl; [lia|].
      pose proof (IH (dict_set k v d)). pose proof (dict_set_length k v d).
      lia. }
    apply (Hgen (entries data) []).
Qed.

(** ** The high-impact listing on a loaded catalog *)

(** X14. On a catalog loaded from a document, [get_high_impact_permissions]
    returns catalog keys: every name it returns is lower-case, is the
    [permission] of its translation, and is known; the original casing of
    the document's names and the rules' display names never appear.  The
    listing is in descending order of impact. *)
Theorem high_impact_names_are_catalog_keys
    (data : list (string * option (list (string * PermData))))
    (rules : dict Rule) (min_score : Z) :
  well_formed rules ->
  descending (fun x => impact_score (snd x))
    (get_high_impact_permissions (_load_rules data rules) min_score)
  /\ forall name t,
       (name, t) ∈ get_high_impact_permissions (_load_rules data rules)
                     min_score ->
       lower name = name
       /\ permission t = name
       /\ is_known t = true
       /\ exists rule,
            dict_get name (_load_rules data rules) = Some rule
            /\ min_score <= default 0 (rule_impact_score rule).
Proof.
  intros Hwf. pose proof (_load_rules_well_formed data rules Hwf) as Hloaded.
  destruct (get_high_impact_permissions_spec _ min_score Hloaded)
    as [Hsorted Hmem].
  split; [exact Hsorted|]. intros name t Hin.
  apply Hmem in Hin as (rule & Hrule & Hmin & -> & _).
  destruct Hloaded as [Hnd Hlow].
  assert (Hname : lower name = name).
  { apply (proj1 (Forall_forall _ _) Hlow). apply list_elem_of_fmap.
    by exists (name, rule). }
  assert (Hget : dict_get name (_load_rules data rules) = Some rule)
    by (by apply dict_get_elem).
  split; [exact Hname|]. unfold translate1, translate. rewrite Hname, Hget.
  simpl. split; [reflexivity|]. split; [reflexivity|]. by exists rule.
Qed.

(** In the listing of the catalog of [mail_document], whose one entry is
    named "Mail.Read", the name is "mail.read". *)
Lemma high_impact_names_are_catalog_keys_witness :
  map fst (get_high_impact_permissions (_load_rules mail_document []) 70)
  = ["mail.read"]
  /\ forall name t,
       (name, t) ∈ get_high_impact_permissions (_load_rules mail_document [])
                     70 ->
       lower name = name /\ permission t = name.
Proof.
  split; [reflexivity|]. intros name t Hin.
  destruct (high_impact_names_are_catalog_keys mail_document [] 70) as [_ Hall].
  { split; constructor. }
  destruct (Hall name t Hin) as (Hlower & Hpermission & _).
  by split.
Defined.

(** ** Parsing a category *)

(** X15. [_parse_category] reads back the value of every risk category
    ("unknown" included, through the fallback), ignores case, and returns
    a category other than Unknown only for that category's own value, up
    to case. *)
Theorem _parse_category_round_trip :
  (forall c, _parse_category (risk_category_value c) = c)
  /\ (forall s, _parse_category (lower s) = _parse_category s)
  /\ (forall s c,
        _parse_category s = c -> c <> RiskCategory.UNKNOWN ->
        lower s = risk_category_value c).
Proof.
  split; [by intros []|]. split.
  - intros s. unfold _parse_category. by rewrite lower_idempotent.
  - intros s c <- Hknown. unfold _parse_category in *.
    cbn [dict_get] in *.
    repeat match goal with
           | |- context [String.eqb ?a ?b] =>
               destruct (String.eqb_spec a b) as [->|?]; [reflexivity|]
           | H : context [String.eqb ?a ?b] |- _ =>
               destruct (String.eqb_spec a b) as [->|?]
           end.
    contradiction.
Qed.

(** ** Findings of the detector *)

Lemma nonempty_set_elements (X : gset string) :
  nonempty_set X = true -> elements X <> [].
Proof.
  unfold nonempty_set. intros Hne%bool_decide_eq_true_1 Hnil.
  apply Hne. apply leibniz_equiv. by apply elements_empty_iff.
Qed.

Lemma elem_of_user_consented (grants : list OAuth2PermissionGrant)
    (acc : gset string) (s : string) :
  s ∈ foldl (fun acc grant =>
               if ConsentType.eqb (grant_consent_type grant) ConsentType.USER
               then acc ∪ list_to_set (scopes grant) else acc)
            acc grants ->
  s ∈ acc \/ exists grant, grant ∈ grants /\ s ∈ scopes grant.
Proof.
  revert acc. induction grants as [|g grants IH]; intros acc; simpl;
    [by left|].
  intros [Hacc|(g' & Hg' & Hs)]%IH.
  - destruct (ConsentType.eqb _ _); [|by left].
    apply elem_of_union in Hacc as [?|Hs]; [by left|].
    right. exists g. split; [apply list_elem_of_here|].
    by apply elem_of_list_to_set in Hs.
  - right. exists g'. split; [by apply list_elem_of_further | exact Hs].
Qed.

Section DetectionRules.
Context {F : Type}.
Variable config : Config F.
Variable result : AnalysisResult.
Variable sp : ServicePrincipal.

Local Ltac sets :=
  repeat (rewrite ?elem_of_intersection, ?elem_of_union, ?elem_of_difference
            in *);
  tauto.

Local Ltac finding :=
  apply Forall_singleton; unfold finding_about; simpl;
  split; [reflexivity|]; split; [reflexivity|].

Lemma _detect_external_delegated_grants_about :
  Forall (finding_about sp) (_detect_external_delegated_grants sp).
Proof.
  unfold _detect_external_delegated_grants. cbv zeta.
  destruct (negb _); [constructor|].
  destruct (negb _); [constructor|].
  destruct (nonempty_set _) eqn:Hhigh.
  - finding. split; [by apply nonempty_set_elements|].
    split; [|left; split; [reflexivity|]]; intros s Hs%elem_of_elements;
      sets.
  - destruct (elements (all_delegated_scopes sp)) as [|s0 l] eqn:Hall;
      [constructor|].
    finding. split; [discriminate|]. split; [|by right].
    intros s Hs. rewrite <- Hall in Hs. apply elem_of_elements in Hs.
    sets.
Qed.

Lemma _detect_user_consent_high_impact_about :
  Forall (finding_about sp) (_detect_user_consent_high_impact sp).
Proof.
  unfold _detect_user_consent_high_impact. cbv zeta.
  destruct (negb _); [constructor|].
  destruct (nonempty_set _) eqn:Hhigh; [|constructor].
  finding. split; [by apply nonempty_set_elements|].
  split; [|left; split; [reflexivity|]]; intros s Hs%elem_of_elements.
  - apply elem_of_intersection in Hs as [Hs _].
    apply elem_of_user_consented in Hs as [Hs|Hs];
      [by apply elem_of_empty in Hs|].
    apply elem_of_union. left. by apply elem_of_all_delegated_scopes.
  - by apply elem_of_intersection in Hs as [_ Hs].
Qed.

Lemma _detect_offline_access_risk_about :
  Forall (finding_about sp) (_detect_offline_access_risk sp).
Proof.
  unfold _detect_offline_access_risk. cbv zeta.
  destruct (negb _) eqn:Hoffline; [constructor|].
  apply negb_false_iff, bool_decide_eq_true_1 in Hoffline.
  destruct (nonempty_set _) eqn:Hhigh; [|constructor].
  finding. split.
  - intros Hnil. apply elements_empty_iff in Hnil.
    apply (not_elem_of_empty (C:=gset string) "offline_access").
    rewrite <- Hnil. apply elem_of_union. right. by apply elem_of_singleton.
  - split; [|by right]. intros s Hs%elem_of_elements.
    apply elem_of_union in Hs as [Hs|Hs]; [sets|].
    apply elem_of_singleton in Hs as ->. apply elem_of_union. by left.
Qed.

Lemma _detect_inactive_privileged_about :
  Forall (finding_about sp) (_detect_inactive_privileged config sp result).
Proof.
  unfold _detect_inactive_privileged. cbv zeta.
  destruct (negb _); [constructor|].
  destruct (sign_in_activity sp) as [activity|]; [|constructor].
  destruct (negb _); [constructor|].
  match goal with |- context [match ?x with Some _ => _ | None => [] end] =>
    destruct x as [inactive_msg|] end; [|constructor].
  destruct (nonempty_set _) eqn:Hhigh; [|constructor].
  finding. split; [by apply nonempty_set_elements|].
  split; [|left; split; [reflexivity|]]; intros s Hs%elem_of_elements;
    sets.
Qed.

Lemma _detect_orphaned_privileged_about :
  Forall (finding_about sp) (_detect_orphaned_privileged sp).
Proof.
  unfold _detect_orphaned_privileged. cbv zeta.
  destruct (has_owners sp); [constructor|].
  destruct (nonempty_set (_ ∩ _)) eqn:Hhigh.
  - finding. split; [by apply nonempty_set_elements|].
    split; [|left; split; [reflexivity|]]; intros s Hs%elem_of_elements;
      sets.
  - destruct (nonempty_set (all_delegated_scopes sp ∪ all_app_role_values sp))
      eqn:Hany; [|constructor].
    finding. split; [by apply nonempty_set_elements|].
    split; [|by right]. by intros s Hs%elem_of_elements.
Qed.

Lemma _detect_unknown_publisher_high_impact_about :
  Forall (finding_about sp) (_detect_unknown_publisher_high_impact sp).
Proof.
  unfold _detect_unknown_publisher_high_impact. cbv zeta.
  destruct (has_verified_publisher sp); [constructor|].
  destruct (AppType.eqb _ _); [constructor|].
  destruct (nonempty_set _) eqn:Hhigh; [|constructor].
  finding. split; [by apply nonempty_set_elements|].
  split; [|left; split; [reflexivity|]]; intros s Hs%elem_of_elements;
    sets.
Qed.

Lemma detection_rules_about :
  Forall (finding_about sp) (detection_rules config result sp).
Proof.
  unfold detection_rules. repeat (apply Forall_app; split).
  - apply _detect_external_delegated_grants_about.
  - apply _detect_user_consent_high_impact_about.
  - apply _detect_offline_access_risk_about.
  - apply _detect_inactive_privileged_about.
  - apply _detect_orphaned_privileged_about.
  - apply _detect_unknown_publisher_high_impact_about.
Qed.

End DetectionRules.

Lemma detect_raw {F} (config : Config F) (result : AnalysisResult) :
  fst (detect config result)
  = sorted_by (fun f => severity_order (severity f))
              (raw_findings config result).
Proof.
  unfold detect, raw_findings. simpl. by rewrite detect_loop_flat_map.
Qed.

Lemma raw_findings_about {F} (config : Config F) (result : AnalysisResult)
    (f : ShadowOAuthFinding) :
  f ∈ raw_findings config result ->
  exists sp,
    sp ∈ service_principals result
    /\ app_type sp <> AppType.FIRST_PARTY_MICROSOFT
    /\ (app_id sp ∉ allowed_app_ids (allow_deny config))
    /\ finding_about sp f.
Proof.
  unfold raw_findings. intros (sp & Hsp & Hf)%elem_of_flat_map.
  exists sp. split; [exact Hsp|]. unfold skipped in Hf.
  destruct (app_type sp) eqn:Htype; simpl in Hf;
    try (by apply elem_of_nil in Hf);
    (split; [discriminate|]);
    (case_bool_decide; [by apply elem_of_nil in Hf|]);
    (split; [assumption|]);
    exact (proj1 (Forall_forall _ _) (detection_rules_about config result sp)
             f Hf).
Qed.

(** X16. Every finding [detect] returns names an identity of the result
    that is neither first-party nor allow-listed, and lists a non-empty
    selection of the permissions this identity holds; a High finding
    lists watch-list scopes only, and there is no severity besides High
    and Medium.  So a result whose identities hold no permission yields
    no finding. *)
Theorem detect_findings_name_holders
    {F} (config : Config F) (result : AnalysisResult) :
  (forall f,
     f ∈ fst (detect config result) ->
     exists sp,
       sp ∈ service_principals result
       /\ app_type sp <> AppType.FIRST_PARTY_MICROSOFT
       /\ (app_id sp ∉ allowed_app_ids (allow_deny config))
       /\ service_principal_id f = object_id sp
       /\ service_principal_name f = display_name sp
       /\ affected_scopes f <> []
       /\ (forall s, s ∈ affected_scopes f ->
                     s ∈ all_delegated_scopes sp ∪ all_app_role_values sp)
       /\ ((severity f = "High"
            /\ forall s, s ∈ affected_scopes f -> s ∈ HIGH_IMPACT_SCOPES)
           \/ severity f = "Medium"))
  /\ ((forall sp, sp ∈ service_principals result ->
                  all_delegated_scopes sp = ∅ /\ all_app_role_values sp = ∅) ->
      fst (detect config result) = []).
Proof.
  assert (Habout : forall f,
             f ∈ fst (detect config result) ->
             exists sp,
               sp ∈ service_principals result
               /\ app_type sp <> AppType.FIRST_PARTY_MICROSOFT
               /\ (app_id sp ∉ allowed_app_ids (allow_deny config))
               /\ finding_about sp f).
  { intros f. rewrite detect_raw, sorted_by_perm. apply raw_findings_about. }
  split; [exact Habout|].
  intros Hnone. destruct (fst (detect config result)) as [|f fs] eqn:Hdetect;
    [reflexivity|].
  destruct (Habout f (list_elem_of_here _ _))
    as (sp & Hsp & _ & _ & _ & _ & Hscopes & Hheld & _).
  destruct (Hnone sp Hsp) as [Hd Hr]. rewrite Hd, Hr in Hheld.
  destruct (affected_scopes f) as [|s l]; [contradiction|].
  specialize (Hheld s (list_elem_of_here _ _)).
  apply elem_of_union in Hheld as [Hs|Hs]; by apply elem_of_empty in Hs.
Qed.

(** ** The order of the findings *)

Lemma insert_by_two_keys {A} (key : A -> Z) (a b : Z) (x : A)
    (la lb : list A) :
  a < b ->
  Forall (fun y => key y = a) la -> Forall (fun y => key y = b) lb ->
  (key x = a -> insert_by key x (la ++ lb) = la ++ x :: lb)
  /\ (key x = b -> insert_by key x (la ++ lb) = la ++ lb ++ [x]).
Proof.
  intros Hab Hla Hlb.
  assert (Hb : (key x = a -> insert_by key x lb = x :: lb)
               /\ (key x = b -> insert_by key x lb = lb ++ [x])).
  { split.
    - intros Hx. destruct Hlb as [|y lb Hy _]; [reflexivity|]. simpl.
      destruct (Z.leb_spec (key y) (key x)); [lia | reflexivity].
    - intros Hx. induction Hlb as [|y lb Hy _ IH]; [reflexivity|]. simpl.
      destruct (Z.leb_spec (key y) (key x)); [by rewrite IH | lia]. }
  induction Hla as [|y la Hy _ IH]; [exact Hb|].
  destruct IH as [IHa IHb]. simpl. split; intros Hx.
  - destruct (Z.leb_spec (key y) (key x)); [by rewrite IHa | lia].
  - destruct (Z.leb_spec (key y) (key x)); [by rewrite IHb | lia].
Qed.

(** A stable sort on a key with two values puts the elements of the lower
    value first and keeps the order within each value. *)
Lemma sorted_by_two_keys {A} (key : A -> Z) (a b : Z) (l : list A) :
  a < b ->
  Forall (fun x => key x = a \/ key x = b) l ->
  sorted_by key l
  = filter (fun x => key x = a) l ++ filter (fun x => key x = b) l.
Proof.
  intros Hab Hall. induction l as [|x l IH] using rev_ind; [reflexivity|].
  apply Forall_app in Hall as [Hl Hx]. apply Forall_cons in Hx as [Hx _].
  unfold sorted_by in *. rewrite foldl_app. simpl. rewrite (IH Hl).
  rewrite !filter_app.
  destruct (insert_by_two_keys key a b x
              (filter (fun x => key x = a) l) (filter (fun x => key x = b) l)
              Hab) as [Ha Hb].
  { apply Forall_forall. by intros y [Hy _]%list_elem_of_filter. }
  { apply Forall_forall. by intros y [Hy _]%list_elem_of_filter. }
  destruct Hx as [Hx|Hx].
  - rewrite (Ha Hx). rewrite (filter_cons_True _ x) by exact Hx.
    rewrite (filter_cons_False _ x) by lia. rewrite !filter_nil, app_nil_r.
    by rewrite <- app_assoc.
  - rewrite (Hb Hx). rewrite (filter_cons_False _ x) by lia.
    rewrite (filter_cons_True _ x) by exact Hx.
    by rewrite !filter_nil, app_nil_r.
Qed.

Lemma filter_ext_Forall {A} (P Q : A -> Prop)
    `{forall x, Decision (P x)} `{forall x, Decision (Q x)} (l : list A) :
  Forall (fun x => P x <-> Q x) l -> filter P l = filter Q l.
Proof.
  induction 1 as [|x l Hx _ IH]; [reflexivity|].
  rewrite !filter_cons, IH.
  destruct (decide (P x)) as [Hp|Hp]; destruct (decide (Q x)) as [Hq|Hq];
    tauto.
Qed.

(** The findings by severity. *)
Lemma detect_high_medium
    {F} (config : Config F) (result : AnalysisResult) :
  fst (detect config result)
  = filter (fun f => severity f = "High") (raw_findings config result)
    ++ filter (fun f => severity f = "Medium") (raw_findings config result).
Proof.
  rewrite detect_raw.
  assert (Hsev : Forall (fun f => severity f = "High" \/ severity f = "Medium")
                   (raw_findings config result)).
  { apply Forall_forall. intros f Hf.
    destruct (raw_findings_about config result f Hf)
      as (sp & _ & _ & _ & _ & _ & _ & _ & [[Hhigh _]|Hmedium]);
      [by left | by right]. }
  rewrite (sorted_by_two_keys _ 1 2); [|lia|].
  - f_equal; apply filter_ext_Forall; (eapply Forall_impl; [exact Hsev|]);
      intros f [Hf|Hf]; rewrite Hf; by split.
  - eapply Forall_impl; [exact Hsev|]. intros f [Hf|Hf]; rewrite Hf;
      [by left | by right].
Qed.

(** X17. [detect] returns every High finding before every Medium one, and
    within each severity the findings keep the order in which the loop
    emitted them (identity by identity, rule by rule). *)
Theorem detect_high_before_medium
    {F} (config : Config F) (result : AnalysisResult) :
  fst (detect config result)
  = filter (fun f => severity f = "High") (raw_findings config result)
    ++ filter (fun f => severity f = "Medium") (raw_findings config result).
Proof. apply detect_high_medium. Qed.

(** ** The watch list and the spelling of permissions *)

Lemma high_impact_scope_has_upper (p : string) :
  p ∈ HIGH_IMPACT_SCOPES -> lower p <> p.
Proof.
  unfold HIGH_IMPACT_SCOPES. rewrite !elem_of_union, !elem_of_singleton.
  intros Hp Hlower.
  repeat destruct Hp as [Hp|Hp]; subst p; vm_compute in Hlower; discriminate.
Qed.

(** X18. The detector matches its watch list by exact spelling: for an
    identity all of whose permissions are spelled in lower case, every
    finding of the six rules is Medium, none High; whereas the translator,
    and with it the scorer, gives a permission and its lower-case spelling
    the same impact. *)
Theorem detect_watch_list_is_case_sensitive
    {F} (config : Config F) (result : AnalysisResult) (sp : ServicePrincipal) :
  (forall p, p ∈ all_delegated_scopes sp ∪ all_app_role_values sp ->
             lower p = p) ->
  Forall (fun f => severity f = "Medium") (detection_rules config result sp)
  /\ forall (rules : dict Rule) (p : string),
       impact_score (translate1 rules (lower p))
       = impact_score (translate1 rules p).
Proof.
  intros Hlower. split.
  - eapply Forall_impl; [apply detection_rules_about|].
    intros f (_ & _ & Hne & Hheld & [[_ Hhigh]|Hmedium]); [|exact Hmedium].
    destruct (affected_scopes f) as [|s l]; [contradiction|].
    destruct (high_impact_scope_has_upper s).
    + apply Hhigh, list_elem_of_here.
    + apply Hlower, Hheld, list_elem_of_here.
  - intros rules p. unfold translate1.
    by destruct (translate_depends_on_lower rules (lower p) p
                   "microsoft_graph" "microsoft_graph"
                   (lower_idempotent p)) as (_ & Himpact & _).
Qed.

(** The reader of mail with its scopes spelled "mail.read offline_access"
    gets Medium findings only; spelled "Mail.Read offline_access" it gets
    High ones. *)
Lemma detect_watch_list_is_case_sensitive_witness :
  Forall (fun f => severity f = "Medium")
    (detection_rules (default_config (F:=float))
       (result_of [mail_reader "mail.read"]) (mail_reader "mail.read"))
  /\ map severity
       (detection_rules (default_config (F:=float))
          (result_of [mail_reader "Mail.Read"]) (mail_reader "Mail.Read"))
     = ["High"; "High"; "Medium"; "High"].
Proof.
  split; [|reflexivity].
  apply detect_watch_list_is_case_sensitive. intros p Hp.
  apply elem_of_union in Hp as [Hp|Hp].
  - apply elem_of_all_delegated_scopes in Hp as (grant & Hgrant & Hp).
    apply list_elem_of_singleton in Hgrant as ->.
    change (p ∈ ["mail.read"; "offline_access"]) in Hp.
    repeat (apply elem_of_cons in Hp as [->|Hp]; [reflexivity|]).
    by apply elem_of_nil in Hp.
  - apply elem_of_all_app_role_values in Hp as (_ & a & Ha & _).
    by apply elem_of_nil in Ha.
Defined.

(** ** The finding types of the rules *)

Section RuleTypes.
Context {F : Type}.
Variable config : Config F.
Variable result : AnalysisResult.
Variable sp : ServicePrincipal.

Local Ltac shapes :=
  cbv zeta; repeat case_match; simpl;
  repeat (first [apply list_elem_of_here | apply list_elem_of_further]).

Lemma _detect_external_delegated_grants_types :
  map finding_type (_detect_external_delegated_grants sp)
  ∈ [[]; ["external_delegated_high_impact"]; ["external_delegated"]].
Proof. unfold _detect_external_delegated_grants. shapes. Qed.

Lemma _detect_user_consent_high_impact_types :
  map finding_type (_detect_user_consent_high_impact sp)
  ∈ [[]; ["user_consent_high_impact"]].
Proof. unfold _detect_user_consent_high_impact. shapes. Qed.

Lemma _detect_offline_access_risk_types :
  map finding_type (_detect_offline_access_risk sp)
  ∈ [[]; ["offline_access_high_impact"]].
Proof. unfold _detect_offline_access_risk. shapes. Qed.

Lemma _detect_inactive_privileged_types :
  map finding_type (_detect_inactive_privileged config sp result)
  ∈ [[]; ["inactive_privileged"]].
Proof. unfold _detect_inactive_privileged. shapes. Qed.

Lemma _detect_orphaned_privileged_types :
  map finding_type (_detect_orphaned_privileged sp)
  ∈ [[]; ["orphaned_privileged"]; ["orphaned_with_permissions"]].
Proof. unfold _detect_orphaned_privileged. shapes. Qed.

Lemma _detect_unknown_publisher_high_impact_types :
  map finding_type (_detect_unknown_publisher_high_impact sp)
  ∈ [[]; ["unverified_publisher_high_impact"]].
Proof. unfold _detect_unknown_publisher_high_impact. shapes. Qed.

Lemma detection_rules_types :
  NoDup (map finding_type (detection_rules config result sp))
  /\ (length (detection_rules config result sp) <= 6)%nat.
Proof.
  rewrite <- (length_map finding_type).
  unfold detection_rules. rewrite !map_app.
  pose proof _detect_external_delegated_grants_types as H1.
  pose proof _detect_user_consent_high_impact_types as H2.
  pose proof _detect_offline_access_risk_types as H3.
  pose proof _detect_inactive_privileged_types as H4.
  pose proof _detect_orphaned_privileged_types as H5.
  pose proof _detect_unknown_publisher_high_impact_types as H6.
  revert H1 H2 H3 H4 H5 H6.
  generalize (map finding_type (_detect_external_delegated_grants sp)).
  generalize (map finding_type (_detect_user_consent_high_impact sp)).
  generalize (map finding_type (_detect_offline_access_risk sp)).
  generalize (map finding_type (_detect_inactive_privileged config sp result)).
  generalize (map finding_type (_detect_orphaned_privileged sp)).
  generalize (map finding_type (_detect_unknown_publisher_high_impact sp)).
  intros l6 l5 l4 l3 l2 l1 H1 H2 H3 H4 H5 H6.
  repeat (apply elem_of_cons in H1 as [->|H1]);
    try (by apply elem_of_nil in H1);
  repeat (apply elem_of_cons in H2 as [->|H2]);
    try (by apply elem_of_nil in H2);
  repeat (apply elem_of_cons in H3 as [->|H3]);
    try (by apply elem_of_nil in H3);
  repeat (apply elem_of_cons in H4 as [->|H4]);
    try (by apply elem_of_nil in H4);
  repeat (apply elem_of_cons in H5 as [->|H5]);
    try (by apply elem_of_nil in H5);
  repeat (apply elem_of_cons in H6 as [->|H6]);
    try (by apply elem_of_nil in H6);
  (split; [apply (bool_decide_unpack _); vm_compute; exact I | simpl; lia]).
Qed.

End RuleTypes.

Lemma NoDup_flat_map_keyed {A B K} (key : B -> K) (id : A -> K)
    (h : A -> list B) (l : list A) :
  NoDup (map id l) ->
  (forall x, x ∈ l -> Forall (fun y => key y = id x) (h x)) ->
  (forall x, x ∈ l -> NoDup (h x)) ->
  NoDup (flat_map h l).
Proof.
  induction l as [|x l IH]; simpl; intros Hids Hkey Hnd; [constructor|].
  apply NoDup_cons in Hids as [Hx Hids]. apply NoDup_app. split; [|split].
  - apply Hnd, list_elem_of_here.
  - intros y Hy (x' & Hx' & Hy')%elem_of_flat_map. apply Hx.
    apply list_elem_of_fmap. exists x'. split; [|exact Hx'].
    pose proof (proj1 (Forall_forall _ _) (Hkey x (list_elem_of_here _ _))
                  y Hy) as Hk.
    pose proof (proj1 (Forall_forall _ _)
                  (Hkey x' (list_elem_of_further _ _ _ Hx')) y Hy') as Hk'.
    congruence.
  - apply IH; [exact Hids | |].
    + intros x' Hx'. apply Hkey. by apply list_elem_of_further.
    + intros x' Hx'. apply Hnd. by apply list_elem_of_further.
Qed.

Lemma flat_map_length_le {A B} (h : A -> list B) (n : nat) (l : list A) :
  (forall x, length (h x) <= n)%nat ->
  (length (flat_map h l) <= n * length l)%nat.
Proof.
  intros Hn. induction l as [|x l IH]; simpl; [lia|].
  rewrite length_app. specialize (Hn x). lia.
Qed.

(** X19. For one identity the six rules emit findings of pairwise distinct
    types, at most six.  So in a result with distinct object ids [detect]
    never returns two findings with the same identity and the same type,
    and never more than six findings per identity. *)
Theorem detect_one_finding_per_identity_and_type
    {F} (config : Config F) (result : AnalysisResult) :
  NoDup (map object_id (service_principals result)) ->
  NoDup (map (fun f => (service_principal_id f, finding_type f))
             (fst (detect config result)))
  /\ (length (fst (detect config result))
      <= 6 * length (service_principals result))%nat
  /\ forall sp, NoDup (map finding_type (detection_rules config result sp)).
Proof.
  intros Hids. rewrite detect_raw. split; [|split].
  - rewrite (Permutation_map _ (sorted_by_perm _ _)).
    unfold raw_findings. rewrite flat_map_concat_map, concat_map, map_map.
    rewrite <- flat_map_concat_map.
    apply (NoDup_flat_map_keyed fst object_id); [exact Hids | |].
    + intros sp _. apply Forall_forall. intros y Hy.
      apply list_elem_of_fmap in Hy as (f & -> & Hf). simpl.
      destruct (skipped config sp); [by apply elem_of_nil in Hf|].
      by destruct (proj1 (Forall_forall _ _)
                     (detection_rules_about config result sp) f Hf)
        as (Hid & _).
    + intros sp _. destruct (skipped config sp); [constructor|].
      assert (Hpairs : map (fun f => (service_principal_id f, finding_type f))
                         (detection_rules config result sp)
                       = map (fun t => (object_id sp, t))
                           (map finding_type
                              (detection_rules config result sp))).
      { rewrite map_map. apply map_ext_Forall.
        eapply Forall_impl; [apply detection_rules_about|].
        by intros f (-> & _). }
      rewrite Hpairs. apply NoDup_fmap_2; [by intros t t' [= ->]|].
      apply detection_rules_types.
  - rewrite (Permutation_length (sorted_by_perm _ _)).
    apply flat_map_length_le. intros sp.
    destruct (skipped config sp); [simpl; lia|].
    apply detection_rules_types.
  - intros sp. apply detection_rules_types.
Qed.

Lemma detect_one_finding_per_identity_and_type_witness :
  NoDup (map (fun f => (service_principal_id f, finding_type f))
           (fst (detect (default_config (F:=float))
                   (result_of [mail_reader "Mail.Read"; risky_principal]))))
  /\ length (fst (detect (default_config (F:=float))
                    (result_of [mail_reader "Mail.Read"; risky_principal])))
     = 8%nat.
Proof.
  split; [|reflexivity].
  apply detect_one_finding_per_identity_and_type.
  apply (bool_decide_unpack _). vm_compute. exact I.
Defined.

(** ** Findings that are safe to review first *)

Lemma filter_by_type_none (P : ShadowOAuthFinding -> Prop)
    `{forall f, Decision (P f)} (types : list (list string))
    (l : list ShadowOAuthFinding) :
  map finding_type l ∈ types ->
  (forall f, P f -> Forall (fun ts => finding_type f ∉ ts) types) ->
  filter P l = [].
Proof.
  intros Htypes Hnot. apply filter_none, Forall_forall. intros f Hf Hp.
  apply (proj1 (Forall_forall _ _) (Hnot f Hp) _ Htypes).
  apply list_elem_of_fmap. by exists f.
Qed.

Lemma filter_by_type_all (P : ShadowOAuthFinding -> Prop)
    `{forall f, Decision (P f)} (types : list (list string))
    (l : list ShadowOAuthFinding) :
  map finding_type l ∈ types ->
  (forall f ts, ts ∈ types -> finding_type f ∈ ts -> P f) ->
  filter P l = l.
Proof.
  intros Htypes Hall.
  assert (Hl : Forall P l).
  { apply Forall_forall. intros f Hf. apply (Hall f _ Htypes).
    apply list_elem_of_fmap. by exists f. }
  clear Htypes. induction Hl as [|f l Hf _ IH]; [reflexivity|].
  by rewrite filter_cons_True, IH.
Qed.

Lemma safe_type_iff (t : string) :
  t ∈ ({[ "orphaned_with_permissions"; "inactive_privileged";
          "orphaned_privileged" ]} : gset string)
  <-> t = "orphaned_with_permissions" \/ t = "inactive_privileged"
      \/ t = "orphaned_privileged".
Proof. rewrite !elem_of_union, !elem_of_singleton. tauto. Qed.

(** X20. Applied to the findings of a detection run,
    [get_safe_to_review_first] returns exactly what the run would have
    found with the inactive-privileged and the orphaned rules alone, in
    the same severity order; findings of the four other rules never count
    as safe to review first. *)
Theorem safe_to_review_first_of_detect
    {F} (config : Config F) (result : AnalysisResult) :
  get_safe_to_review_first (fst (detect config result))
  = sorted_by (fun f => severity_order (severity f))
      (flat_map
         (fun sp =>
            if skipped config sp then []
            else _detect_inactive_privileged config sp result
                 ++ _detect_orphaned_privileged sp)
         (service_principals result)).
Proof.
  unfold get_safe_to_review_first.
  set (safe := fun f : ShadowOAuthFinding => finding_type f ∈ _).
  set (kept := flat_map _ (service_principals result)).
  assert (Hkept : filter safe (raw_findings config result) = kept).
  { unfold raw_findings, kept.
    induction (service_principals result) as [|sp sps IH]; [reflexivity|].
    simpl. rewrite filter_app, IH. f_equal.
    destruct (skipped config sp); [reflexivity|].
    unfold detection_rules. rewrite !filter_app.
    rewrite (filter_by_type_none safe _ _
               (_detect_external_delegated_grants_types sp)).
    2:{ intros f Hf%safe_type_iff.
        repeat (apply Forall_cons; split; [|]); try apply Forall_nil_2;
          intros Hin; repeat (apply elem_of_cons in Hin as [Hin|Hin]);
          try (by apply elem_of_nil in Hin);
          destruct Hf as [Hf|[Hf|Hf]]; congruence. }
    rewrite (filter_by_type_none safe _ _
               (_detect_user_consent_high_impact_types sp)).
    2:{ intros f Hf%safe_type_iff.
        repeat (apply Forall_cons; split; [|]); try apply Forall_nil_2;
          intros Hin; repeat (apply elem_of_cons in Hin as [Hin|Hin]);
          try (by apply elem_of_nil in Hin);
          destruct Hf as [Hf|[Hf|Hf]]; congruence. }
    rewrite (filter_by_type_none safe _ _
               (_detect_offline_access_risk_types sp)).
    2:{ intros f Hf%safe_type_iff.
        repeat (apply Forall_cons; split; [|]); try apply Forall_nil_2;
          intros Hin; repeat (apply elem_of_cons in Hin as [Hin|Hin]);
          try (by apply elem_of_nil in Hin);
          destruct Hf as [Hf|[Hf|Hf]]; congruence. }
    rewrite (filter_by_type_none safe _ _
               (_detect_unknown_publisher_high_impact_types sp)).
    2:{ intros f Hf%safe_type_iff.
        repeat (apply Forall_cons; split; [|]); try apply Forall_nil_2;
          intros Hin; repeat (apply elem_of_cons in Hin as [Hin|Hin]);
          try (by apply elem_of_nil in Hin);
          destruct Hf as [Hf|[Hf|Hf]]; congruence. }
    rewrite (filter_by_type_all safe _ _
               (_detect_inactive_privileged_types config result sp)).
    2:{ intros f ts Hts Hin. apply safe_type_iff.
        repeat (apply elem_of_cons in Hts as [->|Hts]);
          try (by apply elem_of_nil in Hts);
          repeat (apply elem_of_cons in Hin as [->|Hin]);
          try (by apply elem_of_nil in Hin); tauto. }
    rewrite (filter_by_type_all safe _ _
               (_detect_orphaned_privileged_types sp)).
    2:{ intros f ts Hts Hin. apply safe_type_iff.
        repeat (apply elem_of_cons in Hts as [->|Hts]);
          try (by apply elem_of_nil in Hts);
          repeat (apply elem_of_cons in Hin as [->|Hin]);
          try (by apply elem_of_nil in Hin); tauto. }
    by rewrite app_nil_r. }
  assert (Hsev : Forall (fun f => severity_order (severity f) = 1
                                  \/ severity_order (severity f) = 2)
                   (raw_findings config result)).
  { apply Forall_forall. intros f Hf.
    destruct (raw_findings_about config result f Hf)
      as (sp & _ & _ & _ & _ & _ & _ & _ & [[Hhigh _]|Hmedium]).
    - left. by rewrite Hhigh.
    - right. by rewrite Hmedium. }
  rewrite detect_raw, (sorted_by_two_keys _ 1 2 _ ltac:(lia) Hsev).
  rewrite filter_app, !list_filter_filter.
  rewrite <- Hkept, (sorted_by_two_keys _ 1 2); [|lia|].
  - rewrite !list_filter_filter. f_equal; apply filter_ext_Forall, Forall_forall;
      intros f _; tauto.
  - apply Forall_forall. intros f [_ Hf]%list_elem_of_filter.
    exact (proj1 (Forall_forall _ _) Hsev f Hf).
Qed.

(** ** The blast-radius report *)

Lemma sp_map_of_lookup (sps : list ServicePrincipal) (k : string) :
  sp_map_of sps !! k
  = find (fun sp => String.eqb (object_id sp) k) (rev sps).
Proof.
  unfold sp_map_of.
  assert (Hgen : forall (m : gmap string ServicePrincipal),
             foldl (fun m sp => <[object_id sp := sp]> m) m sps !! k
             = match find (fun sp => String.eqb (object_id sp) k) (rev sps) with
               | Some sp => Some sp
               | None => m !! k
               end).
  { induction sps as [|sp sps IH]; intros m; simpl; [reflexivity|].
    rewrite IH, find_app_first.
    destruct (find _ (rev sps)); [reflexivity|]. simpl.
    destruct (String.eqb_spec (object_id sp) k) as [<-|Hne].
    - by rewrite lookup_insert_eq.
    - by rewrite lookup_insert_ne. }
  rewrite Hgen. by destruct (find _ (rev sps)).
Qed.

Lemma sp_map_of_Some (sps : list ServicePrincipal) (k : string)
    (sp : ServicePrincipal) :
  sp_map_of sps !! k = Some sp -> sp ∈ sps /\ object_id sp = k.
Proof.
  rewrite sp_map_of_lookup. intros Hfind.
  apply find_some in Hfind as [Hin Heq].
  split; [|by apply String.eqb_eq].
  rewrite (Permutation_rev sps). by apply list_elem_of_In.
Qed.

Lemma sp_map_of_is_Some (sps : list ServicePrincipal) (sp : ServicePrincipal) :
  sp ∈ sps -> is_Some (sp_map_of sps !! object_id sp).
Proof.
  rewrite sp_map_of_lookup. intros Hin.
  destruct (find _ (rev sps)) as [sp'|] eqn:Hfind; [by eexists|].
  exfalso. eapply find_none in Hfind.
  - by rewrite String.eqb_refl in Hfind.
  - apply list_elem_of_In. by rewrite <- Permutation_rev.
Qed.

Section BlastRadiusLoop.
Variable sps : list ServicePrincipal.

(** An entry belongs to the first finding that names its identity. *)
Lemma blast_radius_loop_entry (findings : list ShadowOAuthFinding)
    (seen : gset string) (e : BlastRadius) :
  e ∈ blast_radius_loop (sp_map_of sps) findings seen ->
  exists finding sp,
    find (fun f => String.eqb (service_principal_id f) (br_sp_id e)) findings
    = Some finding
    /\ (br_sp_id e ∉ seen)
    /\ sp_map_of sps !! br_sp_id e = Some sp
    /\ e = blast_radius_entry (sp_map_of sps) finding sp.
Proof.
  revert seen. induction findings as [|f findings IH]; intros seen; simpl.
  - by intros ?%elem_of_nil.
  - case_bool_decide as Hseen.
    + intros (finding & sp & Hfind & Hnot & Hsp & He)%IH.
      exists finding, sp. split; [|by repeat split].
      destruct (String.eqb_spec (service_principal_id f) (br_sp_id e))
        as [Heq|]; [|exact Hfind].
      rewrite Heq in Hseen. contradiction.
    + assert (Hrest : e ∈ blast_radius_loop (sp_map_of sps) findings
                            (seen ∪ {[service_principal_id f]}) ->
                      exists finding sp,
                        (if String.eqb (service_principal_id f) (br_sp_id e)
                         then Some f
                         else find (fun f => String.eqb
                                                (service_principal_id f)
                                                (br_sp_id e)) findings)
                        = Some finding
                        /\ (br_sp_id e ∉ seen)
                        /\ sp_map_of sps !! br_sp_id e = Some sp
                        /\ e = blast_radius_entry (sp_map_of sps) finding sp).
      { intros (finding & sp & Hfind & Hnot & Hsp & He)%IH.
        apply not_elem_of_union in Hnot as [Hnot Hne].
        apply not_elem_of_singleton in Hne.
        exists finding, sp.
        destruct (String.eqb_spec (service_principal_id f) (br_sp_id e));
          [congruence|]. by repeat split. }
      destruct (sp_map_of sps !! service_principal_id f) as [sp|] eqn:Hsp;
        [|exact Hrest].
      intros [->|Hin]%elem_of_cons; [|by apply Hrest].
      pose proof (sp_map_of_Some _ _ _ Hsp) as [_ Hid].
      exists f, sp. simpl. rewrite Hid, String.eqb_refl. by repeat split.
Qed.

Lemma blast_radius_loop_NoDup (findings : list ShadowOAuthFinding)
    (seen : gset string) :
  NoDup (map br_sp_id (blast_radius_loop (sp_map_of sps) findings seen)).
Proof.
  revert seen. induction findings as [|f findings IH]; intros seen; simpl;
    [constructor|].
  case_bool_decide; [apply IH|].
  destruct (sp_map_of sps !! service_principal_id f) as [sp|] eqn:Hsp;
    [|apply IH].
  simpl. apply NoDup_cons. split; [|apply IH].
  intros (e & Heq & He)%list_elem_of_fmap.
  apply blast_radius_loop_entry in He as (_ & _ & _ & Hnot & _ & _).
  apply Hnot. rewrite <- Heq. apply elem_of_union. right.
  apply elem_of_singleton. by apply sp_map_of_Some in Hsp as [_ ->].
Qed.

(** Every finding about a known identity has an entry. *)
Lemma blast_radius_loop_complete (findings : list ShadowOAuthFinding)
    (seen : gset string) (f : ShadowOAuthFinding) :
  f ∈ findings ->
  service_principal_id f ∉ seen ->
  is_Some (sp_map_of sps !! service_principal_id f) ->
  service_principal_id f
  ∈ map br_sp_id (blast_radius_loop (sp_map_of sps) findings seen).
Proof.
  revert seen. induction findings as [|f0 findings IH]; intros seen Hin Hnot
    Hknown; simpl; [by apply elem_of_nil in Hin|].
  destruct (decide (service_principal_id f0 = service_principal_id f))
    as [Heq|Hne].
  - rewrite Heq. rewrite bool_decide_eq_false_2 by exact Hnot.
    destruct Hknown as [sp Hsp]. rewrite Hsp. simpl.
    apply sp_map_of_Some in Hsp as [_ ->]. apply list_elem_of_here.
  - apply elem_of_cons in Hin as [->|Hin]; [contradiction|].
    case_bool_decide; [by apply IH|].
    assert (Hnot' : service_principal_id f
                    ∉ seen ∪ {[service_principal_id f0]}).
    { apply not_elem_of_union. split; [exact Hnot|].
      apply not_elem_of_singleton. congruence. }
    destruct (sp_map_of sps !! service_principal_id f0);
      [apply list_elem_of_further|]; by apply IH.
Qed.

End BlastRadiusLoop.

(** X21. The blast-radius report has at most one entry per identity, in
    descending order of affected users.  An entry describes an identity
    of the given list (its name, app id, consenting users and number of
    permissions) and carries the severity of the first finding that names
    this identity; and every finding that names an identity of the list
    is covered by an entry. *)
Theorem get_blast_radius_report_spec
    (findings : list ShadowOAuthFinding) (sps : list ServicePrincipal) :
  NoDup (map br_sp_id (get_blast_radius_report findings sps))
  /\ descending (fun x => Z.of_nat (br_affected_users x))
       (get_blast_radius_report findings sps)
  /\ (forall e,
        e ∈ get_blast_radius_report findings sps ->
        exists finding sp,
          sp ∈ sps
          /\ object_id sp = br_sp_id e
          /\ find (fun f => String.eqb (service_principal_id f) (br_sp_id e))
                  findings = Some finding
          /\ br_severity e = severity finding
          /\ br_sp_name e = display_name sp
          /\ br_app_id e = app_id sp
          /\ br_affected_users e = consent_user_count sp
          /\ br_total_permissions e
             = (size (all_delegated_scopes sp)
                + size (all_app_role_values sp))%nat)
  /\ (forall f sp,
        f ∈ findings -> sp ∈ sps ->
        object_id sp = service_principal_id f ->
        exists e,
          e ∈ get_blast_radius_report findings sps
          /\ br_sp_id e = service_principal_id f).
Proof.
  unfold get_blast_radius_report. cbv zeta.
  split; [|split; [|split]].
  - rewrite (Permutation_map _ (sorted_by_desc_perm _ _)).
    apply blast_radius_loop_NoDup.
  - apply sorted_by_desc_sorted.
  - intros e He. rewrite sorted_by_desc_perm in He.
    apply blast_radius_loop_entry in He as (finding & sp & Hfind & _ & Hsp & ->).
    apply sp_map_of_Some in Hsp as [Hin Hid].
    exists finding, sp. by repeat split.
  - intros f sp Hf Hsp Hid.
    assert (Hin : service_principal_id f
                  ∈ map br_sp_id
                      (blast_radius_loop (sp_map_of sps) findings ∅)).
    { apply blast_radius_loop_complete; [exact Hf | apply not_elem_of_empty|].
      rewrite <- Hid. by apply sp_map_of_is_Some. }
    apply list_elem_of_fmap in Hin as (e & Heq & He).
    exists e. split; [by rewrite sorted_by_desc_perm | by symmetry].
Qed.

(** X22. In the blast-radius report of the findings of a detection run an
    entry is High exactly when some finding of the run about its identity
    is High, and Medium otherwise: the first finding per identity, whose
    severity the entry takes, is a most severe one. *)
Theorem blast_radius_of_detect_takes_highest_severity
    {F} (config : Config F) (result : AnalysisResult)
    (sps : list ServicePrincipal) (e : BlastRadius) :
  e ∈ get_blast_radius_report (fst (detect config result)) sps ->
  (br_severity e = "High" \/ br_severity e = "Medium")
  /\ (br_severity e = "High"
      <-> exists f,
            f ∈ fst (detect config result)
            /\ service_principal_id f = br_sp_id e
            /\ severity f = "High").
Proof.
  unfold get_blast_radius_report. cbv zeta. rewrite sorted_by_desc_perm.
  intros (finding & sp & Hfind & _ & _ & ->)%blast_radius_loop_entry.
  set (id := br_sp_id (blast_radius_entry (sp_map_of sps) finding sp)) in *.
  change (br_severity (blast_radius_entry (sp_map_of sps) finding sp))
    with (severity finding).
  pose proof (find_some _ _ Hfind) as [Hin Hid].
  apply list_elem_of_In in Hin. apply String.eqb_eq in Hid.
  assert (Hsev : forall f, f ∈ fst (detect config result) ->
                           severity f = "High" \/ severity f = "Medium").
  { intros f. rewrite detect_raw, sorted_by_perm. intros Hf.
    destruct (raw_findings_about config result f Hf)
      as (_ & _ & _ & _ & _ & _ & _ & _ & [[Hhigh _]|Hmedium]);
      [by left | by right]. }
  split; [by apply Hsev|]. split.
  - intros Hhigh. by exists finding.
  - intros (f & Hf & Hfid & Hhigh).
    rewrite detect_high_medium in Hfind, Hf.
    rewrite find_app_first in Hfind.
    destruct (find _ (filter (fun f => severity f = "High") _))
      as [first|] eqn:Hfirst.
    + injection Hfind as <-. apply find_some in Hfirst as [Hfirst _].
      by apply list_elem_of_In, list_elem_of_filter in Hfirst as [Hfirst _].
    + apply elem_of_app in Hf as [Hf|Hf].
      * eapply find_none in Hfirst; [|by apply list_elem_of_In].
        simpl in Hfirst. rewrite Hfid, String.eqb_refl in Hfirst.
        discriminate.
      * apply list_elem_of_filter in Hf as [Hmedium _]. congruence.
Qed.

(** The one identity of the run on [mail_reader "Mail.Read"] has High and
    Medium findings; its entry is High. *)
Lemma blast_radius_of_detect_takes_highest_severity_witness :
  exists e,
    e ∈ get_blast_radius_report
          (fst (detect (default_config (F:=float))
                  (result_of [mail_reader "Mail.Read"])))
          [mail_reader "Mail.Read"]
    /\ br_sp_id e = "sp-app-reader"
    /\ br_severity e = "High"
    /\ (br_severity e = "High" \/ br_severity e = "Medium").
Proof.
  pose proof (blast_radius_of_detect_takes_highest_severity
                (default_config (F:=float))
                (result_of [mail_reader "Mail.Read"])
                [mail_reader "Mail.Read"]) as Hentry.
  destruct (get_blast_radius_report _ _) as [|e l] eqn:Hreport;
    [vm_compute in Hreport; discriminate|].
  exists e. split; [apply list_elem_of_here|].
  split; [vm_compute in Hreport; by injection Hreport as <- _|].
  split; [vm_compute in Hreport; by injection Hreport as <- _|].
  apply Hentry, list_elem_of_here.
Defined.

(** ** Credential expiry findings *)

Lemma insert_by_map {A B} (f : A -> B) (key : A -> Z) (key' : B -> Z)
    (x : A) (l : list A) :
  (forall x, key' (f x) = key x) ->
  map f (insert_by key x l) = insert_by key' (f x) (map f l).
Proof.
  intros Hkey. induction l as [|y l IH]; [reflexivity|].
  simpl. rewrite !Hkey. destruct (key y <=? key x); simpl; [|reflexivity].
  by rewrite IH.
Qed.

Lemma sorted_by_map {A B} (f : A -> B) (key : A -> Z) (key' : B -> Z)
    (l : list A) :
  (forall x, key' (f x) = key x) ->
  map f (sorted_by key l) = sorted_by key' (map f l).
Proof.
  intros Hkey. unfold sorted_by.
  assert (Hgen : forall acc,
            map f (foldl (fun acc x => insert_by key x acc) acc l)
            = foldl (fun acc x => insert_by key' x acc) (map f acc)
                (map f l)).
  { induction l as [|x l IH]; intros acc; simpl; [reflexivity|].
    by rewrite IH, (insert_by_map f key key'). }
  apply Hgen.
Qed.

Lemma elem_of_find_credential_findings {F} (config : Config F)
    (applications : list Application) (f : CredentialExpiryFinding) :
  f ∈ _find_credential_findings config applications
  <-> exists app cred,
        app ∈ applications
        /\ cred ∈ all_credentials app
        /\ cred_days_until_expiry cred = Some (expires_in_days f)
        /\ 0 <= expires_in_days f
           <= credential_expiry_low (thresholds config)
        /\ f = {| cef_app_id := app_app_id app;
                  cef_app_name := app_display_name app;
                  cef_credential_type := cred_credential_type cred;
                  cef_credential_name := cred_display_name cred;
                  expires_in_days := expires_in_days f;
                  cef_severity :=
                    if expires_in_days f
                       <=? credential_expiry_critical (thresholds config)
                    then "Critical"
                    else if expires_in_days f
                            <=? credential_expiry_high (thresholds config)
                    then "High"
                    else if expires_in_days f
                            <=? credential_expiry_medium (thresholds config)
                    then "Medium"
                    else "Low" |}.
Proof.
  unfold _find_credential_findings. cbv zeta.
  rewrite sorted_by_perm, elem_of_flat_map. split.
  - intros (app & Happ & (cred & Hcred & Hsome)%list_elem_of_omap).
    exists app, cred. unfold is_expired in Hsome.
    destruct (cred_days_until_expiry cred) as [days|] eqn:Hdays;
      [|discriminate].
    destruct (Z.ltb_spec days 0); [discriminate|].
    destruct (Z.gtb_spec days (credential_expiry_low (thresholds config)));
      [discriminate|].
    injection Hsome as <-. simpl. by repeat split.
  - intros (app & cred & Happ & Hcred & Hdays & [Hlo Hhi] & Heq).
    exists app. split; [exact Happ|]. apply list_elem_of_omap.
    exists cred. split; [exact Hcred|]. unfold is_expired. rewrite Hdays.
    destruct (Z.ltb_spec (expires_in_days f) 0); [lia|].
    destruct (Z.gtb_spec (expires_in_days f)
                (credential_expiry_low (thresholds config))); [lia|].
    f_equal. by symmetry.
Qed.

(** X23. [_find_credential_findings] lists, soonest first, one finding for
    each credential of the applications that ends between today and the
    configured low threshold, and nothing else: a credential without an
    end date, an expired one or one further ahead is never reported.  The
    severity is the first of Critical, High, Medium whose threshold the
    days remaining do not exceed, and Low otherwise. *)
Theorem _find_credential_findings_spec {F} (config : Config F)
    (applications : list Application) :
  ascending expires_in_days (_find_credential_findings config applications)
  /\ (forall f,
        f ∈ _find_credential_findings config applications ->
        let days := expires_in_days f in
        0 <= days <= credential_expiry_low (thresholds config)
        /\ (exists app cred,
              app ∈ applications
              /\ cred ∈ all_credentials app
              /\ cred_days_until_expiry cred = Some days
              /\ is_expired cred = false
              /\ cef_app_id f = app_app_id app
              /\ cef_app_name f = app_display_name app
              /\ cef_credential_type f = cred_credential_type cred
              /\ cef_credential_name f = cred_display_name cred)
        /\ (cef_severity f = "Critical"
            <-> days <= credential_expiry_critical (thresholds config))
        /\ (cef_severity f = "High"
            <-> credential_expiry_critical (thresholds config) < days
                /\ days <= credential_expiry_high (thresholds config))
        /\ (cef_severity f = "Medium"
            <-> credential_expiry_critical (thresholds config) < days
                /\ credential_expiry_high (thresholds config) < days
                /\ days <= credential_expiry_medium (thresholds config))
        /\ (cef_severity f = "Low"
            <-> credential_expiry_critical (thresholds config) < days
                /\ credential_expiry_high (thresholds config) < days
                /\ credential_expiry_medium (thresholds config) < days))
  /\ (forall app cred days,
        app ∈ applications ->
        cred ∈ all_credentials app ->
        cred_days_until_expiry cred = Some days ->
        0 <= days <= credential_expiry_low (thresholds config) ->
        exists f,
          f ∈ _find_credential_findings config applications
          /\ expires_in_days f = days
          /\ cef_app_id f = app_app_id app
          /\ cef_credential_name f = cred_display_name cred).
Proof.
  split; [apply sorted_by_sorted|]. split.
  - intros f (app & cred & Happ & Hcred & Hdays & Hrange & Heq)
             %elem_of_find_credential_findings.
    cbv zeta. split; [exact Hrange|]. split.
    + exists app, cred. rewrite Heq. simpl. repeat split; try done.
      unfold is_expired. rewrite Hdays. apply Z.ltb_ge. lia.
    + rewrite Heq. simpl.
      destruct (Z.leb_spec (expires_in_days f)
                  (credential_expiry_critical (thresholds config)));
        [repeat split; first [done | lia]|].
      destruct (Z.leb_spec (expires_in_days f)
                  (credential_expiry_high (thresholds config)));
        [repeat split; first [done | lia]|].
      destruct (Z.leb_spec (expires_in_days f)
                  (credential_expiry_medium (thresholds config)));
        repeat split; first [done | lia].
  - intros app cred days Happ Hcred Hdays Hrange.
    eexists {| expires_in_days := days |}.
    split; [|simpl; repeat split; reflexivity].
    apply elem_of_find_credential_findings. exists app, cred. simpl.
    repeat split; first [done | lia].
Qed.

Lemma omap_expiring_agree {F} (config : Config F) (app : Application)
    (creds : list Credential) :
  credential_expiry_low (thresholds config) = 90 ->
  map (fun f => (cef_credential_name f, expires_in_days f))
    (omap
       (fun cred =>
          match cred_days_until_expiry cred with
          | None => None
          | Some days =>
              if is_expired cred then None
              else if days >? credential_expiry_low (thresholds config)
              then None
              else
                Some {| cef_app_id := app_app_id app;
                        cef_app_name := app_display_name app;
                        cef_credential_type := cred_credential_type cred;
                        cef_credential_name := cred_display_name cred;
                        expires_in_days := days;
                        cef_severity :=
                          if days
                             <=? credential_expiry_critical (thresholds config)
                          then "Critical"
                          else if days
                                  <=? credential_expiry_high
                                        (thresholds config)
                          then "High"
                          else if days
                                  <=? credential_expiry_medium
                                        (thresholds config)
                          then "Medium"
                          else "Low" |}
          end)
       creds)
  = map (fun x => (cred_display_name (fst x), snd x))
      (omap (fun cred =>
               match cred_days_until_expiry cred with
               | Some days =>
                   if (0 <=? days) && (days <=? 90) then Some (cred, days)
                   else None
               | None => None
               end)
         creds).
Proof.
  intros ->. induction creds as [|cred creds IH]; [reflexivity|].
  cbn [omap list_omap]. unfold is_expired at 1.
  destruct (cred_days_until_expiry cred) as [days|]; [|exact IH].
  destruct (Z.ltb_spec days 0), (Z.leb_spec 0 days); try lia;
    [exact IH|].
  destruct (Z.gtb_spec days 90), (Z.leb_spec days 90); try lia;
    [exact IH|].
  cbn [andb map]. simpl. by rewrite <- IH.
Qed.

(** X24. When the configured low threshold is the 90 days that
    [Application.expiring_credentials] has built in, the findings of
    [_find_credential_findings] for one application are its
    [expiring_credentials]: the same credentials with the same days
    remaining, in the same order. *)
Theorem _find_credential_findings_agrees_with_expiring_credentials
    {F} (config : Config F) (app : Application) :
  credential_expiry_low (thresholds config) = 90 ->
  map (fun f => (cef_credential_name f, expires_in_days f))
    (_find_credential_findings config [app])
  = map (fun x => (cred_display_name (fst x), snd x))
      (expiring_credentials app).
Proof.
  intros Hlow. unfold _find_credential_findings, expiring_credentials.
  cbv zeta. cbn [flat_map]. rewrite app_nil_r.
  rewrite (sorted_by_map _ expires_in_days snd) by done.
  rewrite (sorted_by_map (fun x => (cred_display_name (fst x), snd x))
             snd snd) by done.
  f_equal. by apply omap_expiring_agree.
Qed.

(** Of the four credentials of [rotating_app] the two ending in 3 and in
    45 days are reported. *)
Lemma _find_credential_findings_agrees_with_expiring_credentials_witness :
  map (fun f => (cef_credential_name f, expires_in_days f))
    (_find_credential_findings (default_config (F:=float)) [rotating_app])
  = map (fun x => (cred_display_name (fst x), snd x))
      (expiring_credentials rotating_app)
  /\ map (fun f => (cef_credential_name f, expires_in_days f,
                    cef_severity f))
       (_find_credential_findings (default_config (F:=float))
          [rotating_app])
     = [(Some "soon", 3, "Critical"); (Some "later", 45, "Medium")].
Proof.
  split; [|reflexivity].
  apply _find_credential_findings_agrees_with_expiring_credentials.
  reflexivity.
Defined.

(** X25. The [expiring_credentials_30_days] statistic counts the findings
    against a fixed 30 days.  It is the number of Critical and High
    findings when the configured high threshold is 30 and the critical one
    is not above it. *)
Theorem expiring_credentials_30_days_counts_critical_and_high
    {F} (config : Config F) (applications : list Application) :
  credential_expiry_high (thresholds config) = 30 ->
  credential_expiry_critical (thresholds config) <= 30 ->
  expiring_credentials_30_days (_find_credential_findings config applications)
  = length
      (filter (fun f => cef_severity f = "Critical" \/ cef_severity f = "High")
         (_find_credential_findings config applications)).
Proof.
  intros Hhigh Hcritical. unfold expiring_credentials_30_days. f_equal.
  apply filter_ext_Forall, Forall_forall.
  intros f (app & cred & _ & _ & _ & _ & Heq)
           %elem_of_find_credential_findings.
  rewrite Heq. simpl. rewrite Hhigh.
  destruct (Z.leb_spec (expires_in_days f)
              (credential_expiry_critical (thresholds config)));
    [split; [by left | lia]|].
  destruct (Z.leb_spec (expires_in_days f) 30); [split; [by right | lia]|].
  split; [lia|].
  destruct (expires_in_days f
            <=? credential_expiry_medium (thresholds config));
    by intros [|].
Qed.

(** With the default thresholds one of the two findings of [rotating_app]
    is counted. *)
Lemma expiring_credentials_30_days_counts_critical_and_high_witness :
  expiring_credentials_30_days
    (_find_credential_findings (default_config (F:=float)) [rotating_app])
  = 1%nat.
Proof.
  rewrite expiring_credentials_30_days_counts_critical_and_high;
    [reflexivity | reflexivity | vm_compute; discriminate].
Defined.

(** ** Classification of an identity *)

Lemma opt_eqb_eq (a b : option string) : opt_eqb a b = true <-> a = b.
Proof.
  destruct a as [x|], b as [y|]; simpl; try (split; congruence).
  rewrite String.eqb_eq. split; congruence.
Qed.

Lemma opt_eqb_refl (a : option string) : opt_eqb a a = true.
Proof. by apply opt_eqb_eq. Qed.

(** X26. [_classify_app_type] decides in this order.  An identity is
    first-party Microsoft exactly when its verified publisher id is
    Microsoft's or its owner organisation is Microsoft's tenant, whatever
    the collector's tenant is.  Otherwise it is tenant owned when the owner
    organisation is the collector's non-empty tenant id, third-party
    multi-tenant when it has another non-empty owner organisation, and
    external unknown when the owner organisation is missing or empty. *)
Theorem _classify_app_type_spec (tenant_id : string)
    (verified_publisher : option (option string))
    (app_owner_org_id : option string) :
  let first_party :=
    verified_publisher = Some (Some MICROSOFT_PUBLISHER_ID)
    \/ app_owner_org_id = Some MICROSOFT_TENANT_ID in
  let type := _classify_app_type tenant_id verified_publisher
                app_owner_org_id in
  (type = AppType.FIRST_PARTY_MICROSOFT <-> first_party)
  /\ (type = AppType.TENANT_OWNED
      <-> ~ first_party
          /\ tenant_id <> EmptyString /\ app_owner_org_id = Some tenant_id)
  /\ (type = AppType.THIRD_PARTY_MULTI_TENANT
      <-> ~ first_party
          /\ exists owner,
               app_owner_org_id = Some owner
               /\ owner <> EmptyString /\ owner <> tenant_id)
  /\ (type = AppType.EXTERNAL_UNKNOWN
      <-> ~ first_party
          /\ (app_owner_org_id = None \/ app_owner_org_id = Some EmptyString)).
Proof.
  cbv zeta. unfold _classify_app_type.
  destruct (match verified_publisher with
            | Some publisher_id =>
                opt_eqb publisher_id (Some MICROSOFT_PUBLISHER_ID)
            | None => false
            end) eqn:Hpublisher.
  { assert (verified_publisher = Some (Some MICROSOFT_PUBLISHER_ID)) as ->.
    { destruct verified_publisher as [p|]; [|discriminate].
      by apply opt_eqb_eq in Hpublisher as ->. }
    repeat split; try done; try (by left);
      intros [Hfirst _]; exfalso; apply Hfirst; by left. }
  assert (Hnot : verified_publisher <> Some (Some MICROSOFT_PUBLISHER_ID)).
  { intros ->. by rewrite opt_eqb_refl in Hpublisher. }
  destruct (opt_eqb app_owner_org_id (Some MICROSOFT_TENANT_ID)) eqn:Howner.
  { apply opt_eqb_eq in Howner as ->.
    repeat split; try done; try (by right);
      intros [Hfirst _]; exfalso; apply Hfirst; by right. }
  assert (Hnot' : app_owner_org_id <> Some MICROSOFT_TENANT_ID).
  { intros ->. by rewrite opt_eqb_refl in Howner. }
  assert (Hfirst : ~ (verified_publisher = Some (Some MICROSOFT_PUBLISHER_ID)
                      \/ app_owner_org_id = Some MICROSOFT_TENANT_ID))
    by tauto.
  destruct (nonempty tenant_id && opt_eqb app_owner_org_id (Some tenant_id))
    eqn:Htenant.
  { apply andb_true_iff in Htenant as [Hne ->%opt_eqb_eq].
    assert (H : tenant_id <> EmptyString) by (by destruct tenant_id).
    repeat split; try done; try tauto.
    - intros (_ & owner & [= <-] & _ & Hother). by destruct Hother.
    - intros (_ & [[=]|[= Heq]]). by destruct H. }
  destruct (match app_owner_org_id with
            | Some owner => nonempty owner
            | None => false
            end
            && negb (opt_eqb app_owner_org_id (Some tenant_id))) eqn:Hthird.
  { apply andb_true_iff in Hthird as [Hne Hother].
    destruct app_owner_org_id as [owner|]; [|discriminate].
    assert (H : owner <> EmptyString) by (by destruct owner).
    assert (H0 : owner <> tenant_id).
    { intros ->. by rewrite opt_eqb_refl in Hother. }
    repeat split; try done; try tauto.
    - intros (_ & _ & [= Heq]). by destruct H0.
    - by exists owner.
    - intros (_ & [[=]|[= Heq]]). by destruct H. }
  repeat split; try done; try tauto.
  - intros (_ & Hne & ->).
    rewrite opt_eqb_refl, andb_true_r in Htenant.
    by destruct tenant_id.
  - intros (_ & owner & -> & Hne & Hother). simpl in Hthird.
    destruct (String.eqb_spec owner tenant_id); [done|].
    by destruct owner.
  - destruct app_owner_org_id as [[|a owner]|]; [by right | | by left].
    exfalso.
    destruct (opt_eqb (Some (String a owner)) (Some tenant_id)) eqn:Hsame;
      [|discriminate].
    apply opt_eqb_eq in Hsame as [= <-]. discriminate.
Qed.

(** * Binary64 arithmetic *)

(** ** Digits and shifts *)

Lemma digits2_pos_size (p : positive) : digits2_pos p = Pos.size p.
Proof. induction p as [p IH|p IH|]; simpl; by rewrite ?IH. Qed.

Lemma digits2_pos_log2 (p : positive) :
  Zpos (digits2_pos p) = Z.log2 (Zpos p) + 1.
Proof.
  rewrite digits2_pos_size. destruct p as [p|p|]; simpl; lia.
Qed.

Lemma digits2_pos_bounds (p : positive) :
  2 ^ (Zpos (digits2_pos p) - 1) <= Zpos p < 2 ^ Zpos (digits2_pos p).
Proof.
  rewrite digits2_pos_log2.
  pose proof (Z.log2_spec (Zpos p) ltac:(lia)) as Hspec.
  replace (Z.log2 (Z.pos p) + 1 - 1) with (Z.log2 (Zpos p)) by lia.
  replace (Z.log2 (Z.pos p) + 1) with (Z.succ (Z.log2 (Zpos p))) by lia.
  exact Hspec.
Qed.

Lemma digits2_pos_unique (p : positive) (d : Z) :
  2 ^ (d - 1) <= Zpos p < 2 ^ d -> Zpos (digits2_pos p) = d.
Proof.
  intros Hd. rewrite digits2_pos_log2.
  assert (0 < d).
  { destruct (Z.lt_ge_cases 0 d) as [|Hneg]; [assumption|].
    assert (2 ^ d <= 2 ^ 0) by (apply Z.pow_le_mono_r; lia).
    simpl in *. lia. }
  rewrite (Z.log2_unique (Zpos p) (d - 1)); [lia | lia|].
  replace (Z.succ (d - 1)) with d by lia. exact Hd.
Qed.

Lemma digits2_pos_mul_pow2 (p q : positive) (j : Z) :
  0 <= j -> Zpos q = Zpos p * 2 ^ j ->
  Zpos (digits2_pos q) = Zpos (digits2_pos p) + j.
Proof.
  intros Hj Hq. rewrite !digits2_pos_log2, Hq.
  rewrite Z.log2_mul_pow2 by lia. lia.
Qed.

Lemma iter_xO_pow2 (p n : positive) :
  Zpos (Pos.iter xO p n) = Zpos p * 2 ^ Zpos n.
Proof.
  induction n as [|n IH] using Pos.peano_ind.
  - simpl. lia.
  - rewrite Pos.iter_succ, Pos2Z.inj_xO, IH, Pos2Z.inj_succ.
    rewrite Z.pow_succ_r by lia. lia.
Qed.

Lemma iter_pos_iter {A} (f : A -> A) (n : positive) (x : A) :
  SpecFloat.iter_pos f n x = Pos.iter f x n.
Proof.
  revert x. induction n as [n IH|n IH|]; intros x; simpl.
  - rewrite !IH. by rewrite <- !Pos.iter_swap.
  - by rewrite !IH.
  - reflexivity.
Qed.

Lemma shr_1_double (z : Z) :
  0 <= z ->
  shr_1 {| shr_m := 2 * z; shr_r := false; shr_s := false |}
  = {| shr_m := z; shr_r := false; shr_s := false |}.
Proof. intros Hz. destruct z as [|p|p]; [reflexivity | reflexivity | lia]. Qed.

(** Shifting out [n] zero bits is exact. *)
Lemma shr_exact (z : Z) (n : positive) :
  0 <= z ->
  SpecFloat.iter_pos shr_1 n
    {| shr_m := z * 2 ^ Zpos n; shr_r := false; shr_s := false |}
  = {| shr_m := z; shr_r := false; shr_s := false |}.
Proof.
  intros Hz. rewrite iter_pos_iter.
  induction n as [|n IH] using Pos.peano_ind.
  - simpl. replace (z * 2 ^ 1) with (2 * z) by lia. by apply shr_1_double.
  - rewrite Pos.iter_succ_r, Pos2Z.inj_succ, Z.pow_succ_r by lia.
    replace (z * (2 * 2 ^ Z.pos n)) with (2 * (z * 2 ^ Zpos n)) by lia.
    rewrite shr_1_double by nia. exact IH.
Qed.

Lemma shr_1_m (mrs : shr_record) :
  0 <= shr_m mrs -> shr_m (shr_1 mrs) = shr_m mrs / 2.
Proof.
  destruct mrs as [m r s]. cbn [shr_m]. intros Hm.
  destruct m as [|[p|p|]|p]; cbn [shr_1 shr_m]; try lia.
  - reflexivity.
  - apply (Z.div_unique _ 2 _ 1); lia.
  - apply (Z.div_unique _ 2 _ 0); lia.
  - reflexivity.
Qed.

(** Shifting [n] bits out truncates the mantissa. *)
Lemma shr_m_iter (mrs : shr_record) (n : positive) :
  0 <= shr_m mrs ->
  shr_m (SpecFloat.iter_pos shr_1 n mrs) = shr_m mrs / 2 ^ Zpos n.
Proof.
  intros Hm. rewrite iter_pos_iter.
  induction n as [|n IH] using Pos.peano_ind.
  - simpl. rewrite shr_1_m by exact Hm. f_equal.
  - rewrite Pos.iter_succ, shr_1_m, IH.
    + rewrite Pos2Z.inj_succ, Z.pow_succ_r by lia.
      rewrite Z.div_div by (try apply Z.pow_pos_nonneg; lia).
      f_equal. lia.
    + rewrite IH. apply Z.div_pos; [exact Hm | apply Z.pow_pos_nonneg; lia].
Qed.

(** ** Rounding a representable number *)

Lemma fexp_normal (e : Z) : -1021 <= e -> fexp prec emax e = e - 53.
Proof. unfold fexp, SpecFloat.emin, prec, emax. lia. Qed.

Lemma binary_round_aux_canonical (s : bool) (m : positive) (e : Z) :
  Zpos (digits2_pos m) = 53 -> -1074 <= e <= 971 ->
  binary_round_aux prec emax s (Zpos m) e loc_Exact = S754_finite s m e.
Proof.
  intros Hd He. unfold binary_round_aux, shr_fexp.
  cbn [Zdigits2 shr_record_of_loc]. rewrite Hd, fexp_normal by lia.
  replace (53 + e - 53 - e) with 0 by lia.
  cbn [shr shr_m loc_of_shr_record round_nearest_even Zdigits2
       shr_record_of_loc].
  rewrite Hd, fexp_normal by lia.
  replace (53 + e - 53 - e) with 0 by lia. cbn [shr shr_m].
  unfold prec, emax. by rewrite (proj2 (Z.leb_le e (1024 - 53))) by lia.
Qed.

Lemma binary_round_aux_shift (s : bool) (m q n : positive) (e : Z) :
  Zpos (digits2_pos m) = 53 -> Zpos q = Zpos m * 2 ^ Zpos n ->
  -1074 <= e + Zpos n <= 971 ->
  binary_round_aux prec emax s (Zpos q) e loc_Exact
  = S754_finite s m (e + Zpos n).
Proof.
  intros Hd Hq He. unfold binary_round_aux, shr_fexp.
  cbn [Zdigits2 shr_record_of_loc].
  rewrite (digits2_pos_mul_pow2 m q (Zpos n)) by (lia || exact Hq).
  rewrite Hd, fexp_normal by lia.
  replace (53 + Z.pos n + e - 53 - e) with (Zpos n) by lia.
  cbn [shr]. rewrite Hq, shr_exact by lia.
  cbn [shr_m loc_of_shr_record round_nearest_even Zdigits2
       shr_record_of_loc].
  rewrite Hd, fexp_normal by lia.
  replace (53 + (e + Z.pos n) - 53 - (e + Z.pos n)) with 0 by lia.
  cbn [shr shr_m].
  unfold prec, emax.
  by rewrite (proj2 (Z.leb_le (e + Zpos n) (1024 - 53))) by lia.
Qed.

Lemma binary_round_exact (s : bool) (p q : positive) (j e : Z) :
  Zpos (digits2_pos p) <= 53 -> 0 <= j -> Zpos q = Zpos p * 2 ^ j ->
  -1074 <= e - (53 - Zpos (digits2_pos p)) <= 971 ->
  binary_round prec emax s q (e - j) = canonical s p e.
Proof.
  unfold canonical. set (d := Zpos (digits2_pos p)).
  intros Hd Hj Hq He. unfold binary_round.
  rewrite (digits2_pos_mul_pow2 p q j Hj Hq). fold d.
  replace (d + j + (e - j)) with (d + e) by lia.
  rewrite fexp_normal by lia.
  set (m := Z.to_pos (Zpos p * 2 ^ (53 - d))).
  assert (Hpow : 0 < 2 ^ (53 - d)) by (apply Z.pow_pos_nonneg; lia).
  assert (Hm : Zpos m = Zpos p * 2 ^ (53 - d)).
  { unfold m. rewrite Z2Pos.id; [reflexivity | nia]. }
  assert (Hdm : Zpos (digits2_pos m) = 53).
  { rewrite (digits2_pos_mul_pow2 p m (53 - d)) by (lia || exact Hm).
    fold d. lia. }
  unfold shl_align.
  destruct (d + e - 53 - (e - j)) as [|k|k] eqn:Hk.
  - assert (q = m) as ->.
    { apply Pos2Z.inj. rewrite Hq, Hm. f_equal. f_equal. lia. }
    replace (e - j) with (e - (53 - d)) by lia.
    apply binary_round_aux_canonical; [exact Hdm | lia].
  - replace (e - (53 - d)) with (e - j + Zpos k) by lia.
    apply binary_round_aux_shift; [exact Hdm | | lia].
    rewrite Hq, Hm, <- Z.mul_assoc, <- Z.pow_add_r by lia.
    f_equal. f_equal. lia.
  - assert (Pos.iter xO q k = m) as ->.
    { apply Pos2Z.inj. rewrite iter_xO_pow2, Hq, Hm.
      rewrite <- Z.mul_assoc, <- Z.pow_add_r by lia. f_equal. f_equal. lia. }
    replace (d + e - 53) with (e - (53 - d)) by lia.
    apply binary_round_aux_canonical; [exact Hdm | lia].
Qed.

(** ** Rounding in the normal range *)

Lemma round_nearest_even_range (m : Z) (l : location) :
  round_nearest_even m l = m \/ round_nearest_even m l = m + 1.
Proof.
  destruct l as [|[| |]]; simpl; auto. destruct (Z.even m); auto.
Qed.

(** Rounding a mantissa of [d] digits whose double is normal: the number
    is kept when it fits, and otherwise loses its low [d - 53] bits, is
    rounded up or down, and renormalised when it reaches [2 ^ 53]. *)
Lemma binary_round_aux_normal (s : bool) (m : positive) (e : Z) :
  let d := Zpos (digits2_pos m) in
  -1021 <= d + e ->
  (d <= 53
   /\ binary_round_aux prec emax s (Zpos m) e loc_Exact
      = if e <=? 971 then S754_finite s m e else S754_infinity s)
  \/ (53 < d
      /\ exists (m' : positive) (e' : Z),
           binary_round_aux prec emax s (Zpos m) e loc_Exact
           = (if e' <=? 971 then S754_finite s m' e' else S754_infinity s)
           /\ 2 ^ 52 <= Zpos m' < 2 ^ 53
           /\ ((e' = d + e - 53 /\ Zpos m / 2 ^ (d - 53) <= Zpos m')
               \/ e' = d + e - 52)).
Proof.
  intros d Hnormal. pose proof (digits2_pos_bounds m) as Hm. fold d in Hm.
  assert (Hd : 0 < d) by (unfold d; lia).
  destruct (Z.le_gt_cases d 53) as [Hfit|Hbig].
  - left. split; [exact Hfit|].
    unfold binary_round_aux, shr_fexp.
    cbn [Zdigits2 shr_record_of_loc]. fold d.
    rewrite fexp_normal by lia.
    assert (Hshr : forall mrs, shr mrs e (d + e - 53 - e) = (mrs, e)).
    { intros mrs. unfold shr.
      destruct (d + e - 53 - e) as [|k|k] eqn:Hk; [reflexivity | lia
                                                   | reflexivity]. }
    rewrite Hshr.
    cbn [shr_m loc_of_shr_record round_nearest_even Zdigits2
         shr_record_of_loc].
    fold d. rewrite fexp_normal by lia. rewrite Hshr. cbn [shr_m].
    reflexivity.
  - right. split; [exact Hbig|].
    unfold binary_round_aux, shr_fexp.
    cbn [Zdigits2 shr_record_of_loc]. fold d.
    rewrite fexp_normal by lia.
    destruct (d + e - 53 - e) as [|n|n] eqn:Hn; [lia | | lia].
    assert (Hnd : Zpos n = d - 53) by lia.
    cbn [shr].
    set (mrs := SpecFloat.iter_pos shr_1 n _).
    assert (Hmrs : shr_m mrs = Zpos m / 2 ^ Zpos n).
    { unfold mrs. rewrite shr_m_iter; [reflexivity | simpl; lia]. }
    assert (Hpow : 2 ^ d = 2 ^ 53 * 2 ^ Zpos n).
    { rewrite <- Z.pow_add_r by lia. f_equal. lia. }
    assert (Hpow' : 2 ^ (d - 1) = 2 ^ 52 * 2 ^ Zpos n).
    { rewrite <- Z.pow_add_r by lia. f_equal. lia. }
    assert (Hpos : 0 < 2 ^ Zpos n) by (apply Z.pow_pos_nonneg; lia).
    assert (Hm1 : 2 ^ 52 <= Zpos m / 2 ^ Zpos n < 2 ^ 53).
    { split.
      - apply Z.div_le_lower_bound; [exact Hpos | lia].
      - apply Z.div_lt_upper_bound; [exact Hpos | lia]. }
    set (m2 := round_nearest_even (shr_m mrs) (loc_of_shr_record mrs)).
    assert (Hm2 : Zpos m / 2 ^ Zpos n <= m2 <= Zpos m / 2 ^ Zpos n + 1).
    { unfold m2.
      destruct (round_nearest_even_range (shr_m mrs) (loc_of_shr_record mrs))
        as [-> | ->]; rewrite Hmrs; lia. }
    destruct m2 as [|p2|p2] eqn:Hp2; [lia | | lia].
    destruct (Z.eq_dec (Zpos p2) (2 ^ 53)) as [Htop|Hbelow].
    + assert (Hdigits : Zpos (digits2_pos p2) = 54).
      { apply digits2_pos_unique. rewrite Htop. simpl. lia. }
      cbn [Zdigits2 shr_record_of_loc]. rewrite Hdigits.
      rewrite fexp_normal by lia.
      replace (54 + (e + Z.pos n) - 53 - (e + Z.pos n)) with 1 by lia.
      cbn [shr SpecFloat.iter_pos].
      injection Htop as ->. cbn [shr_1 shr_m].
      exists 4503599627370496%positive, (e + Zpos n + 1).
      split; [reflexivity|]. split; [simpl; lia|]. right. lia.
    + assert (Hdigits : Zpos (digits2_pos p2) = 53).
      { apply digits2_pos_unique. simpl Z.sub. lia. }
      cbn [Zdigits2 shr_record_of_loc]. rewrite Hdigits.
      rewrite fexp_normal by lia.
      replace (53 + (e + Z.pos n) - 53 - (e + Z.pos n)) with 0 by lia.
      cbn [shr shr_m].
      exists p2, (e + Zpos n).
      split; [reflexivity|]. split; [lia|]. left. split; [lia|].
      rewrite <- Hnd. lia.
Qed.

(** ** Doubles from 100 on *)

Lemma above100_digits (m : positive) (e : Z) :
  above100 (Zpos m) e -> 7 <= Zpos (digits2_pos m) + e.
Proof.
  unfold above100. intros Habove.
  pose proof (digits2_pos_bounds m) as [_ Hm].
  set (d := Zpos (digits2_pos m)) in *.
  assert (Hd : 0 < d) by (unfold d; lia).
  destruct (Z.le_gt_cases e 0) as [He|He].
  - rewrite (Z.max_r 0 (- e)), (Z.max_l 0 e) in Habove by lia.
    assert (Hpos : 0 < 2 ^ (- e)) by (apply Z.pow_pos_nonneg; lia).
    assert (Hlt : 2 ^ (6 - e) < 2 ^ d).
    { replace (6 - e) with (6 + - e) by lia.
      rewrite Z.pow_add_r by lia. simpl (2 ^ 6). simpl (2 ^ 0) in Habove.
      lia. }
    apply Z.pow_lt_mono_r_iff in Hlt; lia.
  - rewrite (Z.max_l 0 (- e)), (Z.max_r 0 e) in Habove by lia.
    assert (Hpos : 0 < 2 ^ e) by (apply Z.pow_pos_nonneg; lia).
    assert (Hlt : 2 ^ 6 < 2 ^ (d + e)).
    { rewrite Z.pow_add_r by lia. simpl (2 ^ 6). simpl (2 ^ 0) in Habove.
      nia. }
    apply Z.pow_lt_mono_r_iff in Hlt; lia.
Qed.

Lemma above100_mono (m m' e : Z) :
  above100 m e -> m <= m' -> above100 m' e.
Proof.
  unfold above100. intros Habove Hle.
  assert (0 <= 2 ^ Z.max 0 e) by (apply Z.pow_nonneg; lia). nia.
Qed.

Lemma above100_shl (m e k : Z) :
  above100 m e -> 0 <= k -> 0 <= m -> above100 (m * 2 ^ k) (e - k).
Proof.
  unfold above100. intros Habove Hk Hm.
  destruct (Z.le_gt_cases e 0) as [He|He].
  - rewrite (Z.max_r 0 (- e)), (Z.max_l 0 e) in Habove by lia.
    rewrite (Z.max_r 0 (- (e - k))), (Z.max_l 0 (e - k)) by lia.
    replace (- (e - k)) with (- e + k) by lia.
    rewrite Z.pow_add_r by lia. simpl (2 ^ 0) in *.
    assert (0 <= 2 ^ k) by (apply Z.pow_nonneg; lia). nia.
  - rewrite (Z.max_l 0 (- e)), (Z.max_r 0 e) in Habove by lia.
    simpl (2 ^ 0) in Habove.
    destruct (Z.le_gt_cases (e - k) 0) as [Hek|Hek].
    + rewrite (Z.max_r 0 (- (e - k))), (Z.max_l 0 (e - k)) by lia.
      simpl (2 ^ 0).
      replace k with (e + - (e - k)) at 2 by lia.
      rewrite Z.pow_add_r by lia.
      assert (0 <= 2 ^ (- (e - k))) by (apply Z.pow_nonneg; lia). nia.
    + rewrite (Z.max_l 0 (- (e - k))), (Z.max_r 0 (e - k)) by lia.
      simpl (2 ^ 0).
      rewrite <- Z.mul_assoc, <- Z.pow_add_r by lia.
      replace (k + (e - k)) with e by lia. lia.
Qed.

Lemma binary_round_aux_ge100 (m : positive) (e : Z) :
  above100 (Zpos m) e ->
  ge100 (binary_round_aux prec emax false (Zpos m) e loc_Exact).
Proof.
  intros Habove. pose proof (above100_digits m e Habove) as Hdigits.
  destruct (binary_round_aux_normal false m e ltac:(lia))
    as [[Hfit ->]|(Hbig & m' & e' & -> & Hm' & Hcases)].
  - destruct (e <=? 971); [|exact I]. simpl.
    destruct (Z.eq_dec e (-46)) as [->|]; [|left; lia].
    right. split; [reflexivity|]. unfold above100 in Habove.
    change (Z.max 0 (- -46)) with 46 in Habove.
    change (Z.max 0 (-46)) with 0 in Habove.
    rewrite Z.pow_0_r in Habove. lia.
  - destruct (e' <=? 971); [|exact I]. simpl.
    destruct Hcases as [[-> Hdiv]| ->]; [|left; lia].
    destruct (Z.eq_dec (Z.pos (digits2_pos m) + e - 53) (-46)) as [Heq|];
      [|left; lia].
    right. split; [exact Heq|].
    etransitivity; [|exact Hdiv].
    apply Z.div_le_lower_bound; [apply Z.pow_pos_nonneg; lia|].
    unfold above100 in Habove.
    rewrite (Z.max_r 0 (- e)), (Z.max_l 0 e) in Habove by lia.
    simpl (2 ^ 0) in Habove.
    replace (- e) with (Z.pos (digits2_pos m) - 53 + 46) in Habove by lia.
    rewrite Z.pow_add_r in Habove by lia. lia.
Qed.

Lemma shl_align_spec (m : positive) (e e' : Z) :
  exists k, 0 <= k
            /\ Zpos (fst (shl_align m e e')) = Zpos m * 2 ^ k
            /\ snd (shl_align m e e') = e - k
            /\ (e' <= e -> k = e - e').
Proof.
  unfold shl_align. destruct (e' - e) as [|k|k] eqn:Hk.
  - exists 0. simpl. repeat split; lia.
  - exists 0. simpl. repeat split; lia.
  - exists (Zpos k). cbn [fst snd]. rewrite iter_xO_pow2.
    repeat split; lia.
Qed.

Lemma binary_round_ge100 (q : positive) (e : Z) :
  above100 (Zpos q) e -> ge100 (binary_round prec emax false q e).
Proof.
  intros Habove. unfold binary_round.
  destruct (shl_align_spec q e (fexp prec emax (Z.pos (digits2_pos q) + e)))
    as (k & Hk & Hfst & Hsnd & _).
  destruct (shl_align q e _) as [mz ez]. cbn [fst snd] in Hfst, Hsnd.
  apply binary_round_aux_ge100. rewrite Hfst, Hsnd.
  apply above100_shl; [exact Habove | exact Hk | lia].
Qed.

Lemma valid_normal (s : bool) (m : positive) (e : Z) :
  SpecFloat.valid_binary prec emax (S754_finite s m e) = true ->
  -1074 < e -> Zpos (digits2_pos m) = 53.
Proof.
  unfold SpecFloat.valid_binary, bounded, canonical_mantissa, fexp,
    SpecFloat.emin, prec, emax.
  intros [Hcanon _]%andb_prop He. apply Z.eqb_eq in Hcanon. lia.
Qed.

Lemma ge100_above100 (m : positive) (e : Z) :
  SpecFloat.valid_binary prec emax (S754_finite false m e) = true ->
  ge100 (S754_finite false m e) -> above100 (Zpos m) e.
Proof.
  intros Hvalid Hge. simpl in Hge.
  pose proof (valid_normal false m e Hvalid ltac:(lia)) as Hd.
  pose proof (digits2_pos_bounds m) as [Hm _]. rewrite Hd in Hm.
  change (53 - 1) with 52 in Hm. unfold above100.
  destruct Hge as [He|[-> Hge]].
  2:{ change (Z.max 0 (- -46)) with 46. change (Z.max 0 (-46)) with 0.
      rewrite Z.pow_0_r. lia. }
  destruct (Z.le_gt_cases e 0) as [Hneg|Hpos].
  - rewrite (Z.max_r 0 (- e)), (Z.max_l 0 e) by lia. rewrite Z.pow_0_r.
    assert (2 ^ (- e) <= 2 ^ 45) by (apply Z.pow_le_mono_r; lia).
    lia.
  - rewrite (Z.max_l 0 (- e)), (Z.max_r 0 e) by lia. rewrite Z.pow_0_r.
    assert (1 <= 2 ^ e) by (apply (Z.pow_le_mono_r 2 0 e); lia). nia.
Qed.

(** Adding a non-negative double to a double from 100 on. *)
Lemma SFadd_ge100 (x c : spec_float) :
  SpecFloat.valid_binary prec emax x = true ->
  ge100 x -> nonneg c -> ge100 (SFadd prec emax x c).
Proof.
  intros Hvalid Hx Hc.
  destruct x as [sx|[|]| |[|] mx ex]; try contradiction;
    destruct c as [sc|[|]| |[|] mc ec]; try contradiction;
    try exact Hx; try exact I.
  cbn [SFadd cond_Zopp].
  destruct (shl_align_spec mx ex (Z.min ex ec))
    as (kx & Hkx & Hfx & _ & Hkx').
  destruct (shl_align_spec mc ec (Z.min ex ec)) as (kc & Hkc & Hfc & _).
  specialize (Hkx' ltac:(lia)).
  set (ax := fst (shl_align mx ex (Z.min ex ec))) in *.
  set (ac := fst (shl_align mc ec (Z.min ex ec))) in *.
  change (Zpos ax + Zpos ac) with (Zpos (ax + ac)).
  cbn [binary_normalize]. apply binary_round_ge100.
  apply (above100_mono (Zpos ax)); [|lia].
  rewrite Hfx. replace (Z.min ex ec) with (ex - kx) by lia.
  apply above100_shl; [|exact Hkx | lia].
  by apply ge100_above100.
Qed.

(** ** Signs *)

Lemma binary_round_aux_sign (s : bool) (m e : Z) (l : location) :
  0 <= m ->
  match binary_round_aux prec emax s m e l with
  | S754_zero s' | S754_infinity s' | S754_finite s' _ _ => s' = s
  | S754_nan => False
  end.
Proof.
  intros Hm. unfold binary_round_aux, shr_fexp.
  assert (Hshr : forall mrs e n, 0 <= shr_m mrs -> 0 <= shr_m (fst (shr mrs e n))).
  { intros mrs e0 n Hmrs. unfold shr. destruct n as [|n|n]; cbn [fst];
      try exact Hmrs.
    rewrite shr_m_iter by exact Hmrs.
    apply Z.div_pos; [exact Hmrs | apply Z.pow_pos_nonneg; lia]. }
  set (n1 := fexp prec emax (Zdigits2 m + e) - e).
  pose proof (Hshr (shr_record_of_loc m l) e n1) as H1.
  destruct (shr (shr_record_of_loc m l) e n1) as [mrs1 e1]. cbn [fst] in H1.
  assert (Hm1 : 0 <= shr_m mrs1).
  { apply H1. by destruct l as [|[| |]]. }
  set (m2 := round_nearest_even (shr_m mrs1) (loc_of_shr_record mrs1)).
  assert (Hm2 : 0 <= m2).
  { unfold m2.
    destruct (round_nearest_even_range (shr_m mrs1) (loc_of_shr_record mrs1))
      as [-> | ->]; lia. }
  set (n2 := fexp prec emax (Zdigits2 m2 + e1) - e1).
  pose proof (Hshr (shr_record_of_loc m2 loc_Exact) e1 n2 Hm2) as H2.
  destruct (shr (shr_record_of_loc m2 loc_Exact) e1 n2) as [mrs2 e2].
  cbn [fst] in H2.
  destruct (shr_m mrs2) as [|p|p]; [reflexivity | | lia].
  by destruct (e2 <=? emax - prec).
Qed.

Lemma binary_round_aux_nonneg (m e : Z) (l : location) :
  0 <= m -> nonneg (binary_round_aux prec emax false m e l).
Proof.
  intros Hm. pose proof (binary_round_aux_sign false m e l Hm) as Hsign.
  destruct (binary_round_aux prec emax false m e l) as [s|s| |s ? ?];
    try contradiction; by subst s.
Qed.

Lemma binary_normalize_nonneg (m e : Z) :
  0 <= m -> nonneg (binary_normalize prec emax m e false).
Proof.
  intros Hm. destruct m as [|p|p]; [exact I | | lia].
  cbn [binary_normalize]. unfold binary_round.
  destruct (shl_align p e _) as [mz ez].
  apply binary_round_aux_nonneg. lia.
Qed.

(** The double of a positive integer is positive or [+inf]. *)
Lemma binary_normalize_positive (p : positive) :
  positive_double (binary_normalize prec emax (Zpos p) 0 false).
Proof.
  cbn [binary_normalize]. unfold binary_round.
  destruct (shl_align_spec p 0 (fexp prec emax (Z.pos (digits2_pos p) + 0)))
    as (k & Hk & Hfst & Hsnd & _).
  destruct (shl_align p 0 _) as [mz ez]. cbn [fst snd] in Hfst, Hsnd.
  pose proof (digits2_pos_mul_pow2 p mz k Hk Hfst) as Hd.
  assert (0 < Zpos (digits2_pos p)) by lia.
  destruct (binary_round_aux_normal false mz ez ltac:(lia))
    as [[_ ->]|(_ & m' & e' & -> & _)].
  - by destruct (ez <=? 971).
  - by destruct (e' <=? 971).
Qed.

Lemma SFmul_finite_nonneg (m : positive) (e : Z) (w : spec_float) :
  nonneg w -> nonneg (SFmul prec emax (S754_finite false m e) w).
Proof.
  intros Hw.
  destruct w as [sw|[|]| |[|] mw ew]; try contradiction; try exact I.
  cbn [SFmul xorb]. apply binary_round_aux_nonneg. lia.
Qed.

Lemma SFmul_nonneg_finite (x : spec_float) (m : positive) (e : Z) :
  nonneg x -> nonneg (SFmul prec emax x (S754_finite false m e)).
Proof.
  intros Hx. destruct x as [sx|[|]| |[|] mx ex]; try contradiction;
    try exact I.
  cbn [SFmul xorb]. apply binary_round_aux_nonneg. lia.
Qed.

Lemma binary_round_normal (s : bool) (q : positive) (e : Z) :
  -1021 <= Zpos (digits2_pos q) + e ->
  binary_round prec emax s q e = S754_infinity s
  \/ exists (m' : positive) (e' : Z),
       binary_round prec emax s q e = S754_finite s m' e'
       /\ Zpos (digits2_pos m') = 53 /\ -1074 <= e' <= 971.
Proof.
  intros Hnormal. unfold binary_round.
  destruct (shl_align_spec q e (fexp prec emax (Z.pos (digits2_pos q) + e)))
    as (k & Hk & Hfst & Hsnd & Hle).
  rewrite fexp_normal in * by exact Hnormal.
  destruct (shl_align q e _) as [mz ez]. cbn [fst snd] in Hfst, Hsnd.
  pose proof (digits2_pos_mul_pow2 q mz k Hk Hfst) as Hd.
  assert (Hdz : 53 <= Zpos (digits2_pos mz)).
  { destruct (Z.le_gt_cases (Zpos (digits2_pos q) + e - 53) e) as [Hs|Hs];
      [specialize (Hle Hs); lia|].
    unfold shl_align in *. lia. }
  destruct (binary_round_aux_normal s mz ez ltac:(lia))
    as [[Hfit ->]|(_ & m' & e' & -> & Hm' & Hcases)].
  - destruct (Z.leb_spec ez 971); [right | by left].
    exists mz, ez. split; [reflexivity|]. lia.
  - destruct (Z.leb_spec e' 971); [right | by left].
    exists m', e'. split; [reflexivity|].
    split; [apply digits2_pos_unique; exact Hm' | lia].
Qed.

Lemma valid_53 (s : bool) (m : positive) (e : Z) :
  Zpos (digits2_pos m) = 53 -> -1074 <= e <= 971 ->
  SpecFloat.valid_binary prec emax (S754_finite s m e) = true.
Proof.
  intros Hd He.
  unfold SpecFloat.valid_binary, bounded, canonical_mantissa, fexp,
    SpecFloat.emin, prec, emax.
  rewrite Hd. apply andb_true_intro. split; [apply Z.eqb_eq | apply Z.leb_le];
    lia.
Qed.

(** ** The operations of the scorer on doubles *)

Lemma leb_zero_nonneg (w : float) :
  PrimFloat.leb PrimFloat.zero w = true -> nonneg (Prim2SF w).
Proof.
  rewrite leb_spec.
  change (Prim2SF PrimFloat.zero) with (S754_zero false).
  destruct (Prim2SF w) as [s|[|]| |[|] m e]; simpl; try discriminate;
    by intros _.
Qed.

Lemma not_infinity (x : float) :
  PrimFloat.is_infinity x = false ->
  match Prim2SF x with S754_infinity _ => False | _ => True end.
Proof.
  unfold PrimFloat.is_infinity. rewrite FloatAxioms.eqb_spec, abs_spec.
  change (Prim2SF infinity) with (S754_infinity false).
  by destruct (Prim2SF x) as [s|[|]| |[|] m e].
Qed.

(** The double of a positive [int], when it has one. *)
Lemma of_int_positive (score : Z) (x : float) :
  0 < score -> Binary64.of_int score = Some x ->
  exists m e, Prim2SF x = S754_finite false m e.
Proof.
  intros Hpos. unfold Binary64.of_int, Binary64.of_Z.
  destruct score as [|p|p]; try lia.
  destruct (PrimFloat.is_infinity _) eqn:Hinf; [discriminate|].
  intros [= <-]. apply not_infinity in Hinf. revert Hinf.
  cbn [binary_normalize].
  destruct (binary_round_normal false p 0 ltac:(lia))
    as [->|(m & e & -> & Hd & He)].
  - change (Prim2SF (SF2Prim (S754_infinity false)))
      with (S754_infinity false). contradiction.
  - rewrite (Prim2SF_SF2Prim _ (valid_53 false m e Hd He)).
    intros _. by exists m, e.
Qed.

(** [score * weight] for a positive score and a non-negative weight. *)
Lemma imul_nonneg (score : Z) (w c : float) :
  0 < score -> nonneg (Prim2SF w) ->
  imul (F:=float) score w = Some c -> nonneg (Prim2SF c).
Proof.
  intros Hpos Hw. unfold imul. simpl.
  destruct (Binary64.of_int score) as [x|] eqn:Hx; [|discriminate].
  simpl. intros [= <-].
  destruct (of_int_positive score x Hpos Hx) as (m & e & Hm).
  rewrite mul_spec, Hm. by apply SFmul_finite_nonneg.
Qed.

Lemma fadd_ge100 (x c : float) :
  ge100 (Prim2SF x) -> nonneg (Prim2SF c) ->
  ge100 (Prim2SF (PrimFloat.add x c)).
Proof.
  intros Hx Hc. rewrite add_spec.
  apply SFadd_ge100; [apply Prim2SF_valid | exact Hx | exact Hc].
Qed.

Lemma SFsub_gt_nonneg (x : spec_float) :
  SpecFloat.valid_binary prec emax x = true ->
  SFltb (S754_finite false 7036874417766400 (-46)) x = true ->
  nonneg (SFsub prec emax x (S754_finite false 7036874417766400 (-46))).
Proof.
  intros Hvalid Hlt.
  destruct x as [s|[|]| |[|] m e]; try discriminate; try exact I.
  cbn [SFsub cond_Zopp]. apply binary_normalize_nonneg.
  unfold SFltb, SFcompare in Hlt.
  destruct (shl_align_spec m e (Z.min e (-46)))
    as (k & Hk & -> & _ & Hk').
  destruct (shl_align_spec 7036874417766400 (-46) (Z.min e (-46)))
    as (k0 & Hk0 & -> & _ & Hk0').
  specialize (Hk' ltac:(lia)). specialize (Hk0' ltac:(lia)).
  destruct (Z.compare_spec (-46) e) as [He|He|He]; try discriminate.
  - subst e. replace k with 0 by lia. replace k0 with 0 by lia.
    rewrite !Z.pow_0_r.
    assert (Hm : 7036874417766400 < Zpos m).
    { change (Pos.compare_cont Eq 7036874417766400 m)
        with (Pos.compare 7036874417766400 m) in Hlt.
      assert (Hc : (7036874417766400 ?= m)%positive = Lt).
      { destruct (7036874417766400 ?= m)%positive;
          [discriminate Hlt | reflexivity | discriminate Hlt]. }
      rewrite Pos.compare_lt_iff in Hc. lia. }
    lia.
  - pose proof (valid_normal false m e Hvalid ltac:(lia)) as Hd.
    pose proof (digits2_pos_bounds m) as [Hm _]. rewrite Hd in Hm.
    change (53 - 1) with 52 in Hm.
    replace k0 with 0 by lia. rewrite Z.pow_0_r.
    assert (2 ^ 1 <= 2 ^ k) by (apply Z.pow_le_mono_r; lia).
    change (2 ^ 1) with 2 in *. nia.
Qed.

(** The total returned for a weighted sum from 100 on. *)
Lemma calculate_total_tail_ge100 (total : float) :
  ge100 (Prim2SF total) ->
  (i ← int_of_float (cap (diminish total)); Some (Z.max 0 (Z.min 100 i)))
  = Some 100.
Proof.
  intros Htotal.
  assert (H100 : Prim2SF (Binary64.const 100)
                 = S754_finite false 7036874417766400 (-46))
    by (vm_compute; reflexivity).
  assert (H120 : Prim2SF (Binary64.const 120)
                 = S754_finite false 8444249301319680 (-46))
    by (vm_compute; reflexivity).
  assert (Hdim : ge100 (Prim2SF (diminish total))).
  { unfold diminish. simpl. unfold Binary64.gt.
    destruct (PrimFloat.ltb (Binary64.const 100) total) eqn:Hgt;
      [|exact Htotal].
    apply fadd_ge100; [rewrite H100; simpl; right; split; [reflexivity|lia]|].
    rewrite mul_spec.
    replace (Prim2SF (Binary64.const (1 # 10)))
      with (S754_finite false 7205759403792794 (-56))
      by (vm_compute; reflexivity).
    apply SFmul_nonneg_finite. rewrite sub_spec, H100.
    apply SFsub_gt_nonneg; [apply Prim2SF_valid|].
    by rewrite ltb_spec, H100 in Hgt. }
  revert Hdim. generalize (diminish total). clear total Htotal.
  intros y Hy. unfold cap. simpl. unfold Binary64.gt.
  destruct (PrimFloat.ltb (Binary64.const 120) y) eqn:Hgt.
  - replace (Binary64.trunc (Binary64.const 120)) with (Some 120)
      by (vm_compute; reflexivity).
    reflexivity.
  - rewrite ltb_spec, H120 in Hgt. unfold Binary64.trunc.
    destruct (Prim2SF y) as [s|[|]| |[|] m e]; try contradiction;
      try discriminate.
    simpl in Hy. unfold SFltb, SFcompare in Hgt.
    destruct (Z.compare_spec (-46) e) as [He|He|He]; try discriminate;
      [|lia].
    subst e. destruct Hy as [|[_ Hm]]; [lia|].
    assert (Hle : Zpos m <= 8444249301319680).
    { change (Pos.compare_cont Eq 8444249301319680 m)
        with (Pos.compare 8444249301319680 m) in Hgt.
      assert (Hc : (8444249301319680 ?= m)%positive <> Lt).
      { intros Hc. rewrite Hc in Hgt. discriminate Hgt. }
      rewrite Pos.compare_lt_iff in Hc. lia. }
    simpl. rewrite Z.shiftr_div_pow2 by lia. f_equal.
    assert (100 <= Zpos m / 2 ^ 46).
    { apply Z.div_le_lower_bound; lia. }
    change (- (-46)) with 46. lia.
Qed.

(** ** Doubles that hold a multiple of one half *)

Lemma digits2_pos_le_53 (p : positive) :
  Zpos p < 2 ^ 53 -> 1 <= Zpos (digits2_pos p) <= 53.
Proof.
  intros Hp. pose proof (digits2_pos_bounds p) as [Hlo _].
  split; [lia|].
  assert (Hlt : 2 ^ (Zpos (digits2_pos p) - 1) < 2 ^ 53) by lia.
  apply Z.pow_lt_mono_r_iff in Hlt; lia.
Qed.

Lemma half_pos (p : positive) :
  Zpos p < 2 ^ 53 -> half (Zpos p) = canonical false p (-1).
Proof.
  intros Hp. pose proof (digits2_pos_le_53 p Hp) as Hd.
  unfold half. cbn [binary_normalize].
  replace (-1) with (-1 - 0) at 1 by lia.
  apply binary_round_exact; [lia | lia | rewrite Z.pow_0_r; lia | lia].
Qed.

Lemma half_neg (p : positive) :
  Zpos p < 2 ^ 53 -> half (Zneg p) = canonical true p (-1).
Proof.
  intros Hp. pose proof (digits2_pos_le_53 p Hp) as Hd.
  unfold half. cbn [binary_normalize].
  replace (-1) with (-1 - 0) at 1 by lia.
  apply binary_round_exact; [lia | lia | rewrite Z.pow_0_r; lia | lia].
Qed.

Lemma binary_normalize_half (k j : Z) :
  Z.abs k < 2 ^ 53 -> 0 <= j ->
  binary_normalize prec emax (k * 2 ^ j) (-1 - j) false = half k.
Proof.
  intros Hk Hj.
  assert (Hpow : 0 < 2 ^ j) by (apply Z.pow_pos_nonneg; lia).
  destruct k as [|p|p].
  - reflexivity.
  - rewrite half_pos by lia.
    destruct (Zpos p * 2 ^ j) as [|q|q] eqn:Hq; try lia.
    cbn [binary_normalize]. pose proof (digits2_pos_le_53 p ltac:(lia)).
    apply binary_round_exact; lia.
  - rewrite half_neg by lia.
    destruct (Zneg p * 2 ^ j) as [|q|q] eqn:Hq; try lia.
    cbn [binary_normalize]. pose proof (digits2_pos_le_53 p ltac:(lia)).
    apply binary_round_exact; lia.
Qed.

Lemma cond_Zopp_mul (s : bool) (x y : Z) :
  cond_Zopp s x * y = cond_Zopp s (x * y).
Proof. destruct s; simpl; lia. Qed.

(** The aligned mantissa of a canonical half-integer. *)
Lemma canonical_aligned (p : positive) (e' : Z) :
  Zpos p < 2 ^ 53 ->
  let d := Zpos (digits2_pos p) in
  e' <= -1 - (53 - d) ->
  Zpos (fst (shl_align (Z.to_pos (Zpos p * 2 ^ (53 - d))) (-1 - (53 - d)) e'))
  = Zpos p * 2 ^ (-1 - e').
Proof.
  intros Hp d He. pose proof (digits2_pos_le_53 p Hp) as Hd. fold d in Hd.
  destruct (shl_align_spec (Z.to_pos (Zpos p * 2 ^ (53 - d)))
              (-1 - (53 - d)) e') as (k & Hk & -> & _ & Hk').
  specialize (Hk' He).
  assert (Hpow : 0 < 2 ^ (53 - d)) by (apply Z.pow_pos_nonneg; lia).
  rewrite Z2Pos.id by nia.
  rewrite <- Z.mul_assoc, <- Z.pow_add_r by lia. f_equal. f_equal. lia.
Qed.

Lemma SFadd_canonical (sa sb : bool) (pa pb : positive) :
  Zpos pa < 2 ^ 53 -> Zpos pb < 2 ^ 53 ->
  Z.abs (cond_Zopp sa (Zpos pa) + cond_Zopp sb (Zpos pb)) < 2 ^ 53 ->
  SFadd prec emax (canonical sa pa (-1)) (canonical sb pb (-1))
  = half (cond_Zopp sa (Zpos pa) + cond_Zopp sb (Zpos pb)).
Proof.
  intros Ha Hb Hsum. unfold canonical. cbn [SFadd].
  pose proof (digits2_pos_le_53 pa Ha) as Hda.
  pose proof (digits2_pos_le_53 pb Hb) as Hdb.
  set (ez := Z.min (-1 - (53 - Zpos (digits2_pos pa)))
                   (-1 - (53 - Zpos (digits2_pos pb)))).
  rewrite (canonical_aligned pa ez Ha) by (unfold ez; lia).
  rewrite (canonical_aligned pb ez Hb) by (unfold ez; lia).
  rewrite <- !cond_Zopp_mul, <- Z.mul_add_distr_r.
  rewrite <- (binary_normalize_half _ (-1 - ez) Hsum) by (unfold ez; lia).
  f_equal. lia.
Qed.

(** Addition is exact on half-integers below [2 ^ 52]. *)
Lemma SFadd_half (a b : Z) :
  Z.abs a < 2 ^ 53 -> Z.abs b < 2 ^ 53 -> Z.abs (a + b) < 2 ^ 53 ->
  SFadd prec emax (half a) (half b) = half (a + b).
Proof.
  intros Ha Hb Hsum.
  destruct a as [|pa|pa].
  - rewrite Z.add_0_l. destruct b as [|pb|pb]; [reflexivity | |].
    + rewrite half_pos by lia. reflexivity.
    + rewrite half_neg by lia. reflexivity.
  - rewrite (half_pos pa) by lia. destruct b as [|pb|pb].
    + rewrite Z.add_0_r, half_pos by lia. reflexivity.
    + rewrite half_pos by lia.
      apply (SFadd_canonical false false); simpl; lia.
    + rewrite half_neg by lia.
      apply (SFadd_canonical false true); simpl; lia.
  - rewrite (half_neg pa) by lia. destruct b as [|pb|pb].
    + rewrite Z.add_0_r, half_neg by lia. reflexivity.
    + rewrite half_pos by lia.
      apply (SFadd_canonical true false); simpl; lia.
    + rewrite half_neg by lia.
      apply (SFadd_canonical true true); simpl; lia.
Qed.

Lemma ge100_half (k : Z) : 200 < k < 2 ^ 53 -> ge100 (half k).
Proof.
  intros Hk. destruct k as [|p|p]; try lia.
  rewrite half_pos by lia. unfold canonical.
  pose proof (digits2_pos_le_53 p ltac:(lia)) as Hd.
  pose proof (digits2_pos_bounds p) as [_ Hhi].
  set (d := Zpos (digits2_pos p)) in *.
  assert (H8 : 8 <= d).
  { assert (Hlt : 2 ^ 7 < 2 ^ d) by lia.
    apply Z.pow_lt_mono_r_iff in Hlt; lia. }
  simpl. destruct (Z.eq_dec d 8) as [->|]; [|left; lia].
  right. split; [reflexivity|].
  change (53 - 8) with 45. rewrite Z2Pos.id by lia. lia.
Qed.

(** * The scorer on doubles *)

(** ** The deny list on doubles *)

Lemma weighted_sum_ge100 (fs : list (RiskFactor float)) (total t : float) :
  ge100 (Prim2SF total) ->
  Forall (positive_factor (fun w => nonneg (Prim2SF w))) fs ->
  weighted_sum total fs = Some t -> ge100 (Prim2SF t).
Proof.
  intros Htotal Hfs. revert total Htotal.
  induction Hfs as [|f fs [Hscore Hweight] _ IH]; intros total Htotal; simpl.
  - by intros [= <-].
  - intros Hsum. apply bind_Some in Hsum as (c & Hc & Hsum).
    apply (IH (PrimFloat.add total c)); [|exact Hsum].
    apply fadd_ge100; [exact Htotal|]. by eapply imul_nonneg.
Qed.

(** On doubles a factor list that starts with the deny factor and goes on
    with factors of positive score and non-negative weight totals 100. *)
Lemma calculate_total_denied (sp : ServicePrincipal)
    (others : list (RiskFactor float)) (total : Z) :
  Forall (positive_factor (fun w => nonneg (Prim2SF w))) others ->
  _calculate_total (deny_factor sp :: others) = Some total -> total = 100.
Proof.
  intros Hothers. unfold _calculate_total. cbn [weighted_sum].
  replace (imul (F:=float) (score (deny_factor (F:=float) sp))
             (weight (deny_factor sp)))
    with (Some 100%float) by (vm_compute; reflexivity).
  cbn [mbind option_bind].
  intros Htotal. apply bind_Some in Htotal as (t & Ht & Htotal).
  assert (Hge : ge100 (Prim2SF t)).
  { eapply weighted_sum_ge100; [|exact Hothers|exact Ht].
    replace (Prim2SF (fadd (fconst 0) 100%float))
      with (S754_finite false 7036874417766400 (-46))
      by (vm_compute; reflexivity).
    simpl. right. split; [reflexivity | lia]. }
  cbv zeta in Htotal. rewrite (calculate_total_tail_ge100 t Hge) in Htotal.
  by injection Htotal.
Qed.

Lemma deny_listed_binary64 (config : Config float) (rules : dict Rule)
    (sp : ServicePrincipal) (r : RiskScore float) :
  app_id sp ∈ denied_app_ids (allow_deny config) ->
  app_id sp ∉ allowed_app_ids (allow_deny config) ->
  weights_nonneg64 (scoring config) ->
  app_type sp <> AppType.FIRST_PARTY_MICROSOFT ->
  score_service_principal config rules sp = Some r ->
  total_score r = 100 /\ risk_level r = "Critical".
Proof.
  intros Hdenied Hallow (Hw1 & Hw2 & Hw3 & Hw4 & Hw5) Hfp Hscore.
  destruct (score_service_principal_factors config rules sp r Hallow Hscore)
    as (pf & Hpf & Hfactors & Htotal).
  rewrite bool_decide_eq_true_2 in Hfactors by exact Hdenied.
  set (W := fun w : float => nonneg (Prim2SF w)).
  assert (W1 : W (fconst 1)) by (unfold W; vm_compute; exact I).
  assert (W12 : W (fconst (12 # 10))) by (unfold W; vm_compute; exact I).
  apply leb_zero_nonneg in Hw1, Hw2, Hw3, Hw4, Hw5.
  assert (Hothers :
    Forall (positive_factor W)
      (pf ++ _score_trust_factors config sp
          ++ _score_ownership config rules sp
          ++ _score_activity config rules sp
          ++ _score_credentials config sp)).
  { repeat (apply Forall_app; split).
    - eapply _score_permissions_positive; [| |exact Hpf]; assumption.
    - apply _score_trust_factors_positive; assumption.
    - apply _score_ownership_positive; assumption.
    - apply _score_activity_positive; assumption.
    - apply _score_credentials_positive; assumption. }
  rewrite Hfactors in Htotal. simpl app in Htotal.
  assert (Hhundred : total_score r = 100)
    by (by eapply calculate_total_denied).
  split; [exact Hhundred|].
  rewrite (score_service_principal_level config rules sp r Hallow Hscore).
  by rewrite Hhundred.
Qed.

(** C5 fails for a negative weight: with an ownership weight of -10 a
    deny-listed tenant-owned identity without owners has the deny factor
    (100 * 1.0) and the ownership factor (10 * -10) and scores 0, level
    Low, on doubles. *)
Lemma deny_listed_negative_weight_counterexample :
  app_id orphan_principal
    ∈ denied_app_ids (allow_deny negative_owner_config)
  /\ (app_id orphan_principal
      ∉ allowed_app_ids (allow_deny negative_owner_config))
  /\ app_type orphan_principal <> AppType.FIRST_PARTY_MICROSOFT
  /\ exists r : RiskScore float,
       score_service_principal negative_owner_config [] orphan_principal
       = Some r
       /\ map (fun f => (name f, score f)) (factors r)
          = [("Deny List", 100); ("No Owners", 10)]
       /\ total_score r = 0
       /\ risk_level r = "Low"
       /\ total_score r <> 100
       /\ risk_level r <> "Critical".
Proof.
  split; [apply list_elem_of_here|]. split; [apply not_elem_of_nil|].
  split; [discriminate|].
  eexists. split; [vm_compute; reflexivity|].
  simpl. repeat split; (lia || discriminate).
Qed.

(** ** Exhaustive checks over the small ranges *)

Lemma checked_range (P : Z -> Prop) `{!forall i, Decision (P i)}
    (lo : Z) (n : nat) :
  bool_decide (Forall P (seqZ lo (Z.of_nat n))) = true ->
  forall i, lo <= i < lo + Z.of_nat n -> P i.
Proof.
  intros Hall i Hi. apply bool_decide_eq_true_1 in Hall.
  rewrite Forall_forall in Hall. apply Hall, elem_of_seqZ. lia.
Qed.

Lemma delegated_points_binary64 (i : Z) :
  0 <= i <= 100 ->
  (x ← imul (F:=float) i (fconst 1); int_of_float x) = Some i.
Proof.
  intros Hi.
  apply (checked_range
           (fun i => (x ← imul (F:=float) i (fconst 1); int_of_float x)
                     = Some i) 0 101); [vm_compute; reflexivity | lia].
Qed.

Lemma application_points_binary64 (i : Z) :
  0 <= i <= 100 ->
  (x ← imul (F:=float) i (fconst (15 # 10)); int_of_float x)
  = Some (Z.quot (i * 15) 10).
Proof.
  intros Hi.
  apply (checked_range
           (fun i => (x ← imul (F:=float) i (fconst (15 # 10));
                      int_of_float x) = Some (Z.quot (i * 15) 10)) 0 101);
    [vm_compute; reflexivity | lia].
Qed.

Lemma half_product_points (s : Z) :
  1 <= s <= 150 -> half_product s 1 = Some (2 * s).
Proof.
  intros Hs.
  apply (checked_range (fun s => half_product s 1 = Some (2 * s)) 1 150);
    [vm_compute; reflexivity | lia].
Qed.

Lemma normalise_half_small (k : Z) :
  0 <= k <= 200 ->
  normalise (SF2Prim (half k)) = Some (total_of (k # 2)).
Proof.
  intros Hk.
  apply (checked_range
           (fun k => normalise (SF2Prim (half k)) = Some (total_of (k # 2)))
           0 201); [vm_compute; reflexivity | lia].
Qed.

(** ** The total on doubles *)

Lemma normalise_half (x : float) (k : Z) :
  Prim2SF x = half k -> Z.abs k < 2 ^ 53 ->
  normalise x = Some (total_of (k # 2)).
Proof.
  intros Hx Hk.
  destruct (Z.lt_ge_cases 200 k) as [Habove|Hupto].
  - rewrite total_of_above by (unfold Qlt; simpl; lia).
    apply calculate_total_tail_ge100. rewrite Hx. apply ge100_half. lia.
  - destruct (Z.le_gt_cases 0 k) as [Hpos|Hneg].
    + rewrite <- (SF2Prim_Prim2SF x), Hx. apply normalise_half_small. lia.
    + rewrite total_of_below by (unfold Qle; simpl; lia).
      destruct k as [|p|p]; try lia.
      rewrite half_neg in Hx by lia. unfold canonical in Hx.
      unfold normalise, cap, diminish. simpl. unfold Binary64.gt.
      assert (Hlt : forall c m e,
                 Prim2SF c = S754_finite false m e ->
                 PrimFloat.ltb c x = false).
      { intros c m e Hc. by rewrite ltb_spec, Hc, Hx. }
      rewrite (Hlt (Binary64.const 100) 7036874417766400%positive (-46))
        by (vm_compute; reflexivity).
      rewrite (Hlt (Binary64.const 120) 8444249301319680%positive (-46))
        by (vm_compute; reflexivity).
      unfold Binary64.trunc. rewrite Hx. simpl. f_equal.
      match goal with |- context [if ?b then Z.shiftl ?a ?n else Z.shiftr ?a' ?n'] =>
        assert (0 <= (if b then Z.shiftl a n else Z.shiftr a' n'))
          by (destruct b; [apply Z.shiftl_nonneg | apply Z.shiftr_nonneg]; lia)
      end.
      lia.
Qed.

Lemma half_product_spec (s : Z) (w : Q) (k : Z) :
  half_product s w = Some k ->
  (inject_Z k == 2 * (inject_Z s * w))%Q
  /\ Z.abs k <= 300
  /\ exists c, imul (F:=float) s (Binary64.const w) = Some c
               /\ Prim2SF c = half k.
Proof.
  unfold half_product.
  set (q := Qred (2 * (inject_Z s * w))).
  destruct (Z.eqb_spec (Zpos (Qden q)) 1) as [Hden|]; [|discriminate].
  destruct (Z.leb_spec (Z.abs (Qnum q)) 300) as [Hnum|]; [|discriminate].
  simpl andb. destruct (bool_decide _) eqn:Hc; [|discriminate].
  intros [= <-]. apply bool_decide_eq_true_1 in Hc.
  split; [|split; [exact Hnum|]].
  - rewrite <- (Qred_correct (2 * (inject_Z s * w))). fold q.
    destruct q as [n d]. simpl in *. injection Hden as ->.
    reflexivity.
  - destruct (imul (F:=float) s (Binary64.const w)) as [c|];
      [|discriminate]. exists c. split; [reflexivity|]. by injection Hc.
Qed.

(** The loop of [_calculate_total] on doubles, over factors whose weighted
    contributions are multiples of one half: the running total is exact. *)
Lemma weighted_sum_half (fs : list (RiskFactor Q)) (x : float) (k b : Z) :
  Prim2SF x = half k -> Z.abs k <= b ->
  Forall (fun f => is_Some (half_product (score f) (weight f))) fs ->
  b + 300 * Z.of_nat (length fs) < 2 ^ 53 ->
  exists (y : float) (k' : Z),
    weighted_sum x (map to_double_factor fs) = Some y
    /\ Prim2SF y = half k'
    /\ Z.abs k' <= b + 300 * Z.of_nat (length fs)
    /\ (inject_Z k' == inject_Z k + 2 * wsum fs)%Q.
Proof.
  intros Hx Hk Hfs. revert x k b Hx Hk.
  induction Hfs as [|f fs [kf Hf] _ IH]; intros x k b Hx Hk Hbound.
  - exists x, k. simpl. split; [reflexivity|]. split; [exact Hx|].
    split; [lia|]. change (wsum []) with 0%Q. ring.
  - destruct (half_product_spec _ _ _ Hf) as (Hq & Hkf & c & Hc & Hhalf).
    cbn [length] in Hbound. rewrite Nat2Z.inj_succ in Hbound.
    cbn [map weighted_sum]. change (score (to_double_factor f)) with (score f).
    change (weight (to_double_factor f)) with (Binary64.const (weight f)).
    rewrite Hc. cbn [mbind option_bind].
    destruct (IH (fadd x c) (k + kf) (b + 300)) as (y & k' & Hy & Hy' & Hb & Hsum).
    + simpl. rewrite add_spec, Hx, Hhalf. apply SFadd_half; lia.
    + lia.
    + lia.
    + exists y, k'. split; [exact Hy|]. split; [exact Hy'|].
      split; [cbn [length]; lia|].
      rewrite Hsum, inject_Z_plus, Hq.
      change (wsum (f :: fs)) with (contribution f + wsum fs)%Q.
      unfold contribution. ring.
Qed.

Lemma calculate_total_binary64 (fs : list (RiskFactor Q)) :
  Forall (fun f => is_Some (half_product (score f) (weight f))) fs ->
  300 * Z.of_nat (length fs) < 2 ^ 53 ->
  _calculate_total (map to_double_factor fs) = _calculate_total fs.
Proof.
  intros Hfs Hbound. rewrite _calculate_total_exact.
  destruct fs as [|f fs]; [reflexivity|].
  destruct (weighted_sum_half (f :: fs) (fconst 0) 0 0) as (y & k & Hy & Hy' & Hk & Hsum);
    [vm_compute; reflexivity | lia | exact Hfs | lia |].
  unfold _calculate_total. cbn [map] in *. rewrite Hy. cbn [mbind option_bind].
  change (normalise y = Some (total_of (wsum (f :: fs)))).
  rewrite (normalise_half y k Hy') by lia. f_equal.
  apply total_of_comp. rewrite Qmake_Qdiv.
  change (inject_Z (Zpos 2)) with 2%Q. rewrite Hsum.
  change (inject_Z 0) with 0%Q. field.
Qed.

(** ** The factors on doubles *)

Lemma extend_each_flat_map_in {A B} (body : A -> option (list B))
    (entry : A -> list B) (l : list A) :
  (forall x, x ∈ l -> body x = Some (entry x)) ->
  extend_each body l = Some (flat_map entry l).
Proof.
  induction l as [|x l IH]; intros Hbody; simpl; [reflexivity|].
  rewrite Hbody by apply list_elem_of_here.
  rewrite IH; [reflexivity|].
  intros x' Hx'. apply Hbody. by apply list_elem_of_further.
Qed.

Lemma flat_map_map {A B C} (g : B -> C) (f : A -> list B) (l : list A) :
  flat_map (fun x => map g (f x)) l = map g (flat_map f l).
Proof.
  induction l as [|x l IH]; [reflexivity|]. simpl. by rewrite map_app, IH.
Qed.

Lemma exact_trunc_15_10 (i : Z) :
  Exact.trunc (inject_Z i * (15 # 10)) = Z.quot (i * 15) 10.
Proof. reflexivity. Qed.

Lemma exact_trunc_1 (i : Z) : Exact.trunc (inject_Z i * 1) = i.
Proof. unfold Exact.trunc. simpl. rewrite Z.quot_1_r. lia. Qed.

Section OnDoubles.
Variable config : Config float.
Variable rules : dict Rule.
Hypothesis default_weights : scoring config = default_scoring.

Let exact : Config Q := exact_defaults config.

Lemma _score_trust_factors_binary64 (sp : ServicePrincipal) :
  _score_trust_factors config sp
  = map to_double_factor (_score_trust_factors exact sp).
Proof.
  unfold _score_trust_factors. rewrite default_weights.
  repeat case_match; reflexivity.
Qed.

Lemma _score_ownership_binary64 (sp : ServicePrincipal) :
  _score_ownership config rules sp
  = map to_double_factor (_score_ownership exact rules sp).
Proof.
  unfold _score_ownership. rewrite default_weights.
  repeat case_match; reflexivity.
Qed.

Lemma _score_activity_binary64 (sp : ServicePrincipal) :
  _score_activity config rules sp
  = map to_double_factor (_score_activity exact rules sp).
Proof.
  unfold _score_activity. rewrite default_weights.
  change (thresholds exact) with (thresholds config).
  repeat case_match; reflexivity.
Qed.

Lemma _score_credentials_binary64 (sp : ServicePrincipal) :
  _score_credentials config sp
  = map to_double_factor (_score_credentials exact sp).
Proof.
  unfold _score_credentials.
  change (thresholds exact) with (thresholds config).
  destruct (linked_application sp) as [app|]; [|reflexivity].
  rewrite map_app, <- !flat_map_map. f_equal.
  - apply flat_map_ext. intros [cred days]. by case_match.
  - apply flat_map_ext. intros cred. by repeat case_match.
Qed.

Lemma _score_permissions_binary64 (sp : ServicePrincipal) :
  impacts_in_range rules sp ->
  exists permission_factors,
    _score_permissions exact rules sp = Some permission_factors
    /\ _score_permissions config rules sp
       = Some (map to_double_factor permission_factors).
Proof.
  intros Hrange. rewrite _score_permissions_exact. eexists.
  split; [reflexivity|].
  unfold _score_permissions. rewrite default_weights.
  rewrite (extend_each_flat_map_in _
             (fun scope => map to_double_factor
                             (delegated_entry exact rules scope))
             (elements (all_delegated_scopes sp))).
  2:{ intros scope Hscope. apply elem_of_elements in Hscope.
      pose proof (Hrange scope (proj2 (elem_of_union _ _ _) (or_introl Hscope)))
        as Hi.
      pose proof (delegated_points_binary64 _ Hi) as Hpoints.
      unfold delegated_entry.
      change (delegated_permission_multiplier (scoring exact)) with 1%Q.
      rewrite exact_trunc_1. simpl in Hpoints |- *.
      destruct (imul _ _) as [x|]; [|discriminate]. simpl in Hpoints |- *.
      rewrite Hpoints. simpl. by case_match. }
  cbn [mbind option_bind].
  rewrite (extend_each_flat_map_in _
             (fun role => map to_double_factor
                            (application_entry exact rules role))
             (elements (all_app_role_values sp))).
  2:{ intros role Hrole. apply elem_of_elements in Hrole.
      pose proof (Hrange role (proj2 (elem_of_union _ _ _) (or_intror Hrole)))
        as Hi.
      pose proof (application_points_binary64 _ Hi) as Hpoints.
      unfold application_entry.
      destruct (negb (scored_role role)); [reflexivity|].
      change (application_permission_multiplier (scoring exact))
        with (15 # 10)%Q.
      rewrite exact_trunc_15_10. simpl in Hpoints |- *.
      destruct (imul _ _) as [x|]; [|discriminate]. simpl in Hpoints |- *.
      rewrite Hpoints. simpl. by case_match. }
  cbn [mbind option_bind]. rewrite !flat_map_map, !map_app. f_equal.
  f_equal. f_equal. unfold consent_entry. by case_match.
Qed.

End OnDoubles.

(** ** The contributions under the default weights *)

Local Ltac half_constant :=
  apply (bool_decide_unpack _); vm_compute; exact I.

Section HalfProducts.
Variable config : Config Q.
Variable rules : dict Rule.
Hypothesis default_weights : scoring config = default_scoring.

Let halves (f : RiskFactor Q) : Prop :=
  is_Some (half_product (score f) (weight f)).

Lemma Forall_flat_map_in {A B} (P : B -> Prop) (f : A -> list B)
    (l : list A) :
  (forall x, x ∈ l -> Forall P (f x)) -> Forall P (flat_map f l).
Proof.
  intros Hf. apply Forall_forall. intros y Hy.
  apply elem_of_flat_map in Hy as (x & Hx & Hy).
  specialize (Hf x Hx). rewrite Forall_forall in Hf. by apply Hf.
Qed.

Lemma delegated_entry_halves (scope : string) :
  0 <= impact_score (translate1 rules scope) <= 100 ->
  Forall halves (delegated_entry config rules scope).
Proof.
  intros Hi. unfold delegated_entry. rewrite default_weights.
  change (delegated_permission_multiplier default_scoring) with 1%Q.
  rewrite exact_trunc_1.
  destruct (Z.ltb_spec 0 (impact_score (translate1 rules scope)));
    [|constructor].
  constructor; [|constructor]. unfold halves. cbn [score weight].
  rewrite half_product_points by lia. by eexists.
Qed.

Lemma application_entry_halves (role : string) :
  0 <= impact_score (translate1 rules role) <= 100 ->
  Forall halves (application_entry config rules role).
Proof.
  intros Hi. unfold application_entry. rewrite default_weights.
  destruct (negb (scored_role role)); [constructor|].
  change (application_permission_multiplier default_scoring)
    with (15 # 10)%Q.
  rewrite exact_trunc_15_10.
  rewrite Z.quot_div_nonneg by lia.
  destruct (Z.ltb_spec 0 (impact_score (translate1 rules role) * 15 / 10));
    [|constructor].
  constructor; [|constructor]. unfold halves. cbn [score weight].
  rewrite half_product_points; [by eexists|].
  split; [lia|]. apply Z.div_le_upper_bound; lia.
Qed.

Lemma consent_entry_halves (sp : ServicePrincipal) :
  Forall halves (consent_entry config sp).
Proof.
  unfold consent_entry. rewrite default_weights.
  case_match; repeat constructor. half_constant.
Qed.

Lemma _score_trust_factors_halves (sp : ServicePrincipal) :
  Forall halves (_score_trust_factors config sp).
Proof.
  unfold _score_trust_factors. rewrite default_weights.
  repeat case_match; repeat constructor; half_constant.
Qed.

Lemma _score_ownership_halves (sp : ServicePrincipal) :
  Forall halves (_score_ownership config rules sp).
Proof.
  unfold _score_ownership. rewrite default_weights.
  repeat case_match; repeat constructor; half_constant.
Qed.

Lemma _score_activity_halves (sp : ServicePrincipal) :
  Forall halves (_score_activity config rules sp).
Proof.
  unfold _score_activity. rewrite default_weights.
  repeat case_match; repeat constructor; half_constant.
Qed.

Lemma _score_credentials_halves (sp : ServicePrincipal) :
  Forall halves (_score_credentials config sp).
Proof.
  unfold _score_credentials.
  destruct (linked_application sp) as [app|]; [|constructor].
  apply Forall_app. split; apply Forall_flat_map_in.
  - intros [cred days] _. case_match; repeat constructor. half_constant.
  - intros cred _. repeat case_match; repeat constructor. half_constant.
Qed.

(** Every factor of a score contributes a multiple of one half that the
    doubles compute exactly. *)
Lemma factors_halves (sp : ServicePrincipal) (r : RiskScore Q) :
  impacts_in_range rules sp ->
  app_id sp ∉ allowed_app_ids (allow_deny config) ->
  score_service_principal config rules sp = Some r ->
  Forall halves (factors r).
Proof.
  intros Hrange Hallow Hscore.
  destruct (score_service_principal_factors config rules sp r Hallow Hscore)
    as (pf & Hpf & -> & _).
  rewrite _score_permissions_exact in Hpf. injection Hpf as <-.
  repeat (apply Forall_app; split).
  - case_match; repeat constructor. half_constant.
  - apply Forall_flat_map_in. intros scope Hscope%elem_of_elements.
    apply delegated_entry_halves, Hrange, elem_of_union. by left.
  - apply Forall_flat_map_in. intros role Hrole%elem_of_elements.
    apply application_entry_halves, Hrange, elem_of_union. by right.
  - apply consent_entry_halves.
  - apply _score_trust_factors_halves.
  - apply _score_ownership_halves.
  - apply _score_activity_halves.
  - apply _score_credentials_halves.
Qed.

Lemma length_omap_le {A B} (f : A -> option B) (l : list A) :
  (length (omap f l) <= length l)%nat.
Proof.
  induction l as [|x l IH]; [reflexivity|].
  change (omap f (x :: l))
    with (match f x with Some y => y :: omap f l | None => omap f l end).
  destruct (f x); simpl; lia.
Qed.

Lemma length_factors (sp : ServicePrincipal) (r : RiskScore Q) :
  app_id sp ∉ allowed_app_ids (allow_deny config) ->
  score_service_principal config rules sp = Some r ->
  (length (factors r)
   <= 6 + size (all_delegated_scopes sp) + size (all_app_role_values sp)
      + 2 * match linked_application sp with
            | Some app => length (all_credentials app)
            | None => 0
            end)%nat.
Proof.
  intros Hallow Hscore.
  destruct (score_service_principal_factors config rules sp r Hallow Hscore)
    as (pf & Hpf & -> & _).
  rewrite _score_permissions_exact in Hpf. injection Hpf as <-.
  rewrite !length_app.
  assert (H1 : (length (if bool_decide (app_id sp
                                         ∈ denied_app_ids (allow_deny config))
                        then [deny_factor (F:=Q) sp] else []) <= 1)%nat)
    by (case_match; simpl; lia).
  assert (H2 : (length (flat_map (delegated_entry config rules)
                          (elements (all_delegated_scopes sp)))
                <= size (all_delegated_scopes sp))%nat).
  { etransitivity; [apply (flat_map_length_le _ 1)|].
    - intros scope. unfold delegated_entry.
      destruct (0 <? _); simpl; lia.
    - rewrite Nat.mul_1_l. reflexivity. }
  assert (H3 : (length (flat_map (application_entry config rules)
                          (elements (all_app_role_values sp)))
                <= size (all_app_role_values sp))%nat).
  { etransitivity; [apply (flat_map_length_le _ 1)|].
    - intros role. unfold application_entry.
      destruct (negb _); [simpl; lia|]. destruct (0 <? _); simpl; lia.
    - rewrite Nat.mul_1_l. reflexivity. }
  assert (H4 : (length (consent_entry config sp) <= 1)%nat)
    by (unfold consent_entry; destruct (existsb _ _); simpl; lia).
  assert (H5 : (length (_score_trust_factors config sp) <= 2)%nat)
    by (unfold _score_trust_factors; repeat case_match; simpl; lia).
  assert (H6 : (length (_score_ownership config rules sp) <= 1)%nat)
    by (unfold _score_ownership; repeat case_match; simpl; lia).
  assert (H7 : (length (_score_activity config rules sp) <= 1)%nat)
    by (unfold _score_activity; repeat case_match; simpl; lia).
  assert (H8 : (length (_score_credentials config sp)
                <= 2 * match linked_application sp with
                       | Some app => length (all_credentials app)
                       | None => 0
                       end)%nat).
  { unfold _score_credentials.
    destruct (linked_application sp) as [app|]; [|simpl; lia].
    rewrite length_app.
    assert (Ha : (length (expiring_credentials app)
                  <= length (all_credentials app))%nat).
    { unfold expiring_credentials.
      rewrite (Permutation_length (sorted_by_perm _ _)).
      apply length_omap_le. }
    match goal with |- (length (flat_map ?f ?l) + length (flat_map ?g ?l')
                        <= _)%nat =>
      pose proof (flat_map_length_le f 1 l) as Hb1;
      pose proof (flat_map_length_le g 1 l') as Hb2 end.
    lapply Hb1; [|intros [cred days]; destruct (_ <=? _); simpl; lia].
    lapply Hb2; [|intros cred; repeat case_match; simpl; lia].
    lia. }
  lia.
Qed.

End HalfProducts.

(** ** The score on doubles *)

(** Under the default weights, with impact scores in 0..100 and fewer
    than [2 ^ 32] permissions and credentials, the scorer returns on
    doubles the score it returns in exact arithmetic: every contribution
    and every partial sum is a multiple of one half that the doubles hold
    exactly. *)
Lemma score_binary64_exact (config : Config float) (rules : dict Rule)
    (sp : ServicePrincipal) :
  scoring config = default_scoring ->
  impacts_in_range rules sp ->
  moderate_size sp ->
  exists r : RiskScore Q,
    score_service_principal (exact_defaults config) rules sp = Some r
    /\ score_service_principal config rules sp = Some (to_double_score r).
Proof.
  intros Hweights Hrange Hsize.
  destruct (decide (app_id sp ∈ allowed_app_ids (allow_deny config)))
    as [Hallow|Hallow].
  { exists allow_list_score. unfold score_service_principal.
    change (allow_deny (exact_defaults config)) with (allow_deny config).
    rewrite !bool_decide_eq_true_2 by exact Hallow. split; reflexivity. }
  destruct (score_service_principal_exact_total (exact_defaults config)
              rules sp Hallow) as (r & Hr & _).
  exists r. split; [exact Hr|].
  pose proof (factors_halves (exact_defaults config) rules eq_refl sp r
                Hrange Hallow Hr) as Hhalves.
  pose proof (length_factors (exact_defaults config) rules sp r Hallow Hr)
    as Hlength.
  pose proof (score_service_principal_level (exact_defaults config) rules sp
                r Hallow Hr) as Hlevel.
  destruct (score_service_principal_factors (exact_defaults config) rules sp
              r Hallow Hr)
    as (pf & Hpf & Hfactors & Htotal).
  destruct (_score_permissions_binary64 config rules Hweights sp Hrange)
    as (pf' & Hpf' & Hpf64).
  rewrite Hpf in Hpf'. injection Hpf' as <-.
  unfold score_service_principal.
  rewrite bool_decide_eq_false_2 by exact Hallow.
  rewrite Hpf64. cbn [mbind option_bind].
  rewrite (_score_trust_factors_binary64 config Hweights),
    (_score_ownership_binary64 config rules Hweights),
    (_score_activity_binary64 config rules Hweights),
    (_score_credentials_binary64 config).
  change (allow_deny (exact_defaults config)) with (allow_deny config)
    in Hfactors.
  match goal with |- mbind _ (_calculate_total ?fs) = _ =>
    assert (Hfs : fs = map to_double_factor (factors r)) end.
  { rewrite Hfactors, !map_app.
    destruct (linked_application sp) eqn:Hlinked.
    - rewrite <- !app_assoc. f_equal. by case_match.
    - rewrite (_score_credentials_unlinked (exact_defaults config) sp Hlinked).
      simpl map at 6. rewrite app_nil_r, <- !app_assoc.
      f_equal. by case_match. }
  rewrite Hfs, calculate_total_binary64, Htotal.
  - cbn [mbind option_bind]. unfold to_double_score. f_equal.
    destruct r as [total level fs]. simpl in *. by rewrite Hlevel.
  - exact Hhalves.
  - unfold moderate_size in Hsize. lia.
Qed.

Lemma impacts_in_range_checked (rules : dict Rule) (sp : ServicePrincipal) :
  Forall (fun p => 0 <= impact_score (translate1 rules p) <= 100)
         (elements (all_delegated_scopes sp ∪ all_app_role_values sp)) ->
  impacts_in_range rules sp.
Proof.
  intros Hall p Hp. rewrite Forall_forall in Hall.
  by apply Hall, elem_of_elements.
Qed.

Local Ltac by_evaluation := apply (bool_decide_unpack _); vm_compute; exact I.

(** ** The deny list (C5), on doubles *)

Lemma deny_listed_default (config : Config float) (rules : dict Rule)
    (sp : ServicePrincipal) :
  scoring config = default_scoring ->
  impacts_in_range rules sp ->
  moderate_size sp ->
  app_id sp ∈ denied_app_ids (allow_deny config) ->
  app_id sp ∉ allowed_app_ids (allow_deny config) ->
  app_type sp <> AppType.FIRST_PARTY_MICROSOFT ->
  exists r : RiskScore float,
    score_service_principal config rules sp = Some r
    /\ total_score r = 100
    /\ risk_level r = "Critical".
Proof.
  intros Hweights Hrange Hsize Hdenied Hallow Hfp.
  destruct (score_binary64_exact config rules sp Hweights Hrange Hsize)
    as (r & _ & Hr).
  exists (to_double_score r). split; [exact Hr|].
  apply (deny_listed_binary64 config rules sp _ Hdenied Hallow); [|exact Hfp
                                                                  |exact Hr].
  rewrite Hweights. unfold weights_nonneg64. simpl.
  repeat split; vm_compute; reflexivity.
Qed.

(** C5, amended.  The factor list of a deny-listed service principal that
    is not allow-listed starts with the deny factor, of score 100 and
    weight 1.0, and every other factor has a positive score, except the
    first-party trust factor (score -30).  When the five configured
    weights that multiply a positive score are non-negative doubles (as
    the defaults are) and the identity is not first-party, every score the
    scorer returns on doubles is 100, level Critical; under the default
    weights, with impact scores in 0..100 and fewer than [2 ^ 32]
    permissions and credentials, the scorer does return one.  In exact
    arithmetic the same holds, and for a first-party identity the weighted
    total is at least 100 minus 30 times the first-party weight. *)
Theorem deny_listed_reaches_ceiling :
  (forall F (PF : PyFloat F) (config : Config F) (rules : dict Rule)
          (sp : ServicePrincipal) (r : RiskScore F),
     app_id sp ∈ denied_app_ids (allow_deny config) ->
     app_id sp ∉ allowed_app_ids (allow_deny config) ->
     score_service_principal config rules sp = Some r ->
     exists others,
       factors r = deny_factor sp :: others
       /\ score (deny_factor (F:=F) sp) = 100
       /\ weight (deny_factor sp) = fconst 1
       /\ Forall (fun f => 0 < score f
                           \/ (f = first_party_factor config
                               /\ app_type sp = AppType.FIRST_PARTY_MICROSOFT))
                 others)
  /\ (forall (config : Config float) (rules : dict Rule)
             (sp : ServicePrincipal) (r : RiskScore float),
        app_id sp ∈ denied_app_ids (allow_deny config) ->
        app_id sp ∉ allowed_app_ids (allow_deny config) ->
        weights_nonneg64 (scoring config) ->
        app_type sp <> AppType.FIRST_PARTY_MICROSOFT ->
        score_service_principal config rules sp = Some r ->
        total_score r = 100 /\ risk_level r = "Critical")
  /\ (forall (config : Config float) (rules : dict Rule)
             (sp : ServicePrincipal),
        scoring config = default_scoring ->
        impacts_in_range rules sp ->
        moderate_size sp ->
        app_id sp ∈ denied_app_ids (allow_deny config) ->
        app_id sp ∉ allowed_app_ids (allow_deny config) ->
        app_type sp <> AppType.FIRST_PARTY_MICROSOFT ->
        exists r : RiskScore float,
          score_service_principal config rules sp = Some r
          /\ total_score r = 100
          /\ risk_level r = "Critical")
  /\ (forall (config : Config Q) (rules : dict Rule) (sp : ServicePrincipal)
             (r : RiskScore Q),
        app_id sp ∈ denied_app_ids (allow_deny config) ->
        app_id sp ∉ allowed_app_ids (allow_deny config) ->
        weights_nonneg (scoring config) ->
        score_service_principal config rules sp = Some r ->
        (app_type sp <> AppType.FIRST_PARTY_MICROSOFT ->
         (100 <= wsum (factors r))%Q
         /\ total_score r = 100
         /\ risk_level r = "Critical")
        /\ (app_type sp = AppType.FIRST_PARTY_MICROSOFT ->
            (100 - 30 * first_party_microsoft_weight (scoring config)
             <= wsum (factors r))%Q)).
Proof.
  split; [|split; [|split]].
  - intros F PF. apply deny_listed_factors.
  - apply deny_listed_binary64.
  - apply deny_listed_default.
  - apply deny_listed_exact.
Qed.

(** The deny-listed third-party identity [risky_principal], without owners
    and with two user-consented scopes, on doubles under the default
    weights: six factors, total 100, level Critical. *)
Lemma deny_listed_reaches_ceiling_witness :
  exists r : RiskScore float,
    score_service_principal (with_lists default_config [] ["app-risky"])
      mail_catalog risky_principal = Some r
    /\ map (fun f => (name f, score f)) (factors r)
       = [("Deny List", 100); ("Delegated: offline_access", 30);
          ("Delegated: Mail.ReadWrite", 30); ("User Consent Present", 20);
          ("Third-Party Multi-Tenant", 10); ("No Owners", 10)]
    /\ total_score r = 100
    /\ risk_level r = "Critical".
Proof.
  destruct (proj1 (proj2 (proj2 deny_listed_reaches_ceiling))
              (with_lists default_config [] ["app-risky"]) mail_catalog
              risky_principal) as (r & Hscore & Htotal & Hlevel).
  - reflexivity.
  - apply impacts_in_range_checked. by_evaluation.
  - unfold moderate_size. vm_compute. reflexivity.
  - simpl. apply list_elem_of_here.
  - simpl. apply not_elem_of_nil.
  - discriminate.
  - exists r. split; [exact Hscore|].
    split; [vm_compute in Hscore; by injection Hscore as <-|].
    by split.
Defined.

(** ** First-party identities (C4), on doubles *)





(** ** Application roles against delegated scopes (C7), on doubles *)

Lemma to_double_factor_inj (f g : RiskFactor Q) :
  weight f = weight g -> to_double_factor f = to_double_factor g -> f = g.
Proof.
  destruct f, g. unfold to_double_factor. simpl.
  intros -> [= -> -> -> ->]. reflexivity.
Qed.

Lemma map_to_double_factor_inj (w : Q) (fs gs : list (RiskFactor Q)) :
  Forall (fun f => weight f = w) fs -> Forall (fun f => weight f = w) gs ->
  map to_double_factor fs = map to_double_factor gs -> fs = gs.
Proof.
  intros Hfs. revert gs.
  induction Hfs as [|f fs Hf _ IH]; intros gs Hgs Heq;
    destruct Hgs as [|g gs Hg Hgs]; try discriminate; [reflexivity|].
  simpl in Heq.
  apply (f_equal (fun l => match l with x :: _ => x | [] => to_double_factor f
                           end)) in Heq as Hhead.
  apply (f_equal tail) in Heq as Htail. simpl in Hhead, Htail. f_equal.
  - apply to_double_factor_inj; [by rewrite Hf, Hg | exact Hhead].
  - by apply IH.
Qed.

Lemma _score_activity_weight {F} `{PyFloat F} (config : Config F)
    (rules : dict Rule) (sp : ServicePrincipal) :
  Forall (fun f => weight f = unused_high_privilege_weight (scoring config))
         (_score_activity config rules sp).
Proof. unfold _score_activity. repeat case_match; by repeat constructor. Qed.

Lemma moderate_size_with_scope (sp : ServicePrincipal) (v : string) :
  split v = [v] ->
  v ∉ all_delegated_scopes sp -> v ∉ all_app_role_values sp ->
  moderate_size (with_role sp v) -> moderate_size (with_scope sp v).
Proof.
  intros Hv Hscope Hrole. unfold moderate_size.
  rewrite all_delegated_scopes_with_scope by exact Hv.
  rewrite all_app_role_values_with_role by (by apply split_single_nonempty).
  change (all_delegated_scopes (with_role sp v)) with (all_delegated_scopes sp).
  change (all_app_role_values (with_scope sp v)) with (all_app_role_values sp).
  change (linked_application (with_role sp v)) with (linked_application sp).
  change (linked_application (with_scope sp v)) with (linked_application sp).
  rewrite !size_union by set_solver. rewrite !size_singleton. lia.
Qed.

Lemma impacts_in_range_with (rules : dict Rule) (sp : ServicePrincipal)
    (v : string) :
  split v = [v] ->
  impacts_in_range rules sp ->
  0 <= impact_score (translate1 rules v) <= 100 ->
  impacts_in_range rules (with_role sp v)
  /\ impacts_in_range rules (with_scope sp v).
Proof.
  intros Hv Hrange Hi. unfold impacts_in_range.
  rewrite all_delegated_scopes_with_scope by exact Hv.
  rewrite all_app_role_values_with_role by (by apply split_single_nonempty).
  change (all_delegated_scopes (with_role sp v)) with (all_delegated_scopes sp).
  change (all_app_role_values (with_scope sp v)) with (all_app_role_values sp).
  split; intros p Hp.
  - apply elem_of_union in Hp as [Hp|Hp].
    + apply Hrange, elem_of_union. by left.
    + apply elem_of_union in Hp as [Hp|Hp].
      * apply Hrange, elem_of_union. by right.
      * apply elem_of_singleton in Hp as ->. exact Hi.
  - apply elem_of_union in Hp as [Hp|Hp].
    + apply elem_of_union in Hp as [Hp|Hp].
      * apply Hrange, elem_of_union. by left.
      * apply elem_of_singleton in Hp as ->. exact Hi.
    + apply Hrange, elem_of_union. by right.
Qed.

(** C7, amended.  On doubles under the default weights, with impact scores
    in 0..100 and fewer than [2 ^ 32] permissions and credentials: for an
    identity [sp] and a permission value [v] (one token, hence not the
    "Default Access" sentinel) that [sp] holds in neither way, both the
    identity that gets [v] as an application role and the one that gets it
    as an admin-consented delegated scope are scored, and the role holder
    scores at least as much as the scope holder; strictly more when the
    impact of [v] is at least 2, both get the same activity factors, the
    scope holder's total is below 100 and the role holder's total is above
    0. *)
Theorem application_role_scores_at_least_delegated
    (config : Config float) (rules : dict Rule) (sp : ServicePrincipal)
    (v : string) :
  scoring config = default_scoring ->
  split v = [v] ->
  v ∉ all_delegated_scopes sp ->
  v ∉ all_app_role_values sp ->
  impacts_in_range rules sp ->
  0 <= impact_score (translate1 rules v) <= 100 ->
  moderate_size (with_role sp v) ->
  exists r_app r_del : RiskScore float,
    score_service_principal config rules (with_role sp v) = Some r_app
    /\ score_service_principal config rules (with_scope sp v) = Some r_del
    /\ total_score r_del <= total_score r_app
    /\ (2 <= impact_score (translate1 rules v) ->
        _score_activity config rules (with_scope sp v)
        = _score_activity config rules (with_role sp v) ->
        total_score r_del < 100 ->
        0 < total_score r_app ->
        total_score r_del < total_score r_app).
Proof.
  intros Hweights Hv Hscope Hrole Hrange Hi Hsize.
  destruct (impacts_in_range_with rules sp v Hv Hrange Hi)
    as [Hrange_role Hrange_scope].
  pose proof (moderate_size_with_scope sp v Hv Hscope Hrole Hsize)
    as Hsize_scope.
  destruct (score_binary64_exact config rules (with_role sp v) Hweights
              Hrange_role Hsize) as (q_app & Hq_app & Happ).
  destruct (score_binary64_exact config rules (with_scope sp v) Hweights
              Hrange_scope Hsize_scope) as (q_del & Hq_del & Hdel).
  destruct (application_role_exact (exact_defaults config) rules sp v)
    as (r_app & r_del & Hr_app & Hr_del & Hle & Hstrict);
    [reflexivity | reflexivity | simpl; lra | exact Hv | exact Hscope
    | exact Hrole |].
  rewrite Hq_app in Hr_app. injection Hr_app as <-.
  rewrite Hq_del in Hr_del. injection Hr_del as <-.
  exists (to_double_score q_app), (to_double_score q_del).
  split; [exact Happ|]. split; [exact Hdel|]. split; [exact Hle|].
  intros Himpact Hactivity. simpl. apply Hstrict; [exact Himpact|].
  rewrite !(_score_activity_binary64 config rules Hweights) in Hactivity.
  eapply map_to_double_factor_inj; [| |exact Hactivity];
    apply _score_activity_weight.
Qed.

(** Mail.Read (impact 75) on a tenant-owned identity with an owner, on
    doubles: 75 as a delegated scope, 100 as an application role. *)
Lemma application_role_scores_at_least_delegated_witness :
  exists r_app r_del : RiskScore float,
    score_service_principal default_config mail_catalog
      (with_role owned_principal "Mail.Read") = Some r_app
    /\ score_service_principal default_config mail_catalog
         (with_scope owned_principal "Mail.Read") = Some r_del
    /\ total_score r_del = 75
    /\ total_score r_app = 100
    /\ total_score r_del < total_score r_app.
Proof.
  destruct (application_role_scores_at_least_delegated
              default_config mail_catalog owned_principal "Mail.Read")
    as (r_app & r_del & Happ & Hdel & _ & Hstrict).
  - reflexivity.
  - reflexivity.
  - apply not_elem_of_empty.
  - apply not_elem_of_empty.
  - apply impacts_in_range_checked. by_evaluation.
  - vm_compute. split; discriminate.
  - unfold moderate_size. vm_compute. reflexivity.
  - exists r_app, r_del.
    assert (Ht_app : total_score r_app = 100).
    { vm_compute in Happ. by injection Happ as <-. }
    assert (Ht_del : total_score r_del = 75).
    { vm_compute in Hdel. by injection Hdel as <-. }
    split; [exact Happ|]. split; [exact Hdel|].
    split; [exact Ht_del|]. split; [exact Ht_app|].
    apply Hstrict; [vm_compute; discriminate | reflexivity | lia | lia].
Defined.

(** ** The total and the score on doubles *)

(** X8. On doubles, for a list of [n] factors with decimal weights,
    [300 * n < 2 ^ 53], in which every score times weight is a multiple of
    one half, of magnitude at most 150, that the product of the doubles
    gives exactly, [_calculate_total] is the exact weighted sum of the
    factors, truncated toward zero and clamped to [0,100]: no rounding
    reaches the total, and neither the scaling of the excess above 100 nor
    the cap at 120 changes it.  Hence on such lists the total does not
    depend on the order of the factors, and one more factor of
    non-negative contribution never lowers it.  The condition on the
    products is needed: ten factors of score 1 and weight 0.1, none of
    which meets it, total 0 on doubles and 1 in exact arithmetic. *)
Theorem calculate_total_binary64_is_clamped_sum :
  (forall fs : list (RiskFactor Q),
     Forall (fun f => is_Some (half_product (score f) (weight f))) fs ->
     300 * Z.of_nat (length fs) < 2 ^ 53 ->
     _calculate_total (map to_double_factor fs)
     = Some (Z.max 0 (Z.min 100 (Exact.trunc (wsum fs)))))
  /\ (forall fs gs : list (RiskFactor Q),
        Forall (fun f => is_Some (half_product (score f) (weight f))) fs ->
        300 * Z.of_nat (length fs) < 2 ^ 53 ->
        fs ≡ₚ gs ->
        _calculate_total (map to_double_factor fs)
        = _calculate_total (map to_double_factor gs))
  /\ (forall (fs : list (RiskFactor Q)) (f : RiskFactor Q),
        Forall (fun f => is_Some (half_product (score f) (weight f)))
               (fs ++ [f]) ->
        300 * Z.of_nat (length (fs ++ [f])) < 2 ^ 53 ->
        (0 <= inject_Z (score f) * weight f)%Q ->
        exists a b,
          _calculate_total (map to_double_factor fs) = Some a
          /\ _calculate_total (map to_double_factor (fs ++ [f])) = Some b
          /\ a <= b)
  /\ (Forall (fun f => half_product (score f) (weight f) = None) ten_tenths
      /\ _calculate_total (map to_double_factor ten_tenths) = Some 0
      /\ _calculate_total ten_tenths = Some 1).
Proof.
  destruct calculate_total_exact_clamped as (Hclamp & Hperm & Hmono).
  split; [|split; [|split]].
  - intros fs Hfs Hlen. by rewrite calculate_total_binary64, Hclamp.
  - intros fs gs Hfs Hlen Hfg.
    rewrite !calculate_total_binary64; [by apply Hperm | | | exact Hfs
                                        | exact Hlen].
    + by rewrite <- Hfg.
    + by rewrite <- Hfg.
  - intros fs f Hfs Hlen Hf.
    destruct (Hmono fs f Hf) as (a & b & Ha & Hb & Hab).
    exists a, b. rewrite !calculate_total_binary64; try done.
    + by apply Forall_app in Hfs as [Hfs _].
    + rewrite length_app in Hlen. lia.
  - split; [|split]; [|vm_compute; reflexivity..].
    unfold ten_tenths. simpl. repeat constructor.
Qed.

(** The six factors of [sample_factors] sum to 209 and total 100 on
    doubles. *)
Lemma calculate_total_binary64_is_clamped_sum_witness :
  (wsum sample_factors == 209)%Q
  /\ _calculate_total (map to_double_factor sample_factors) = Some 100.
Proof.
  split; [reflexivity|].
  rewrite (proj1 calculate_total_binary64_is_clamped_sum sample_factors).
  - reflexivity.
  - unfold sample_factors. repeat constructor; by_evaluation.
  - vm_compute. reflexivity.
Defined.

(** X27. Under the default weights, with impact scores in 0..100 and fewer
    than [2 ^ 32] permissions and credentials, [score_service_principal]
    on doubles always returns a score, and it is the score of exact
    decimal arithmetic: the same total, the same level and the same
    factors, with the weights as doubles. *)
Theorem score_on_doubles_is_exact (config : Config float)
    (rules : dict Rule) (sp : ServicePrincipal) :
  scoring config = default_scoring ->
  impacts_in_range rules sp ->
  moderate_size sp ->
  exists r : RiskScore Q,
    score_service_principal (exact_defaults config) rules sp = Some r
    /\ score_service_principal config rules sp = Some (to_double_score r).
Proof. apply score_binary64_exact. Qed.

(** The deny-listed identity [risky_principal]: 100 + 30 + 30 + 24 + 12 + 13
    = 209 before normalisation, total 100, in both arithmetics. *)
Lemma score_on_doubles_is_exact_witness :
  exists r : RiskScore Q,
    score_service_principal
      (exact_defaults (with_lists (default_config (F:=float)) []
                         ["app-risky"]))
      mail_catalog risky_principal = Some r
    /\ score_service_principal
         (with_lists (default_config (F:=float)) [] ["app-risky"])
         mail_catalog risky_principal = Some (to_double_score r)
    /\ (wsum (factors r) == 209)%Q
    /\ total_score r = 100.
Proof.
  destruct (score_on_doubles_is_exact
              (with_lists default_config [] ["app-risky"]) mail_catalog
              risky_principal) as (r & Hr & Hr64).
  - reflexivity.
  - apply impacts_in_range_checked. by_evaluation.
  - unfold moderate_size. vm_compute. reflexivity.
  - exists r. split; [exact Hr|]. split; [exact Hr64|].
    vm_compute in Hr. injection Hr as <-. split; reflexivity.
Defined.
